(** * webbpsf_ext: a shallow embedding of the PSF-coefficient core,
      the coordinate helpers and the image resizing helper.

    Sources embedded here:
    - [webbpsf_ext/webbpsf_ext_core.py]: [_check_list], the [ndeg] / [quick]
      properties of [NIRCam_ext] and [MIRI_ext], [_drift_opd],
      [_gen_wfedrift_coeff], the residual steps of [_gen_wfemask_coeff] and
      [_gen_wfefield_coeff], [_calc_psf_from_coeff], [_wfe_drift_key],
      [_coeff_mod_wfe_drift], [_coeff_mod_wfe_field], [_coeff_mod_wfe_mask],
      the [npsf] property and the NIRCam wrappers [gen_psf_coeff] and
      [gen_wfedrift_coeff];
    - [webbpsf_ext/coords.py]: [dist_image], [xy_to_rtheta], [rtheta_to_xy],
      [xy_rot], [get_NRC_v2v3_limits], [NIRCam_V2V3_limits],
      [gen_sgd_offsets], [get_idl_offset];
    - [webbpsf_ext/image_manip.py]: [pad_or_cut_to_size], [fshift].

    Conventions.  Python floats are idealised: pixel and coefficient values
    and drift amplitudes are real numbers ([R]); pixel counts and mask
    offsets, on which the code branches by comparison, are rationals ([Q])
    or integers ([Z]) so that the branches compute.  Python objects that are
    mutated through a shared reference live in an explicit store.  An
    exception is a value of [exn]; a computation that can raise and that
    changes the world has type [M W A]: it maps a world to a result and the
    world it leaves behind, which, as in Python, keeps every mutation made
    before the exception was raised. *)

From Stdlib Require Import Reals Lra ZArith QArith Qabs Qround List String Ascii Bool Lia.
From stdpp Require Import base option gmap strings pretty list fin_maps.
Import ListNotations.

Local Open Scope Z_scope.

(** ** Python values, exceptions and the state/exception monad *)

(** The Python values that reach the validated settings. *)
Inductive pyval :=
| PNone
| PBool (b : bool)
| PInt (n : Z)
| PStr (s : string).

(** Python [==] on these values: [bool] is a subclass of [int], so
    [True == 1] and [False == 0]; [None] equals only itself and a string
    equals only an equal string. *)
Definition py_eq (a b : pyval) : bool :=
  match a, b with
  | PNone, PNone => true
  | PBool x, PBool y => Bool.eqb x y
  | PBool x, PInt n | PInt n, PBool x => Z.eqb (if x then 1 else 0) n
  | PInt n, PInt m => Z.eqb n m
  | PStr s, PStr t => String.eqb s t
  | _, _ => false
  end.

(** [value in temp_list] *)
Definition py_in (v : pyval) (l : list pyval) : bool := existsb (py_eq v) l.

(** [str(val)], which is also what [format] substitutes for [{}]. *)
Definition py_str (v : pyval) : string :=
  match v with
  | PNone => "None"
  | PBool true => "True"
  | PBool false => "False"
  | PInt n => pretty n
  | PStr s => s
  end.

(** Truth value of a Python object in a condition. *)
Definition py_truth (v : pyval) : bool :=
  match v with
  | PNone => false
  | PBool b => b
  | PInt n => negb (Z.eqb n 0)
  | PStr s => negb (String.eqb s "")
  end.

(** [sep.join(l)] *)
Fixpoint py_join (sep : string) (l : list string) : string :=
  match l with
  | [] => ""
  | [s] => s
  | s :: tl => s +:+ sep +:+ py_join sep tl
  end.

(** [sub in s] for strings. *)
Fixpoint str_contains (sub s : string) : bool :=
  String.prefix sub s ||
  match s with
  | EmptyString => false
  | String _ tl => str_contains sub tl
  end.

(** [s[-1]]: the last character of a string, if any. *)
Fixpoint str_last (s : string) : option ascii :=
  match s with
  | EmptyString => None
  | String c EmptyString => Some c
  | String _ tl => str_last tl
  end.

Inductive exn :=
| ValueError (msg : string)
| KeyError (key : string)
| IndexError (msg : string)
| TypeError (msg : string)
| AttributeError (msg : string)
| UnboundLocalError (var : string)
| AssertionError (msg : string)
| NotImplementedError (msg : string)
| RuntimeError (msg : string)
| OtherError (msg : string).

Inductive res (A : Type) :=
| Ok (a : A)
| Raise (e : exn).
Arguments Ok {A} a.
Arguments Raise {A} e.

Definition M (W A : Type) : Type := W -> res A * W.

Definition ret {W A} (a : A) : M W A := fun w => (Ok a, w).
Definition raise {W A} (e : exn) : M W A := fun w => (Raise e, w).
Definition bind {W A B} (m : M W A) (k : A -> M W B) : M W B :=
  fun w => match m w with
           | (Ok a, w') => k a w'
           | (Raise e, w') => (Raise e, w')
           end.
Definition get {W} : M W W := fun w => (Ok w, w).
Definition gets {W A} (f : W -> A) : M W A := fun w => (Ok (f w), w).
Definition modify {W} (f : W -> W) : M W unit := fun w => (Ok tt, f w).
(** Lift a result that needs no world. *)
Definition lift {W A} (r : res A) : M W A := fun w => (r, w).

Declare Scope py_scope.
Delimit Scope py_scope with py.
Notation "x <- m ;; k" := (bind m (fun x => k))
  (at level 100, m at next level, right associativity) : py_scope.
Notation "m ;;; k" := (bind m (fun _ => k))
  (at level 100, right associativity) : py_scope.

(** [for x in xs: body x], for its effects. *)
Fixpoint for_each {W A} (xs : list A) (body : A -> M W unit) : M W unit :=
  match xs with
  | [] => ret tt
  | x :: tl => bind (body x) (fun _ => for_each tl body)
  end.

(** [[f(x) for x in xs]] where [f] has effects or can raise. *)
Fixpoint map_M {W A B} (f : A -> M W B) (xs : list A) : M W (list B) :=
  match xs with
  | [] => ret []
  | x :: tl => bind (f x) (fun y => bind (map_M f tl) (fun ys => ret (y :: ys)))
  end.

(** ** [_check_list] and the list objects it is handed *)

(** Python lists are objects: the store maps a reference to the current
    contents of the list it designates. *)
Definition ref := nat.
Abbreviation store := (gmap nat (list pyval)).

(** [[...]]: a list display allocates a new list object. *)
Definition alloc_list (l : list pyval) : M store ref :=
  fun h => let r := fresh (dom h) in (Ok r, <[r := l]> h).

Definition deref (r : ref) : M store (list pyval) :=
  fun h => (Ok (default [] (h !! r)), h).

(** [temp_list.index(None)] *)
Fixpoint index_None (l : list pyval) : nat :=
  match l with
  | [] => 0%nat
  | v :: tl => if py_eq v PNone then 0%nat else S (index_None tl)
  end.

Definition newline_tab : string :=
  String (ascii_of_nat 10) (String (ascii_of_nat 9) EmptyString).

(** [def _check_list(value, temp_list, var_name=None)] *)
Definition _check_list (value : pyval) (temp_list : ref) (var_name : option string)
  : M store unit :=
  (l <- deref temp_list ;;
   if negb (py_in value l) then
     (* Replace None value with string for printing *)
     (if py_in PNone l
      then modify (fun h : store =>
             <[temp_list := <[index_None l := PStr "None"]> l]> h)
      else ret tt) ;;;
     l' <- deref temp_list ;;
     (* Make sure all elements are strings *)
     let temp_list2 := map py_str l' in
     let var_name := match var_name with None => "" | Some s => s +:+ " " end in
     let err_str := "Invalid " +:+ var_name +:+ "setting: " +:+ py_str value
                    +:+ " " +:+ newline_tab +:+ "Valid values are: "
                    +:+ py_join ", " temp_list2 in
     raise (ValueError err_str)
   else ret tt)%py.

(** ** Image manipulation ([image_manip.py]) *)

(** [int(x)] on a Python float: truncation toward zero. *)
Definition py_int (q : Q) : Z := Z.quot (Qnum q) (Zpos (Qden q)).

(** [a[i:j]] for [0 <= i]: Python clips both ends to the length. *)
Definition slice {X} (l : list X) (i j : nat) : list X := take (j - i) (drop i l).

(** Length of [a[i:j]] when [a] has length [n]. *)
Definition slice_len (n i j : nat) : nat := (Nat.min j n - Nat.min i n)%nat.

(** [np.roll(l, k)]: elements move [k] places toward higher indices and
    wrap around. *)
Definition roll {X} (l : list X) (k : Z) : list X :=
  match length l with
  | O => l
  | S _ as n =>
      let s := Z.to_nat (k mod Z.of_nat n) in
      drop (n - s) l ++ take (n - s) l
  end.

(** The [new_shape] argument: a number, or a sequence of sizes. *)
Inductive shape_arg :=
| ShapeNumber (q : Q)
| ShapeSeq (l : list nat).

Section image_manip.
(** The array's dtype, its zero, its addition and the test
    [fill_val != 0] (negated). *)
Variable A : Type.
Variable zero : A.
Variable add : A -> A -> A.
Variable is_zero : A -> bool.

(** A 2-D [ndarray]: its [shape] is [(ny, nx)] and [rows] holds [ny]
    rows of [nx] values (a shape with a zero keeps its other size). *)
Record array2 := { shape : nat * nat; rows : list (list A) }.

Definition array2_ok (a : array2) : bool :=
  Nat.eqb (length (rows a)) (fst (shape a)) &&
  forallb (fun r => Nat.eqb (length r) (snd (shape a))) (rows a).

(** [np.zeros(shape=(ny, nx), dtype=array.dtype)] *)
Definition zeros (ny nx : nat) : array2 :=
  {| shape := (ny, nx); rows := replicate ny (replicate nx zero) |}.

(** [a[m0:m1, n0:n1]] *)
Definition slice2 (a : array2) (m0 m1 n0 n1 : nat) : array2 :=
  {| shape := (slice_len (fst (shape a)) m0 m1, slice_len (snd (shape a)) n0 n1);
     rows := map (fun r => slice r n0 n1) (slice (rows a) m0 m1) |}.

(** [out[m0:m1, n0:n1] = blk]: the selected region must have the shape of
    [blk] (numpy would also stretch a [blk] axis of length one, which the
    callers below never need). *)
Definition assign_block (out : array2) (m0 m1 n0 n1 : nat) (blk : array2) : res array2 :=
  let '(ny, nx) := shape out in
  if Nat.eqb (slice_len ny m0 m1) (fst (shape blk)) &&
     Nat.eqb (slice_len nx n0 n1) (snd (shape blk))
  then Ok {| shape := shape out;
             rows := take m0 (rows out)
                     ++ zip_with (fun o b => take n0 o ++ b ++ drop n1 o)
                                 (slice (rows out) m0 m1) (rows blk)
                     ++ drop m1 (rows out) |}
  else Raise (ValueError "could not broadcast input array into shape").

(** [np.pad(image, ([pady]*2, [padx]*2), 'constant', constant_values=cval)] *)
Definition np_pad (image : array2) (pady padx : nat) (cval : A) : array2 :=
  let '(ny, nx) := shape image in
  let w := (padx + nx + padx)%nat in
  {| shape := ((pady + ny + pady)%nat, w);
     rows := replicate pady (replicate w cval)
             ++ map (fun r => replicate padx cval ++ r ++ replicate padx cval) (rows image)
             ++ replicate pady (replicate w cval) |}.

(** [np.roll(np.roll(out, intx, axis=1), inty, axis=0)] *)
Definition roll2 (a : array2) (intx inty : Z) : array2 :=
  {| shape := shape a; rows := roll (map (fun r => roll r intx) (rows a)) inty |}.

(** [def fshift(image, delx=0, dely=0, pad=False, cval=0.0)] on a 2-D
    image, for whole-pixel shifts.  With integer [delx] and [dely] the
    tests [np.isclose(del, 0, atol=1e-5)] are [del == 0], [fracx] and
    [fracy] are 0, and the bilinear interpolation is skipped. *)
Definition fshift (image : array2) (delx dely : Z) (pad : bool) (cval : A) : array2 :=
  (* Return if both delx and dely are 0 *)
  if Z.eqb delx 0 && Z.eqb dely 0 then image
  else
    let intx := delx in
    let inty := dely in
    (* Pad ends with constant value *)
    let padx := if pad then (Z.abs_nat intx + 1)%nat else 0%nat in
    let pady := if pad then (Z.abs_nat inty + 1)%nat else 0%nat in
    let out := if pad then np_pad image pady padx cval else image in
    (* shift by integer portion *)
    let out := roll2 out intx inty in
    let '(ny, nx) := shape image in
    slice2 out pady (pady + ny) padx (padx + nx).

(** The index pair computed for one axis:
    [n0 = (new - old) / 2] or [(old - new) / 2], [n1 = n0 + min],
    then [int(n + 0.5)] for both. *)
Definition axis_bounds (n n_new : nat) : nat * nat :=
  let '(n0, n1) :=
    if Nat.ltb n n_new then
      let n0 := (inject_Z (Z.of_nat n_new - Z.of_nat n) / 2)%Q in
      (n0, (n0 + inject_Z (Z.of_nat n))%Q)
    else if Nat.ltb n_new n then
      let n0 := (inject_Z (Z.of_nat n - Z.of_nat n_new) / 2)%Q in
      (n0, (n0 + inject_Z (Z.of_nat n_new))%Q)
    else (0%Q, inject_Z (Z.of_nat n)) in
  (Z.to_nat (py_int (n0 + (1 # 2))%Q), Z.to_nat (py_int (n1 + (1 # 2))%Q)).

(** [def pad_or_cut_to_size(array, new_shape, fill_val=0.0, offset_vals=None)]
    for a 2-D [array] ([ndim == 2], so [nz = 1] and the result is
    [output[0]]); [offset_vals] holds whole-pixel shifts. *)
Definition pad_or_cut_to_size (array : array2) (new_shape : shape_arg)
    (fill_val : A) (offset_vals : option (list Z)) : res array2 :=
  let '(ny, nx) := shape array in
  match
    match new_shape with
    | ShapeNumber q => let n := Z.to_nat (py_int (q + (1 # 2))%Q) in Ok (n, n)
    | ShapeSeq [] => Raise (IndexError "tuple index out of range")
    | ShapeSeq [n] => Ok (n, n)
    | ShapeSeq [a; b] => Ok (a, b)
    | ShapeSeq _ => Raise (ValueError "too many values to unpack (expected 2)")
    end
  with
  | Raise e => Raise e
  | Ok (ny_new, nx_new) =>
    let output := zeros ny_new nx_new in
    (* Return if no difference in shapes.  At this point [array] has been
       reshaped to [[nz, ny, nx]] with [nz = 1], and it is that shape
       which is compared with the pair [new_shape]. *)
    if bool_decide ([1%nat; ny; nx] = [ny_new; nx_new]) &&
       match offset_vals with None => true | Some _ => false end
    then Ok array
    else
      (* Input the fill values *)
      let output :=
        if negb (is_zero fill_val)
        then {| shape := shape output; rows := map (map (fun v => add v fill_val)) (rows output) |}
        else output in
      (* Pixel shift values *)
      match
        match offset_vals with
        | Some [ny_off; nx_off] => Ok (ny_off, nx_off)
        | Some _ => Raise (ValueError "offset_vals should have two values.")
        | None => Ok (0, 0)
        end
      with
      | Raise e => Raise e
      | Ok (ny_off, nx_off) =>
        let '(n0, n1) := axis_bounds nx nx_new in
        let '(m0, m1) := axis_bounds ny ny_new in
        if Nat.leb nx nx_new && Nat.leb ny ny_new then
          (* Case 1 *)
          match assign_block output m0 m1 n0 n1 array with
          | Raise e => Raise e
          | Ok output => Ok (fshift output nx_off ny_off true fill_val)
          end
        else if Nat.leb nx_new nx && Nat.leb ny_new ny then
          (* Case 2 *)
          if negb (Z.eqb nx_off 0) || negb (Z.eqb ny_off 0) then
            let array_temp := fshift array nx_off ny_off true fill_val in
            Ok (slice2 array_temp m0 m1 n0 n1)
          else Ok (slice2 array m0 m1 n0 n1)
        else if Nat.leb nx_new nx && Nat.leb ny ny_new then
          (* Case 3 *)
          let src := if negb (Z.eqb nx_off 0)
                     then fshift array nx_off 0 true fill_val else array in
          match assign_block output m0 m1 0 (snd (shape output))
                             (slice2 src 0 (fst (shape src)) n0 n1) with
          | Raise e => Raise e
          | Ok output => Ok (fshift output 0 ny_off true fill_val)
          end
        else if Nat.leb nx nx_new && Nat.leb ny_new ny then
          (* Case 4 *)
          let src := if negb (Z.eqb ny_off 0)
                     then fshift array 0 ny_off true fill_val else array in
          match assign_block output 0 (fst (shape output)) n0 n1
                             (slice2 src m0 m1 0 (snd (shape src))) with
          | Raise e => Raise e
          | Ok output => Ok (fshift output nx_off 0 true fill_val)
          end
        else Ok output
      end
  end.
End image_manip.

Arguments shape {A} _.
Arguments rows {A} _.
Arguments array2_ok {A} _.
Arguments zeros {A} _ _ _.
Arguments slice2 {A} _ _ _ _ _.
Arguments assign_block {A} _ _ _ _ _ _.
Arguments fshift {A} _ _ _ _ _.
Arguments pad_or_cut_to_size {A} _ _ _ _ _ _ _.

(** ** Coordinates ([coords.py]) *)

(** [np.finfo(float).eps] *)
Definition __epsilon : R := (/ 2 ^ 52)%R.

(** [np.arctan2(y, x)] on real numbers. *)
Definition arctan2 (y x : R) : R :=
  (if Rlt_dec 0 x then atan (y / x)
   else if Rlt_dec x 0 then
     (if Rle_dec 0 y then atan (y / x) + PI else atan (y / x) - PI)
   else if Rlt_dec 0 y then PI / 2
   else if Rlt_dec y 0 then - (PI / 2)
   else 0)%R.

(** A coordinate argument: "a single value or numpy array". *)
Inductive coordv :=
| Scalar (x : R)
| Array (l : list R).

(** [np.size(v)] *)
Definition np_size (v : coordv) : nat :=
  match v with
  | Scalar _ => 1%nat
  | Array l => length l
  end.

(** Elementwise unary operation. *)
Definition cmap (f : R -> R) (v : coordv) : coordv :=
  match v with
  | Scalar x => Scalar (f x)
  | Array l => Array (map f l)
  end.

(** Elementwise binary operation with numpy broadcasting between scalars
    and 1-D arrays. *)
Definition cmap2 (f : R -> R -> R) (a b : coordv) : res coordv :=
  match a, b with
  | Scalar x, Scalar y => Ok (Scalar (f x y))
  | Scalar x, Array l => Ok (Array (map (f x) l))
  | Array l, Scalar y => Ok (Array (map (fun x => f x y) l))
  | Array l1, Array l2 =>
      if Nat.eqb (length l1) (length l2) then Ok (Array (zip_with f l1 l2))
      else if Nat.eqb (length l1) 1 then Ok (Array (map (f (nth 0 l1 0%R)) l2))
      else if Nat.eqb (length l2) 1 then Ok (Array (map (fun x => f x (nth 0 l2 0%R)) l1))
      else Raise (ValueError "operands could not be broadcast together")
  end.

(** [v[np.abs(v) < __epsilon] = 0] on an array; on a value of size one,
    [if np.abs(v) < __epsilon: v = 0], which rebinds [v] to the integer 0. *)
Definition snap (x : R) : R := if Rlt_dec (Rabs x) __epsilon then 0%R else x.

Definition snap_array (v : coordv) : coordv := cmap snap v.

Definition snap_single (v : coordv) : coordv :=
  match v with
  | Scalar x => Scalar (snap x)
  | Array [x] => if Rlt_dec (Rabs x) __epsilon then Scalar 0 else Array [x]
  | Array l => Array l
  end.

Definition res_bind {A B} (r : res A) (k : A -> res B) : res B :=
  match r with
  | Ok a => k a
  | Raise e => Raise e
  end.

(** [def xy_to_rtheta(x, y)] *)
Definition xy_to_rtheta (x y : coordv) : res (coordv * coordv) :=
  res_bind (cmap2 (fun x y => sqrt (x ^ 2 + y ^ 2))%R x y) (fun r =>
  res_bind (cmap2 (fun x y => arctan2 (- x) y * 180 / PI)%R x y) (fun theta =>
  if Nat.eqb (np_size r) 1 then
    (* [if np.abs(x) < __epsilon: x = 0] and the same for [y]: the inputs
       are rebound, [r] and [theta] are returned as computed *)
    let x := snap_single x in
    let y := snap_single y in
    Ok (r, theta)
  else
    let r := snap_array r in
    let theta := snap_array theta in
    Ok (r, theta))).

(** [def rtheta_to_xy(r, theta)] *)
Definition rtheta_to_xy (r theta : coordv) : res (coordv * coordv) :=
  res_bind (cmap2 (fun r theta => - r * sin (theta * PI / 180))%R r theta) (fun x =>
  res_bind (cmap2 (fun r theta => r * cos (theta * PI / 180))%R r theta) (fun y =>
  if Nat.eqb (np_size x) 1 then
    let x := snap_single x in
    let y := snap_single y in
    Ok (x, y)
  else
    let x := snap_array x in
    let y := snap_array y in
    Ok (x, y))).

(** [def xy_rot(x, y, ang)] *)
Definition xy_rot (x y ang : coordv) : res (coordv * coordv) :=
  res_bind (xy_to_rtheta x y) (fun '(r, theta) =>
  res_bind (cmap2 Rplus theta ang) (fun theta_ang =>
  rtheta_to_xy r theta_ang)).

(** The values held by a coordinate result. *)
Definition values (v : coordv) : list R :=
  match v with
  | Scalar x => [x]
  | Array l => l
  end.

(** Every value below machine epsilon in magnitude is exactly zero. *)
Definition snapped (v : coordv) : Prop :=
  Forall (fun x => (Rabs x < __epsilon)%R -> x = 0%R) (values v).

(** ** Coefficient arrays *)

(** One plane of coefficients (a 2-D float array) and a coefficient cube of
    shape [(ncf, ny, nx)], held as its [ncf] planes. *)
Abbreviation image := (array2 R).
Abbreviation cube := (list (array2 R)).

Definition Req_zero (x : R) : bool := if Req_dec_T x 0 then true else false.

(** [pad_or_cut_to_size(im, new_shape)] on float arrays, with the default
    [fill_val=0.0] and [offset_vals=None]. *)
Definition pad_or_cut_image (im : image) (new_shape : nat * nat) : res image :=
  pad_or_cut_to_size 0%R Rplus Req_zero im
    (ShapeSeq [fst new_shape; snd new_shape]) 0%R None.

(** [cube.shape]; a cube holds at least one plane. *)
Definition cube_shape (c : cube) : list nat :=
  match c with
  | [] => [0%nat; 0%nat; 0%nat]
  | im :: _ => [length c; fst (shape im); snd (shape im)]
  end.

Definition image_map (f : R -> R) (im : image) : image :=
  {| shape := shape im; rows := map (map f) (rows im) |}.

Definition image_zip (f : R -> R -> R) (a b : image) : image :=
  {| shape := shape a; rows := zip_with (zip_with f) (rows a) (rows b) |}.

Definition cube_map (f : R -> R) (c : cube) : cube := map (image_map f) c.

(** Elementwise operation on two cubes; numpy refuses shapes that do not
    broadcast (stretching of axes of length one is not modelled). *)
Definition cube_zip (f : R -> R -> R) (a b : cube) : res cube :=
  if bool_decide (cube_shape a = cube_shape b)
  then Ok (zip_with (image_zip f) a b)
  else Raise (ValueError "operands could not be broadcast together").

(** [[f(x) for x in l]] where [f] can raise. *)
Fixpoint map_res {X Y} (f : X -> res Y) (l : list X) : res (list Y) :=
  match l with
  | [] => Ok []
  | x :: tl =>
      res_bind (f x) (fun y =>
      res_bind (map_res f tl) (fun ys => Ok (y :: ys)))
  end.

(** [np.array(cf_list) - cf0]: [cf0] is subtracted from every entry. *)
Definition stack_sub (cs : list cube) (c0 : cube) : res (list cube) :=
  map_res (fun c => cube_zip Rminus c c0) cs.

(** [np.zeros(shape)] for the shape of a cube. *)
Definition cube_zeros_like (c : cube) : cube :=
  map (fun im => zeros 0%R (fst (shape im)) (snd (shape im))) c.

(** A coefficient modification: the Python number it starts as, one
    cube, or one cube per field position. *)
Inductive coeff_mod :=
| ModNum (x : R)
| ModCube (c : cube)
| ModStack (cs : list cube).

(** [a += b] on a coefficient modification.  A number on the left is
    rebound to [a + b]; an array on the left is updated in place, so [b]
    must broadcast to the shape of [a]. *)
Definition mod_iadd (a b : coeff_mod) : res coeff_mod :=
  match a, b with
  | ModNum x, ModNum y => Ok (ModNum (x + y))
  | ModNum x, ModCube c => Ok (ModCube (cube_map (fun v => x + v)%R c))
  | ModNum x, ModStack cs => Ok (ModStack (map (cube_map (fun v => x + v)%R) cs))
  | ModCube c, ModNum y => Ok (ModCube (cube_map (fun v => v + y)%R c))
  | ModCube c, ModCube d => res_bind (cube_zip Rplus c d) (fun r => Ok (ModCube r))
  | ModCube c, ModStack _ =>
      Raise (ValueError "non-broadcastable output operand")
  | ModStack cs, ModNum y => Ok (ModStack (map (cube_map (fun v => v + y)%R) cs))
  | ModStack cs, ModCube d =>
      res_bind (map_res (fun c => cube_zip Rplus c d) cs) (fun r => Ok (ModStack r))
  | ModStack cs, ModStack ds =>
      if Nat.eqb (length cs) (length ds)
      then res_bind (map_res (fun cd => cube_zip Rplus (fst cd) (snd cd)) (zip cs ds))
                    (fun r => Ok (ModStack r))
      else Raise (ValueError "operands could not be broadcast together")
  end.

(** ** The instrument objects *)

Inductive inst_class := NIRCam_ext | MIRI_ext.

(** Values held in [self.options]. *)
Inductive optval :=
| ONone
| ONum (q : Q)
| OReal (x : R)
| OBool (b : bool)
| OStr (s : string).

(** Values held in [self._psf_coeff_mod] and in the [.npz] files: [None],
    a fit or residual array (4-D, as a list of cubes; 5-D, as a grid of
    cubes), a 1-D array, or an aperture name. *)
Inductive modval :=
| MNone
| MFit (cf : list cube)
| MGrid (g : list (list cube))
| MVec (v : list R)
| MStr (s : string).

(** FITS header cards: keyword, value and comment. *)
Inductive hdrval :=
| HNum (x : R)
| HStr (s : string)
| HBool (b : bool)
| HCoord (c : coordv).

Abbreviation header := (list (string * (hdrval * string))).

(** [hdr[key] = (value, comment)] *)
Fixpoint hdr_set (key : string) (v : hdrval * string) (h : header) : header :=
  match h with
  | [] => [(key, v)]
  | (k, v') :: tl => if String.eqb k key then (key, v) :: tl else (k, v') :: hdr_set key v tl
  end.

(** A SIAF aperture: the attributes read here and its [convert] method
    (an external service). *)
Record siaf_aperture := {
  XSciRef : R;
  YSciRef : R;
  XSciScale : R;
  YSciScale : R;
  convert : coordv -> coordv -> string -> string -> res (coordv * coordv);
}.

(** The attributes of an instrument object that the embedded code reads or
    writes.  [_fov_pix] is rational because the drift sweep may store
    [_fovmax_wfedrift / 2] in it. *)
Record instrument := {
  cls : inst_class;
  pupil_mask : option string;
  image_mask : option string;
  _fov_pix : Q;
  _oversample : option Z;
  _ndeg : option Z;
  use_legendre : bool;
  _quick : pyval;
  _ND_acq : pyval;
  include_si_wfe : bool;
  _fovmax_wfedrift : Z;
  _fovmax_wfefield : Z;
  options : gmap string optval;
  psf_coeff : option cube;
  psf_coeff_header : option header;
  _psf_coeff_mod : gmap string modval;
  _rotation : option R;
  aperturename : option string;
  siaf : gmap string siaf_aperture;
  detector_position : R * R;
}.

(** [self.name], fixed by the base class. *)
Definition name (self : instrument) : string :=
  match cls self with NIRCam_ext => "NIRCam" | MIRI_ext => "MIRI" end.

(** [NIRCam_ext.is_lyot] *)
Definition is_lyot (self : instrument) : bool :=
  match pupil_mask self with
  | Some pupil => str_contains "LYOT" pupil
  | None => false
  end.

(** [is_coron], per class. *)
Definition is_coron (self : instrument) : bool :=
  match cls self with
  | NIRCam_ext =>
      is_lyot self &&
      match image_mask self with
      | Some mask => str_contains "MASK" mask
      | None => false
      end
  | MIRI_ext =>
      match pupil_mask self with
      | Some pupil => str_contains "LYOT" pupil || str_contains "FQPM" pupil
      | None => false
      end
  end.

(** [NIRCam_ext.is_grism] *)
Definition is_grism (self : instrument) : bool :=
  match pupil_mask self with
  | Some pupil => str_contains "GRISM" pupil
  | None => false
  end.

(** [MIRI_ext.is_slitspec] *)
Definition is_slitspec (self : instrument) : bool :=
  match pupil_mask self with
  | Some pupil => str_contains "LRS" pupil
  | None => false
  end.

(** The [fov_pix] property. *)
Definition fov_pix (self : instrument) : Q := _fov_pix self.

(** The [quick] property: [False] ([NIRCam_ext]) or [True] ([MIRI_ext])
    [if self._quick is None else self._quick]. *)
Definition quick (self : instrument) : pyval :=
  match _quick self with
  | PNone => match cls self with NIRCam_ext => PBool false | MIRI_ext => PBool true end
  | v => v
  end.

(** The [ndeg] property. *)
Definition ndeg (self : instrument) : Z :=
  match _ndeg self with
  | Some n => n
  | None =>
      match cls self with
      | NIRCam_ext =>
          if use_legendre self
          then (if py_truth (quick self) then 7 else 9)
          else (if py_truth (quick self) then 7 else 9)
      | MIRI_ext =>
          if use_legendre self
          then (if py_truth (quick self) then 4 else 7)
          else (if py_truth (quick self) then 4 else 7)
      end
  end.

(** The [oversample] property. *)
Definition oversample (self : instrument) : Z :=
  match _oversample self with
  | None =>
      match cls self with
      | NIRCam_ext => if is_lyot self then 2 else 4
      | MIRI_ext => if is_coron self then 2 else 4
      end
  | Some v => v
  end.

(** Attribute assignments. *)
Definition set_quick (v : pyval) (self : instrument) : instrument :=
  {| cls := cls self; pupil_mask := pupil_mask self; image_mask := image_mask self;
     _fov_pix := _fov_pix self; _oversample := _oversample self; _ndeg := _ndeg self;
     use_legendre := use_legendre self; _quick := v; _ND_acq := _ND_acq self;
     include_si_wfe := include_si_wfe self;
     _fovmax_wfedrift := _fovmax_wfedrift self;
     _fovmax_wfefield := _fovmax_wfefield self;
     options := options self; psf_coeff := psf_coeff self;
     psf_coeff_header := psf_coeff_header self;
     _psf_coeff_mod := _psf_coeff_mod self; _rotation := _rotation self;
     aperturename := aperturename self; siaf := siaf self;
     detector_position := detector_position self |}.

Definition set_ND_acq (v : pyval) (self : instrument) : instrument :=
  {| cls := cls self; pupil_mask := pupil_mask self; image_mask := image_mask self;
     _fov_pix := _fov_pix self; _oversample := _oversample self; _ndeg := _ndeg self;
     use_legendre := use_legendre self; _quick := _quick self; _ND_acq := v;
     include_si_wfe := include_si_wfe self;
     _fovmax_wfedrift := _fovmax_wfedrift self;
     _fovmax_wfefield := _fovmax_wfefield self;
     options := options self; psf_coeff := psf_coeff self;
     psf_coeff_header := psf_coeff_header self;
     _psf_coeff_mod := _psf_coeff_mod self; _rotation := _rotation self;
     aperturename := aperturename self; siaf := siaf self;
     detector_position := detector_position self |}.

Definition set_use_legendre (v : bool) (self : instrument) : instrument :=
  {| cls := cls self; pupil_mask := pupil_mask self; image_mask := image_mask self;
     _fov_pix := _fov_pix self; _oversample := _oversample self; _ndeg := _ndeg self;
     use_legendre := v; _quick := _quick self; _ND_acq := _ND_acq self;
     include_si_wfe := include_si_wfe self;
     _fovmax_wfedrift := _fovmax_wfedrift self;
     _fovmax_wfefield := _fovmax_wfefield self;
     options := options self; psf_coeff := psf_coeff self;
     psf_coeff_header := psf_coeff_header self;
     _psf_coeff_mod := _psf_coeff_mod self; _rotation := _rotation self;
     aperturename := aperturename self; siaf := siaf self;
     detector_position := detector_position self |}.

Definition set_fov_pix (v : Q) (self : instrument) : instrument :=
  {| cls := cls self; pupil_mask := pupil_mask self; image_mask := image_mask self;
     _fov_pix := v; _oversample := _oversample self; _ndeg := _ndeg self;
     use_legendre := use_legendre self; _quick := _quick self; _ND_acq := _ND_acq self;
     include_si_wfe := include_si_wfe self;
     _fovmax_wfedrift := _fovmax_wfedrift self;
     _fovmax_wfefield := _fovmax_wfefield self;
     options := options self; psf_coeff := psf_coeff self;
     psf_coeff_header := psf_coeff_header self;
     _psf_coeff_mod := _psf_coeff_mod self; _rotation := _rotation self;
     aperturename := aperturename self; siaf := siaf self;
     detector_position := detector_position self |}.

Definition set_image_mask (v : option string) (self : instrument) : instrument :=
  {| cls := cls self; pupil_mask := pupil_mask self; image_mask := v;
     _fov_pix := _fov_pix self; _oversample := _oversample self; _ndeg := _ndeg self;
     use_legendre := use_legendre self; _quick := _quick self; _ND_acq := _ND_acq self;
     include_si_wfe := include_si_wfe self;
     _fovmax_wfedrift := _fovmax_wfedrift self;
     _fovmax_wfefield := _fovmax_wfefield self;
     options := options self; psf_coeff := psf_coeff self;
     psf_coeff_header := psf_coeff_header self;
     _psf_coeff_mod := _psf_coeff_mod self; _rotation := _rotation self;
     aperturename := aperturename self; siaf := siaf self;
     detector_position := detector_position self |}.

Definition set_options (v : gmap string optval) (self : instrument) : instrument :=
  {| cls := cls self; pupil_mask := pupil_mask self; image_mask := image_mask self;
     _fov_pix := _fov_pix self; _oversample := _oversample self; _ndeg := _ndeg self;
     use_legendre := use_legendre self; _quick := _quick self; _ND_acq := _ND_acq self;
     include_si_wfe := include_si_wfe self;
     _fovmax_wfedrift := _fovmax_wfedrift self;
     _fovmax_wfefield := _fovmax_wfefield self;
     options := v; psf_coeff := psf_coeff self;
     psf_coeff_header := psf_coeff_header self;
     _psf_coeff_mod := _psf_coeff_mod self; _rotation := _rotation self;
     aperturename := aperturename self; siaf := siaf self;
     detector_position := detector_position self |}.

Definition set_psf_coeff_mod (v : gmap string modval) (self : instrument) : instrument :=
  {| cls := cls self; pupil_mask := pupil_mask self; image_mask := image_mask self;
     _fov_pix := _fov_pix self; _oversample := _oversample self; _ndeg := _ndeg self;
     use_legendre := use_legendre self; _quick := _quick self; _ND_acq := _ND_acq self;
     include_si_wfe := include_si_wfe self;
     _fovmax_wfedrift := _fovmax_wfedrift self;
     _fovmax_wfefield := _fovmax_wfefield self;
     options := options self; psf_coeff := psf_coeff self;
     psf_coeff_header := psf_coeff_header self;
     _psf_coeff_mod := v; _rotation := _rotation self;
     aperturename := aperturename self; siaf := siaf self;
     detector_position := detector_position self |}.

Definition set_detector_position (v : R * R) (self : instrument) : instrument :=
  {| cls := cls self; pupil_mask := pupil_mask self; image_mask := image_mask self;
     _fov_pix := _fov_pix self; _oversample := _oversample self; _ndeg := _ndeg self;
     use_legendre := use_legendre self; _quick := _quick self; _ND_acq := _ND_acq self;
     include_si_wfe := include_si_wfe self;
     _fovmax_wfedrift := _fovmax_wfedrift self;
     _fovmax_wfefield := _fovmax_wfefield self;
     options := options self; psf_coeff := psf_coeff self;
     psf_coeff_header := psf_coeff_header self;
     _psf_coeff_mod := _psf_coeff_mod self; _rotation := _rotation self;
     aperturename := aperturename self; siaf := siaf self;
     detector_position := v |}.

(** A setter runs on the store of list objects and on the instrument. *)
Definition on_store {A} (m : M store A) : M (store * instrument) A :=
  fun w => let '(r, h) := m (fst w) in (r, (h, snd w)).

(** [@quick.setter]: [_check_list(value, [True, False], 'quick')] then
    [self._quick = value]. *)
Definition quick_setter (value : pyval) : M (store * instrument) unit :=
  (l <- on_store (alloc_list [PBool true; PBool false]) ;;
   on_store (_check_list value l (Some "quick")) ;;;
   modify (fun w => (fst w, set_quick value (snd w))))%py.

(** [@ND_acq.setter] *)
Definition ND_acq_setter (value : pyval) : M (store * instrument) unit :=
  (l <- on_store (alloc_list [PBool true; PBool false]) ;;
   on_store (_check_list value l (Some "ND_acq")) ;;;
   modify (fun w => (fst w, set_ND_acq value (snd w))))%py.

(** [_init_inst]: the attributes it gives a new object (the settings
    passed to the constructor are kept as given). *)
Definition psf_coeff_mod_init : gmap string modval :=
  list_to_map
    [("wfe_drift", MNone); ("wfe_drift_off", MNone); ("wfe_drift_lxmap", MNone);
     ("si_field", MNone); ("si_field_v2grid", MNone); ("si_field_v3grid", MNone);
     ("si_field_apname", MNone);
     ("si_mask", MNone); ("si_mask_xgrid", MNone); ("si_mask_ygrid", MNone);
     ("si_mask_apname", MNone)].

Definition _init_inst (c : inst_class) (pupil image : option string)
    (fov : option Q) (osamp : option Z)
    (base_options : gmap string optval) (base_siaf : gmap string siaf_aperture)
    (base_aperturename : option string) (base_position : R * R) : instrument :=
  let pre :=
    {| cls := c; pupil_mask := pupil; image_mask := image;
       _fov_pix := 0; _oversample := osamp; _ndeg := None;
       use_legendre := true; _quick := PNone; _ND_acq := PBool false;
       include_si_wfe := true;
       _fovmax_wfedrift := 256; _fovmax_wfefield := 128;
       options := base_options; psf_coeff := None; psf_coeff_header := None;
       _psf_coeff_mod := psf_coeff_mod_init; _rotation := None;
       aperturename := base_aperturename; siaf := base_siaf;
       detector_position := base_position |} in
  let coron := is_coron pre in
  {| cls := c; pupil_mask := pupil; image_mask := image;
     _fov_pix := match fov with
                 | None => if coron then 128 else 129
                 | Some f => f
                 end;
     _oversample := osamp; _ndeg := None;
     use_legendre := true; _quick := PNone; _ND_acq := PBool false;
     (* Don't include SI WFE error for coronagraphy *)
     include_si_wfe := match c with MIRI_ext => negb coron | NIRCam_ext => true end;
     _fovmax_wfedrift := 256; _fovmax_wfefield := 128;
     options :=
       (let o := <["jitter_sigma" := ONum (3 # 1000)]>
                   (<["jitter" := if coron then ONone else OStr "gaussian"]> base_options) in
        match image with
        | Some _ => <["coron_shift_y" := ONum 0]> (<["coron_shift_x" := ONum 0]> o)
        | None => o
        end);
     psf_coeff := None; psf_coeff_header := None;
     _psf_coeff_mod := psf_coeff_mod_init; _rotation := None;
     aperturename := base_aperturename; siaf := base_siaf;
       detector_position := base_position |}.

(** [d[key]] on a Python dict. *)
Definition dict_get {V} (d : gmap string V) (key : string) : res V :=
  match d !! key with
  | Some v => Ok v
  | None => Raise (KeyError key)
  end.

(** ** The world of the coefficient functions *)

Inductive log_level := DEBUG | INFO | WARNING | ERROR.

(** A record emitted through [_log]: its level and its message, given by
    its format string (the substituted values are not rendered). *)
Abbreviation log_record := (log_level * string)%type.

(** The world: the instrument object [self], the log, the [.npz] files on
    disk, and the PSF-coefficient simulations run so far, each with the
    instrument as it was configured when the simulation was started and
    the requested drift. *)
Record world := {
  inst : instrument;
  log : list log_record;
  files : gmap string (list modval);
  sims : list (instrument * R);
}.

Definition upd_inst (f : instrument -> instrument) : M world unit :=
  modify (fun w => {| inst := f (inst w); log := log w; files := files w; sims := sims w |}).

Definition emit (lvl : log_level) (msg : string) : M world unit :=
  modify (fun w => {| inst := inst w; log := log w ++ [(lvl, msg)];
                      files := files w; sims := sims w |}).

Definition write_file (path : string) (content : list modval) : M world unit :=
  modify (fun w => {| inst := inst w; log := log w;
                      files := <[path := content]> (files w); sims := sims w |}).

(** The OTE linear model: the source it was built from and the
    perturbations applied to it, oldest first. *)
Inductive ote_op :=
| apply_iec_drift (amplitude : R)
| apply_frill_drift (amplitude : R)
| thermal_slew (delta_time_min : R) (case : string) (scaling : R).

Record ote_lm := {
  opd_source : string;
  opd_ops : list ote_op;
}.

Definition ote_apply (op : ote_op) (opd : ote_lm) : ote_lm :=
  {| opd_source := opd_source opd; opd_ops := opd_ops opd ++ [op] |}.

(** The dictionary [_drift_opd] returns. *)
Record wfe_dict := {
  therm : R;
  frill : R;
  iec : R;
  opd : ote_lm;
}.

(** What the image synthesis returns: an image, or in the dispersed modes
    a wavelength solution and an image. *)
Inductive image_result (psf_t wave_t : Type) :=
| ImageOnly (psf : psf_t)
| WaveImage (wave : wave_t) (psf : psf_t).
Arguments ImageOnly {psf_t wave_t} psf.
Arguments WaveImage {psf_t wave_t} wave psf.

(** The coefficients handed to the image synthesis: a stack of cubes, a
    cube, or, when a cube is indexed as if it were a stack, one plane. *)
Inductive coeff_arg :=
| CoeffStack (cs : list cube)
| CoeffCube (c : cube)
| CoeffPlane (im : image).

(** The services of the other modules and of the libraries: the PSF
    simulation and wavelength fit behind [_gen_psf_coeff], the polynomial
    routines of [maths.py], the interpolation and image synthesis of
    [psfs.py], the OPD loader, the bar-offset resolution, the table of
    measured field points with its conversion to science pixels, the
    file-name builders, and the operations of the spectrum objects. *)
Record externals := {
  spectrum : Type;
  sp_len : spectrum -> res nat;
  sp_getitem : spectrum -> nat -> res spectrum;
  sim_psf_coeff : instrument -> R -> res cube;
  jl_poly_fit : list R -> list cube -> nat -> R * R -> res (list cube);
  jl_poly : R -> list cube -> modval -> res cube;
  field_coeff_func : modval -> modval -> modval -> coordv -> coordv -> res coeff_mod;
  gen_image_from_coeff :
    instrument -> coeff_arg -> option header -> option spectrum -> bool ->
    res (image_result image image);
  get_opd_info : instrument -> option string -> res ote_lm;
  get_bar_offset : instrument -> res R;
  _update_aperturename : instrument -> instrument;
  field_points : instrument -> res (list R * list R * list (R * R));
  save_dir : instrument -> string;
  save_name : instrument -> string;
  splitext_root : string -> string;
}.

(** *** [_drift_opd] *)

(** [def _drift_opd(self, wfe_drift, opd=None)] *)
Definition _drift_opd (E : externals) (wfe_drift : R) (opd_arg : option string)
  : M world wfe_dict :=
  (self <- gets inst ;;
   (* Get Pupil OPD info and convert to OTE LM *)
   opd <- lift (get_opd_info E self opd_arg) ;;
   (* If there is wfe_drift, create a OTE Linear Model *)
   let wfe_dict0 := {| therm := 0; frill := 0; iec := 0; opd := opd |} in
   if Rlt_dec 0 wfe_drift then
     emit INFO "Performing WFE drift of {}nm" ;;;
     (* Give IEC heaters 1 nm *)
     let wfe_iec : R := if Rlt_dec 2 (Rabs wfe_drift) then 1 else 0 in
     (* Split remainder evenly between frill and OTE thermal slew *)
     let wfe_remain_var := wfe_drift ^ 2 - wfe_iec ^ 2 in
     let wfe_frill := sqrt (0.8 * wfe_remain_var) in
     let wfe_therm := sqrt (0.2 * wfe_remain_var) in
     (* Negate amplitude if supplying negative wfe_drift *)
     let '(wfe_frill, wfe_therm, wfe_iec) :=
       if Rlt_dec wfe_drift 0
       then (wfe_frill * -1, wfe_therm * -1, wfe_iec * -1)
       else (wfe_frill, wfe_therm, wfe_iec) in
     (* Apply IEC *)
     let opd := ote_apply (apply_iec_drift wfe_iec) opd in
     (* Apply frill *)
     let opd := ote_apply (apply_frill_drift wfe_frill) opd in
     (* Apply OTE thermal slew amplitude *)
     let delta_time := 14 * 24 * 60 in
     let wfe_scale := wfe_therm / 24 in
     let delta_time := if Req_dec_T wfe_scale 0 then 0 else delta_time in
     let opd := ote_apply (thermal_slew delta_time "BOL" wfe_scale) opd in
     ret {| therm := wfe_therm; frill := wfe_frill; iec := wfe_iec; opd := opd |}
   else ret wfe_dict0)%py%R.

(** *** Coefficient modifications *)

(** [s.lower()] *)
Definition ascii_lower (c : ascii) : ascii :=
  let n := nat_of_ascii c in
  if Nat.leb 65 n && Nat.leb n 90 then ascii_of_nat (n + 32) else c.

Fixpoint str_lower (s : string) : string :=
  match s with
  | EmptyString => EmptyString
  | String c tl => String (ascii_lower c) (str_lower tl)
  end.

(** [np.allclose(a, b)] on two shapes: every pair of sizes must satisfy
    [|a - b| <= atol + rtol * |b|] with the default [rtol=1e-5],
    [atol=1e-8]. *)
Definition size_close (a b : nat) : bool :=
  Qle_bool (Qabs (inject_Z (Z.of_nat a) - inject_Z (Z.of_nat b)))
           ((1 # 100000000) + (1 # 100000) * inject_Z (Z.of_nat b)).

Definition np_allclose_shape (a b : list nat) : res bool :=
  if Nat.eqb (length a) (length b)
  then Ok (forallb (fun ab => size_close (fst ab) (snd ab)) (zip a b))
  else match a, b with
       | [x], _ => Ok (forallb (fun y => size_close x y) b)
       | _, [y] => Ok (forallb (fun x => size_close x y) a)
       | _, _ => Raise (ValueError "operands could not be broadcast together")
       end.

(** [cf_mod.shape] *)
Definition mod_shape (m : coeff_mod) : res (list nat) :=
  match m with
  | ModNum _ => Raise (AttributeError "object has no attribute 'shape'")
  | ModCube c => Ok (cube_shape c)
  | ModStack cs => Ok (length cs :: cube_shape (hd [] cs))
  end.

(** [l[-n:]] *)
Definition last_n {X} (n : nat) (l : list X) : list X := drop (length l - n) l.

(** [psf_coeff.shape] for the attribute [psf_coeff], which may be [None]. *)
Definition psf_coeff_shape (self : instrument) : res (list nat) :=
  match psf_coeff self with
  | Some c => Ok (cube_shape c)
  | None => Raise (AttributeError "'NoneType' object has no attribute 'shape'")
  end.

(** [np.array([pad_or_cut_to_size(im, new_shape) for im in cf_mod])]: the
    entries of a cube are planes, those of a stack are cubes, whose planes
    are resized alike. *)
Definition pad_mod (m : coeff_mod) (new_shape : list nat) : res coeff_mod :=
  match new_shape with
  | [ny; nx] =>
      match m with
      | ModNum _ => Raise (TypeError "iteration over a 0-d array")
      | ModCube c =>
          res_bind (map_res (fun im => pad_or_cut_image im (ny, nx)) c)
                   (fun c' => Ok (ModCube c'))
      | ModStack cs =>
          res_bind (map_res (map_res (fun im => pad_or_cut_image im (ny, nx))) cs)
                   (fun cs' => Ok (ModStack cs'))
      end
  | _ => Raise (ValueError "new_shape")
  end.

(** [self.siaf[apname] if apname is not None else None] *)
Definition siaf_of (self : instrument) (apname : modval) : res (option siaf_aperture) :=
  match apname with
  | MNone => Ok None
  | MStr s => res_bind (dict_get (siaf self) s) (fun ap => Ok (Some ap))
  | _ => Raise (KeyError "apname")
  end.

Definition need_siaf (ap : option siaf_aperture) (attr : string) : res siaf_aperture :=
  match ap with
  | Some a => Ok a
  | None => Raise (AttributeError ("'NoneType' object has no attribute '" +:+ attr +:+ "'"))
  end.

(** [def _coeff_mod_wfe_drift(self, wfe_drift, key='wfe_drift')] *)
Definition _coeff_mod_wfe_drift (E : externals) (wfe_drift : R) (key : string)
  : M world coeff_mod :=
  (self <- gets inst ;;
   (* Modify PSF coefficients based on WFE drift *)
   if Req_dec_T wfe_drift 0 then
     ret (ModNum 0) (* Don't modify coefficients *)
   else
     v <- lift (dict_get (_psf_coeff_mod self) key) ;;
     match v with
     | MNone =>
         emit WARNING "You must run `gen_wfedrift_coeff` first before setting the wfe_drift parameter." ;;;
         emit WARNING "Will continue assuming `wfe_drift=0`." ;;;
         ret (ModNum 0)
     | MFit cf_fit =>
         lxmap <- lift (dict_get (_psf_coeff_mod self) "wfe_drift_lxmap") ;;
         (* Fit function *)
         cf_mod <- lift (jl_poly E wfe_drift cf_fit lxmap) ;;
         (* Pad cf_mod array with 0s if undersized *)
         sh <- lift (psf_coeff_shape self) ;;
         close <- lift (np_allclose_shape sh (cube_shape cf_mod)) ;;
         if negb close
         then lift (pad_mod (ModCube cf_mod) (drop 1 sh))
         else ret (ModCube cf_mod)
     | _ => raise (AttributeError "object has no attribute 'shape'")
     end)%py.

(** [def _coeff_mod_wfe_field(self, coord_vals, coord_frame)] *)
Definition _coeff_mod_wfe_field (E : externals)
    (coord_vals : option (coordv * coordv)) (coord_frame : string)
  : M world (coeff_mod * option nat) :=
  (self <- gets inst ;;
   cf_fit <- lift (dict_get (_psf_coeff_mod self) "si_field") ;;
   v2grid <- lift (dict_get (_psf_coeff_mod self) "si_field_v2grid") ;;
   v3grid <- lift (dict_get (_psf_coeff_mod self) "si_field_v3grid") ;;
   apname <- lift (dict_get (_psf_coeff_mod self) "si_feild_apname") ;;
   siaf_ap <- lift (siaf_of self apname) ;;
   (* Modify PSF coefficients based on position *)
   v23 <-
     match coord_vals with
     | None => ret None
     | Some (c0, c1) =>
         si_field <- lift (dict_get (_psf_coeff_mod self) "si_field") ;;
         match si_field with
         | MNone =>
             emit INFO "Skipping WFE field dependence: self._psf_coeff_mod['si_field']=None and self.include_si_wfe={si_wfe_str}" ;;;
             ret None
         | _ =>
             (* Determine V2/V3 coordinates *)
             let cframe := str_lower coord_frame in
             if String.eqb cframe "tel" then
               (* convert to arcmin *)
               ret (Some (cmap (fun v => v / 60)%R c0, cmap (fun v => v / 60)%R c1))
             else if existsb (String.eqb cframe) ["det"; "sci"; "idl"] then
               ap <- lift (need_siaf siaf_ap "convert") ;;
               v <- lift (convert ap c0 c1 cframe "tel") ;;
               ret (Some v)
             else
               emit WARNING "coord_frame setting '{}' not recognized." ;;;
               emit WARNING "`calc_psf_from_coeff` will continue with default PSF." ;;;
               ret None
         end
     end ;;
   (* PSF Modifications assuming we successfully found v2/v3 *)
   match v23 with
   | Some (v2, v3) =>
       let nfield := np_size v2 in
       cf_mod <- lift (field_coeff_func E v2grid v3grid cf_fit v2 v3) ;;
       (* Pad cf_mod array with 0s if undersized *)
       sh <- lift (psf_coeff_shape self) ;;
       let psf_cf_dim := length sh in
       msh <- lift (mod_shape cf_mod) ;;
       close <- lift (np_allclose_shape sh (last_n psf_cf_dim msh)) ;;
       cf_mod <- (if negb close then lift (pad_mod cf_mod (drop 1 sh)) else ret cf_mod) ;;
       ret (cf_mod, Some nfield)
   | None => ret (ModNum 0, None)
   end)%py.

(** Offsets from the aperture reference in arcsec, rotated into the mask
    frame: [xy_rot(-1*xoff_asec, -1*yoff_asec, field_rot)]. *)
Definition mask_offsets (self : instrument) (ap : siaf_aperture) (xsci ysci : coordv)
  : res (coordv * coordv) :=
  let field_rot : R := match _rotation self with None => 0%R | Some r => r end in
  (* Convert to mask shifts (arcsec) *)
  let xoff_asec := cmap (fun v => (v - XSciRef ap) * XSciScale ap)%R xsci in
  let yoff_asec := cmap (fun v => (v - YSciRef ap) * YSciScale ap)%R ysci in
  xy_rot (cmap (fun v => -1 * v)%R xoff_asec) (cmap (fun v => -1 * v)%R yoff_asec)
         (Scalar field_rot).

(** [def _coeff_mod_wfe_mask(self, coord_vals, coord_frame)] *)
Definition _coeff_mod_wfe_mask (E : externals)
    (coord_vals : option (coordv * coordv)) (coord_frame : string)
  : M world (coeff_mod * option nat) :=
  (self <- gets inst ;;
   cf_fit <- lift (dict_get (_psf_coeff_mod self) "si_mask") ;;
   xgrid <- lift (dict_get (_psf_coeff_mod self) "si_mask_xgrid") ;;
   ygrid <- lift (dict_get (_psf_coeff_mod self) "si_mask_ygrid") ;;
   apname <- lift (dict_get (_psf_coeff_mod self) "si_mask_apname") ;;
   siaf_ap <- lift (siaf_of self apname) ;;
   let cf_fit_is_None := match cf_fit with MNone => true | _ => false end in
   is_bar <-
     match coord_vals with
     | Some _ => ret false
     | None =>
         if String.eqb (name self) "NIRCam" then
           match image_mask self with
           | Some m =>
               match str_last m with
               | Some c => ret (Ascii.eqb c "B")
               | None => raise (IndexError "string index out of range")
               end
           | None => raise (TypeError "'NoneType' object is not subscriptable")
           end
         else ret false
     end ;;
   sci <-
     match coord_vals with
     | Some (c0, c1) =>
         if cf_fit_is_None then
           (* Coord values are set, but not coefficients supplied *)
           emit INFO "You must run `gen_wfemask_coeff` first before setting the coord_vals parameter for masked focal planes." ;;;
           emit INFO "`calc_psf_from_coeff` will continue without mask field dependency." ;;;
           ret None
         else
           (* Determine sci coordinates *)
           let cframe := str_lower coord_frame in
           if String.eqb cframe "sci" then ret (Some (c0, c1))
           else if existsb (String.eqb cframe) ["det"; "tel"; "idl"] then
             ap <- lift (need_siaf siaf_ap "convert") ;;
             v <- lift (convert ap c0 c1 cframe "sci") ;;
             ret (Some v)
           else
             emit WARNING "coord_frame setting '{}' not recognized." ;;;
             emit WARNING "`calc_psf_from_coeff` will continue with default PSF." ;;;
             ret None
     | None =>
         if is_bar then
           (* No coord values, but NIRCam bar/wedge mask in place *)
           bar_offset <- lift (get_bar_offset E self) ;;
           if negb (Req_zero bar_offset) && cf_fit_is_None then
             emit INFO "You must run `gen_wfemask_coeff` to obtain bar offset PSFs." ;;;
             emit INFO "`calc_psf_from_coeff` will continue assuming bar_offset=0." ;;;
             ret None
           else
             (* Get sci coords in pixels *)
             ap <- lift (need_siaf siaf_ap "XSciScale") ;;
             let bar_offset_pix := (bar_offset / XSciScale ap)%R in
             ret (Some (Scalar (XSciRef ap + bar_offset_pix)%R, Scalar (YSciRef ap)))
         else ret None
     end ;;
   (* PSF Modifications assuming we successfully found (xsci,ysci) *)
   match sci with
   | Some (xsci, ysci) =>
       let nfield := np_size xsci in
       ap <- lift (need_siaf siaf_ap "XSciRef") ;;
       off <- lift (mask_offsets self ap xsci ysci) ;;
       cf_mod <- lift (field_coeff_func E xgrid ygrid cf_fit (fst off) (snd off)) ;;
       (* Pad cf_mod array with 0s if undersized *)
       sh <- lift (psf_coeff_shape self) ;;
       let psf_cf_dim := length sh in
       msh <- lift (mod_shape cf_mod) ;;
       close <- lift (np_allclose_shape sh (last_n psf_cf_dim msh)) ;;
       cf_mod <- (if negb close then lift (pad_mod cf_mod (drop 1 sh)) else ret cf_mod) ;;
       ret (cf_mod, Some nfield)
   | None => ret (ModNum 0, None)
   end)%py.

(** *** [_wfe_drift_key] *)

(** What [_wfe_drift_key] returns: one key as a string, or a list with one
    key per position. *)
Inductive drift_keys :=
| KeyStr (k : string)
| KeyList (l : list string).

(** [self.siaf[apname]] for the attribute [aperturename]. *)
Definition siaf_get (self : instrument) (apname : option string) : res siaf_aperture :=
  match apname with
  | Some s => dict_get (siaf self) s
  | None => Raise (KeyError "None")
  end.

(** The values a loop [for r in roff] visits. *)
Definition coord_items (v : coordv) : res (list coordv) :=
  match v with
  | Scalar _ => Raise (TypeError "iteration over a 0-d array")
  | Array l => Ok (map Scalar l)
  end.

(** Truth value of [r < 0.1]. *)
Definition lt_tenth (r : coordv) : res bool :=
  match r with
  | Scalar x | Array [x] => Ok (if Rlt_dec x 0.1 then true else false)
  | Array _ => Raise (ValueError "The truth value of an array with more than one element is ambiguous")
  end.

(** [def _wfe_drift_key(self, coord_vals, coord_frame)] *)
Definition _wfe_drift_key (E : externals)
    (coord_vals : option (coordv * coordv)) (coord_frame : string)
  : M world drift_keys :=
  (match coord_vals with
   | None => ret (KeyStr "wfe_drift")
   | Some (c0, c1) =>
       (* Determine sci coordinates *)
       let cframe := str_lower coord_frame in
       let with_sci (sci : option (coordv * coordv)) : M world drift_keys :=
         (* Assume we successfully found (xsci,ysci) *)
         match sci with
         | Some (xsci, ysci) =>
             self <- gets inst ;;
             let nfield := np_size xsci in
             siaf_ap <- lift (siaf_get self (aperturename self)) ;;
             (* Convert to mask shifts (arcsec) *)
             off <- lift (mask_offsets self siaf_ap xsci ysci) ;;
             roff <- lift (cmap2 (fun x y => sqrt (x ^ 2 + y ^ 2))%R (fst off) (snd off)) ;;
             roff <- (if Nat.eqb nfield 1 then ret [roff] else lift (coord_items roff)) ;;
             (* Choose either wfe_drift or wfe_drift_off for each position *)
             res <- lift (map_res (fun r =>
                      res_bind (lt_tenth r) (fun b =>
                      Ok (if b then "wfe_drift" else "wfe_drift_off"))) roff) ;;
             ret (KeyList res)
         | None => ret (KeyStr "wfe_drift")
         end in
       if String.eqb cframe "sci" then with_sci (Some (c0, c1))
       else if existsb (String.eqb cframe) ["det"; "tel"; "idl"] then
         self <- gets inst ;;
         match res_bind (siaf_get self (aperturename self))
                        (fun siaf_ap => convert siaf_ap c0 c1 cframe "sci") with
         | Ok v => with_sci (Some v)
         | Raise _ =>
             (* the bare [except:] clause *)
             upd_inst (_update_aperturename E) ;;;
             self <- gets inst ;;
             sci <-
               match aperturename self with
               | None =>
                   emit WARNING "No suitable aperture name defined to determine (xsci,ysci) coordiantes" ;;;
                   ret None
               | Some apname =>
                   emit WARNING "self.siaf_ap not defined; assuming {}" ;;;
                   siaf_ap <- lift (dict_get (siaf self) apname) ;;
                   v <- lift (convert siaf_ap c0 c1 cframe "sci") ;;
                   ret (Some v)
               end ;;
             emit WARNING "Update self.siaf_ap for more specific conversions to (xsci,ysci)." ;;;
             with_sci sci
         end
       else
         (* Can't figure out coordinate frames, so set to 0 *)
         ret (KeyStr "wfe_drift")
   end)%py.

(** [np.unique(keys)]: the distinct keys in increasing order. *)
Fixpoint insert_unique (k : string) (l : list string) : list string :=
  match l with
  | [] => [k]
  | h :: tl =>
      if String.eqb k h then l
      else if String.ltb k h then k :: l
      else h :: insert_unique k tl
  end.

Definition np_unique (keys : drift_keys) : list string :=
  match keys with
  | KeyStr k => [k]
  | KeyList l => foldr insert_unique [] l
  end.

(** [np.where(ukeys == key)[0][0]] *)
Fixpoint key_index (ukeys : list string) (key : string) : res nat :=
  match ukeys with
  | [] => Raise (IndexError "index 0 is out of bounds for axis 0 with size 0")
  | h :: tl => if String.eqb h key then Ok 0%nat
               else res_bind (key_index tl key) (fun n => Ok (S n))
  end.

(** [l[i]] on a Python list. *)
Definition list_get {X} (l : list X) (i : nat) : res X :=
  match l !! i with
  | Some x => Ok x
  | None => Raise (IndexError "list index out of range")
  end.

(** [wfe_drift_keys[i]]; a string is indexed by character. *)
Definition keys_get (keys : drift_keys) (i : nat) : res string :=
  match keys with
  | KeyList l => list_get l i
  | KeyStr k =>
      match String.get i k with
      | Some c => Ok (String c EmptyString)
      | None => Raise (IndexError "string index out of range")
      end
  end.

(** [psf_coeff_mod[i] += cf_mod] *)
Definition mod_iadd_at (m : coeff_mod) (i : nat) (cf_mod : coeff_mod) : res coeff_mod :=
  match m with
  | ModNum _ => Raise (TypeError "'int' object is not subscriptable")
  | ModStack cs =>
      res_bind (list_get cs i) (fun c =>
      res_bind (mod_iadd (ModCube c) cf_mod) (fun r =>
      match r with
      | ModCube c' => Ok (ModStack (<[i := c']> cs))
      | _ => Raise (ValueError "non-broadcastable output operand")
      end))
  | ModCube c =>
      res_bind (list_get c i) (fun im =>
      match cf_mod with
      | ModNum y => Ok (ModCube (<[i := image_map (fun v => v + y)%R im]> c))
      | _ => Raise (ValueError "non-broadcastable output operand")
      end)
  end.

(** [psf_coeff + psf_coeff_mod] *)
Definition coeff_add (psf_coeff : cube) (m : coeff_mod) : res coeff_mod :=
  match m with
  | ModNum y => Ok (ModCube (cube_map (fun v => v + y)%R psf_coeff))
  | ModCube d => res_bind (cube_zip Rplus psf_coeff d) (fun r => Ok (ModCube r))
  | ModStack ds =>
      res_bind (map_res (fun d => cube_zip Rplus psf_coeff d) ds)
               (fun r => Ok (ModStack r))
  end.

(** [psf_coeff[ii]] on the corrected coefficients. *)
Definition coeff_get (m : coeff_mod) (ii : nat) : res coeff_arg :=
  match m with
  | ModNum _ => Raise (TypeError "'int' object is not subscriptable")
  | ModCube c => res_bind (list_get c ii) (fun im => Ok (CoeffPlane im))
  | ModStack cs => res_bind (list_get cs ii) (fun c => Ok (CoeffCube c))
  end.

Definition coeff_whole (m : coeff_mod) : res coeff_arg :=
  match m with
  | ModNum _ => Raise (TypeError "coefficients are not an array")
  | ModCube c => Ok (CoeffCube c)
  | ModStack cs => Ok (CoeffStack cs)
  end.

(** [xvals[ii]] *)
Definition coord_get (v : coordv) (ii : nat) : res R :=
  match v with
  | Scalar _ => Raise (IndexError "invalid index to scalar variable.")
  | Array l => list_get l ii
  end.

(** *** [_calc_psf_from_coeff] *)

Abbreviation synth := (image_result image image).

(** An HDU of the returned [HDUList]. *)
Inductive hdu :=
| PrimaryHDU (data : synth) (hdr : header)
| ImageHDU (data : synth) (hdr : header)
| WavelengthsHDU (data : image).

(** What [_calc_psf_from_coeff] returns. *)
Inductive psf_output :=
| NoOutput
| OutHDUList (hdul : list hdu)
| OutResult (r : synth)
| OutList (psf_all : list synth)
| OutWaveList (wave : option image) (psf_all : list synth).

(** [wave, psf = res if is_spec else (None, res)]; in the dispersed modes
    the synthesis returns the pair. *)
Definition unpack_synth (is_spec : bool) (r : synth) : res (option image * synth) :=
  if is_spec then
    match r with
    | WaveImage wave psf => Ok (Some wave, ImageOnly psf)
    | ImageOnly _ => Raise (ValueError "too many values to unpack (expected 2)")
    end
  else Ok (None, r).

(** [psf_coeff_hdr.copy()] *)
Definition hdr_copy (h : option header) : res header :=
  match h with
  | Some h => Ok h
  | None => Raise (AttributeError "'NoneType' object has no attribute 'copy'")
  end.

Definition cunits (coord_frame : string) : string :=
  if str_contains "sci" coord_frame || str_contains "det" coord_frame
  then "pixels" else "arcsec".

(** [def _calc_psf_from_coeff(self, sp=None, return_oversample=True,
    wfe_drift=None, coord_vals=None, coord_frame='tel', return_hdul=True)] *)
Definition _calc_psf_from_coeff (E : externals)
    (sp : option (spectrum E)) (return_oversample : bool)
    (wfe_drift : option R) (coord_vals : option (coordv * coordv))
    (coord_frame : string) (return_hdul : bool)
  : M world psf_output :=
  (self <- gets inst ;;
   let psf_coeff_hdr := psf_coeff_header self in
   match psf_coeff self with
   | None =>
       emit WARNING "You must first run `gen_psf_coeff` calculating PSFs." ;;;
       ret NoOutput
   | Some psf_coeff =>
   (* Spectrographic Mode? *)
   let is_spec :=
     match cls self with
     | NIRCam_ext => is_grism self
     | MIRI_ext => is_slitspec self
     end in
   (* Coeff modification variable *)
   let psf_coeff_mod := ModNum 0 in
   let wfe_drift : R := match wfe_drift with None => 0%R | Some d => d end in
   (* Modify PSF coefficients based on field-dependence
      Ignore if there is a focal plane mask *)
   r1 <-
     match image_mask self with
     | None =>
         r <- _coeff_mod_wfe_field E coord_vals coord_frame ;;
         m <- lift (mod_iadd psf_coeff_mod (fst r)) ;;
         ret (m, snd r)
     | Some _ => ret (psf_coeff_mod, None)
     end ;;
   let psf_coeff_mod := fst r1 in
   let nfield := match snd r1 with None => 1%nat | Some n => n end in
   (* Modify PSF coefficients based on field-dependence with a focal plane
      mask; [nfield_mask] is bound only on this branch *)
   r2 <-
     match image_mask self with
     | Some _ =>
         r <- _coeff_mod_wfe_mask E coord_vals coord_frame ;;
         m <- lift (mod_iadd psf_coeff_mod (fst r)) ;;
         ret (m, Some (snd r))
     | None => ret (psf_coeff_mod, None)
     end ;;
   let psf_coeff_mod := fst r2 in
   nfield <-
     match snd r2 with
     | None => raise (UnboundLocalError "nfield_mask")
     | Some None => ret nfield
     | Some (Some nfield_mask) => ret nfield_mask
     end ;;
   (* Modify PSF coefficients based on WFE drift *)
   (if Rge_dec wfe_drift 0 then ret tt
    else raise (AssertionError "`wfe_drift should not be negative")) ;;;
   wfe_drift_keys <- _wfe_drift_key E coord_vals coord_frame ;;
   let ukeys := np_unique wfe_drift_keys in
   let nkeys := length ukeys in
   psf_coeff_mod <-
     (if Nat.eqb nkeys 1 then
        key <- lift (list_get ukeys 0) ;;
        cf_mod <- _coeff_mod_wfe_drift E wfe_drift key ;;
        lift (mod_iadd psf_coeff_mod cf_mod)
      else
        (* Create coefficients for each unique key *)
        cf_mod_list <- map_M (fun key => _coeff_mod_wfe_drift E wfe_drift key) ukeys ;;
        (* At each field position, find the corresponding coeff modification *)
        lift (foldl (fun acc i =>
                res_bind acc (fun m =>
                res_bind (keys_get wfe_drift_keys i) (fun k =>
                res_bind (key_index ukeys k) (fun ind =>
                res_bind (list_get cf_mod_list ind) (fun cf_mod =>
                mod_iadd_at m i cf_mod)))))
              (Ok psf_coeff_mod) (seq 0 nfield))) ;;
   (* Add modifications to coefficients *)
   psf_coeff <- lift (coeff_add psf_coeff psf_coeff_mod) ;;
   self <- gets inst ;;
   (* if multiple field points were present, we want to return PSF for each location *)
   if Nat.ltb 1 nfield then
     res_all <- lift (map_res (fun ii =>
         (* Just a single spectrum? Or unique spectrum at each field point? *)
         res_bind
           match sp with
           | Some s =>
               res_bind (sp_len E s) (fun n =>
               if Nat.eqb n nfield
               then res_bind (sp_getitem E s ii) (fun si => Ok (Some si))
               else Ok (Some s))
           | None => Ok None
           end (fun sp_norm =>
         res_bind (coeff_get psf_coeff ii) (fun cf =>
         res_bind (gen_image_from_coeff E self cf psf_coeff_hdr sp_norm return_oversample)
           (fun res =>
         (* For grisms (etc), the wavelength solution is the same for each field point *)
         unpack_synth is_spec res)))) (seq 0 nfield)) ;;
     let psf_all := map snd res_all in
     let wave := match last res_all with Some r => fst r | None => None end in
     if return_hdul then
       match coord_vals with
       | None => raise (TypeError "cannot unpack non-iterable NoneType object")
       | Some (xvals, yvals) =>
           hdus <- lift (map_res (fun ii_psf =>
               res_bind (hdr_copy psf_coeff_hdr) (fun hdr =>
               let hdr := hdr_set "EXTNAME"
                            (HStr (if return_oversample then "OVERSAMP" else "DETSAMP"), "") hdr in
               res_bind (coord_get xvals (fst ii_psf)) (fun xv =>
               let hdr := hdr_set "XVAL"
                            (HNum xv, "[" +:+ cunits coord_frame +:+ "] Input X coordinate") hdr in
               res_bind (coord_get yvals (fst ii_psf)) (fun yv =>
               let hdr := hdr_set "YVAL"
                            (HNum yv, "[" +:+ cunits coord_frame +:+ "] Input Y coordinate") hdr in
               let hdr := hdr_set "CFRAME" (HStr coord_frame, "Specified coordinate frame") hdr in
               let hdr := hdr_set "WFEDRIFT" (HNum wfe_drift, "[nm] WFE drift amplitude") hdr in
               Ok (ImageHDU (snd ii_psf) hdr)))))
             (zip (seq 0 (length psf_all)) psf_all)) ;;
           (* Append wavelength solution *)
           ret (OutHDUList (hdus ++ match wave with
                                    | Some w => [WavelengthsHDU w]
                                    | None => []
                                    end))
       end
     else
       ret (if is_spec then OutWaveList wave psf_all else OutList psf_all)
   else
     cf <- lift (coeff_whole psf_coeff) ;;
     res <- lift (gen_image_from_coeff E self cf psf_coeff_hdr sp return_oversample) ;;
     if return_hdul then
       (* For grisms (etc), the wavelength solution is the same for each field point *)
       wp <- lift (unpack_synth is_spec res) ;;
       hdr <- lift (hdr_copy psf_coeff_hdr) ;;
       let hdr := hdr_set "WFEDRIFT" (HNum wfe_drift, "[nm] WFE drift amplitude") hdr in
       let hdr :=
         match coord_vals with
         | Some (c0, c1) =>
             let hdr := hdr_set "EXTNAME"
                          (HStr (if return_oversample then "OVERSAMP" else "DETSAMP"), "") hdr in
             let hdr := hdr_set "XVAL"
                          (HCoord c0, "[" +:+ cunits coord_frame +:+ "] Input X coordinate") hdr in
             let hdr := hdr_set "YVAL"
                          (HCoord c1, "[" +:+ cunits coord_frame +:+ "] Input Y coordinate") hdr in
             hdr_set "CFRAME" (HStr coord_frame, "Specified coordinate frame") hdr
         | None => hdr
         end in
       (* Append wavelength solution *)
       ret (OutHDUList (PrimaryHDU (snd wp) hdr ::
                        match fst wp with
                        | Some w => [WavelengthsHDU w]
                        | None => []
                        end))
     else ret (OutResult res)
   end)%py.

(** *** [gen_psf_coeff] as the sweeps call it *)

(** [_gen_psf_coeff(self, wfe_drift=..., force=True, save=False,
    return_results=True)]: with these arguments the function simulates the
    monochromatic PSFs for the configuration [self] has at the time of the
    call, fits them, and returns the cube; the only attributes it assigns
    ([pupilopd], [pupil]) are outside [instrument].  The simulation is
    recorded in [sims]. *)
Definition _gen_psf_coeff (E : externals) (wfe_drift : R) : M world cube :=
  fun w =>
    (sim_psf_coeff E (inst w) wfe_drift,
     {| inst := inst w; log := log w; files := files w;
        sims := sims w ++ [(inst w, wfe_drift)] |}).

Definition set_option (key : string) (v : optval) : M world unit :=
  upd_inst (fun self => set_options (<[key := v]> (options self)) self).

(** The method [gen_psf_coeff]: [NIRCam_ext] sets [options['bar_offset']]
    to its [bar_offset] argument (default 0) around the call. *)
Definition gen_psf_coeff (E : externals) (wfe_drift : R) : M world cube :=
  (self <- gets inst ;;
   match cls self with
   | NIRCam_ext =>
       let bar_offset_orig := default ONone (options self !! "bar_offset") in
       set_option "bar_offset" (ONum 0) ;;;
       res <- _gen_psf_coeff E wfe_drift ;;
       set_option "bar_offset" bar_offset_orig ;;;
       ret res
   | MIRI_ext => _gen_psf_coeff E wfe_drift
   end)%py.

(** *** [_gen_wfedrift_coeff] *)

(** [q % 2 == 0] *)
Definition Q_even (q : Q) : bool :=
  let r := Qred q in
  Pos.eqb (Qden r) 1 && Z.even (Qnum r).

Definition Rlist_min (l : list R) : res R :=
  match l with
  | [] => Raise (ValueError "zero-size array to reduction operation minimum which has no identity")
  | x :: tl => Ok (foldl Rmin x tl)
  end.

Definition Rlist_max (l : list R) : res R :=
  match l with
  | [] => Raise (ValueError "zero-size array to reduction operation maximum which has no identity")
  | x :: tl => Ok (foldl Rmax x tl)
  end.

(** The memory cap: [self._fovmax if self.oversample<=4 else self._fovmax / 2]. *)
Definition fov_cap (fovmax : Z) (self : instrument) : Q :=
  if Z.leb (oversample self) 4 then inject_Z fovmax
  else Qred (inject_Z fovmax / 2).

(** [if self.fov_pix>fov_max:
       self.fov_pix = fov_max if (self.fov_pix % 2 == 0) else fov_max + 1] *)
Definition capped_fov_pix (fov_max : Q) (self : instrument) : Q :=
  if negb (Qle_bool (fov_pix self) fov_max)
  then (if Q_even (fov_pix self) then fov_max else Qred (fov_max + 1))
  else fov_pix self.

(** What [_gen_wfedrift_coeff] returns: nothing, the integer 0 (from the
    [NIRCam_ext] wrapper), the fitted results, or the raw cubes. *)
Inductive drift_ret :=
| DriftNone
| DriftZero
| DriftResults (cf_fit cf_fit_off lxmap : modval)
| DriftRaw (cf_wfe : list cube) (cf_wfe_off : option (list cube)) (wfe_list : list R).

(** [(val is not None) and (val != 0)] *)
Definition opt_nonzero (v : optval) : bool :=
  match v with
  | ONone => false
  | ONum q => negb (Qeq_bool q 0)
  | OReal x => negb (Req_zero x)
  | OBool b => b
  | OStr _ => true
  end.

(** [out['arr_i']] on a loaded [.npz] file. *)
Definition npz_get (out : list modval) (i : nat) : res modval :=
  match out !! i with
  | Some v => Ok v
  | None => Raise (KeyError "arr_i is not a file in the archive")
  end.

Definition set_mod (key : string) (v : modval) : M world unit :=
  upd_inst (fun self => set_psf_coeff_mod (<[key := v]> (_psf_coeff_mod self)) self).

(** [cf - cf[0]] followed by the degree-4 Legendre fit over [wfe_list]. *)
Definition fit_residuals (E : externals) (wfe_list : list R) (cf : list cube)
  : res (list cube * (R * R)) :=
  (* Get residuals *)
  res_bind (list_get cf 0) (fun cf0 =>
  res_bind (stack_sub cf cf0) (fun cf_resid =>
  (* Fit each pixel with a polynomial and save the coefficient *)
  res_bind (Rlist_min wfe_list) (fun lo =>
  res_bind (Rlist_max wfe_list) (fun hi =>
  let lxmap := (lo, hi) in
  res_bind (jl_poly_fit E wfe_list cf_resid 4 lxmap) (fun cf_fit =>
  Ok (cf_fit, lxmap)))))).

(** [def _gen_wfedrift_coeff(self, force=False, save=True,
    wfe_list=[0,1,2,5,10,20,40], return_results=False, return_raw=False)] *)
Definition _gen_wfedrift_coeff (E : externals) (force save : bool) (wfe_list : list R)
    (return_results return_raw : bool) : M world drift_ret :=
  (self <- gets inst ;;
   (* fov_pix should not be more than some size to preserve memory *)
   let fov_max := fov_cap (_fovmax_wfedrift self) self in
   let fov_pix_orig := fov_pix self in
   upd_inst (set_fov_pix (capped_fov_pix fov_max self)) ;;;
   (* Name to save array of oversampled coefficients *)
   self <- gets inst ;;
   let outname := save_dir E self +:+ splitext_root E (save_name E self)
                  +:+ "_wfedrift.npz" in
   on_disk <- gets (fun w => files w !! outname) ;;
   match (if force then None else on_disk) with
   | Some out =>
       (* Load file if it already exists.  Return fov_pix to original size *)
       upd_inst (set_fov_pix fov_pix_orig) ;;;
       emit INFO "Loading {outname}" ;;;
       if return_results then
         a0 <- lift (npz_get out 0) ;;
         a1 <- lift (npz_get out 1) ;;
         a2 <- lift (npz_get out 2) ;;
         ret (DriftResults a0 a1 a2)
       else
         a0 <- lift (npz_get out 0) ;;
         set_mod "wfe_drift" a0 ;;;
         a1 <- lift (npz_get out 1) ;;
         set_mod "wfe_drift_off" a1 ;;;
         a2 <- lift (npz_get out 2) ;;
         set_mod "wfe_drift_lxmap" a2 ;;;
         ret DriftNone
   | None =>
       emit WARNING "Generating WFE Drift coefficients. This may take some time..." ;;;
       (* Warn if mask shifting is currently enabled (only when an image mask is present) *)
       for_each ["coron_shift_x"; "coron_shift_y"] (fun off_pos =>
         self <- gets inst ;;
         val <- lift (dict_get (options self) off_pos) ;;
         if match image_mask self with Some _ => true | None => false end
            && opt_nonzero val
         then
           match val with
           | OStr _ => raise (ValueError "Unknown format code 'f' for object of type 'str'")
           | _ => emit WARNING "{off_pos} is set to {val:.3f} arcsec. Should this be 0?"
           end
         else ret tt) ;;;
       (* Calculate residuals *)
       cf_wfe <- map_M (fun wfe_drift => gen_psf_coeff E wfe_drift) wfe_list ;;
       (* For coronagraphic observations, produce an offset PSF by turning off mask *)
       self <- gets inst ;;
       off <-
         (if is_coron self then
            let image_mask_orig := image_mask self in
            upd_inst (set_image_mask None) ;;;
            cf_wfe_off <- map_M (fun wfe_drift => gen_psf_coeff E wfe_drift) wfe_list ;;
            upd_inst (set_image_mask image_mask_orig) ;;;
            (* Return fov_pix to original size *)
            upd_inst (set_fov_pix fov_pix_orig) ;;;
            if return_raw then ret (inl (DriftRaw cf_wfe (Some cf_wfe_off) wfe_list))
            else
              fit <- lift (fit_residuals E wfe_list cf_wfe_off) ;;
              ret (inr (MFit (fst fit)))
          else
            (* Return fov_pix to original size *)
            upd_inst (set_fov_pix fov_pix_orig) ;;;
            if return_raw then ret (inl (DriftRaw cf_wfe None wfe_list))
            else ret (inr MNone)) ;;
       match off with
       | inl raw => ret raw
       | inr cf_fit_off =>
           fit <- lift (fit_residuals E wfe_list cf_wfe) ;;
           let cf_fit := MFit (fst fit) in
           let lxmap := MVec [fst (snd fit); snd (snd fit)] in
           (if save then
              emit INFO "Saving to {outname}" ;;;
              write_file outname [cf_fit; cf_fit_off; lxmap]
            else ret tt) ;;;
           emit INFO "Done." ;;;
           (* Options to return results from function *)
           if return_results then ret (DriftResults cf_fit cf_fit_off lxmap)
           else
             set_mod "wfe_drift" cf_fit ;;;
             set_mod "wfe_drift_off" cf_fit_off ;;;
             set_mod "wfe_drift_lxmap" lxmap ;;;
             ret DriftNone
       end
   end)%py.

(** [psf_coeff_header.get('BAROFF', None)] as an option value (the card
    holds a number or a string; positions are stored in other cards). *)
Definition hdr_baroff (h : header) : optval :=
  match list_find (fun kv => bool_decide (fst kv = "BAROFF")) h with
  | Some (_, (_, (HStr s, _))) => OStr s
  | Some (_, (_, (HBool b, _))) => OBool b
  | Some (_, (_, (HNum x, _))) => OReal x
  | Some (_, (_, (HCoord (Scalar x), _))) => OReal x
  | Some (_, (_, (HCoord (Array _), _))) => ONone
  | None => ONone
  end.

(** The method [gen_wfedrift_coeff].  [NIRCam_ext] runs the sweep with
    [options['bar_offset']] taken from the coefficient header and puts the
    option back in a [finally] clause; [MIRI_ext] calls the sweep. *)
Definition gen_wfedrift_coeff (E : externals) (force save : bool) (wfe_list : list R)
    (return_results return_raw : bool) : M world drift_ret :=
  (self <- gets inst ;;
   match cls self with
   | MIRI_ext => _gen_wfedrift_coeff E force save wfe_list return_results return_raw
   | NIRCam_ext =>
       (* Set to input bar offset value. No effect if not a wedge mask. *)
       let bar_offset_orig := default ONone (options self !! "bar_offset") in
       match psf_coeff_header self with
       | None =>
           (* Throws error if psf_coeff_header doesn't exist *)
           emit ERROR "psf_coeff_header does not appear to exist. Run gen_psf_coeff()." ;;;
           set_option "bar_offset" bar_offset_orig ;;;
           ret DriftZero
       | Some h =>
           set_option "bar_offset" (hdr_baroff h) ;;;
           (fun w =>
              let '(r, w') := _gen_wfedrift_coeff E force save wfe_list
                                return_results return_raw w in
              (* finally *)
              (r, snd (set_option "bar_offset" bar_offset_orig w')))
       end
   end)%py.

(** *** [_gen_wfemask_coeff], up to its residuals *)

(** [-1 * np.array(l)] *)
Definition neg_all (l : list Q) : list Q := map (fun q => -1 * q)%Q l.

(** [np.meshgrid(a, b)] reshaped to [[2, -1]] and transposed: the pairs
    [(a[j], b[i])], with [j] running fastest. *)
Definition meshgrid_pairs (a b : list Q) : list (Q * Q) :=
  flat_map (fun bi => map (fun aj => (aj, bi)) a) b.

Definition Q_is0 (q : Q) : bool := Qeq_bool (Qabs q) 0.

(** The sampled mask offsets: the two axes, the list of [(x, y)] shifts in
    the order they are simulated, and the flags of the small-grid-dither
    positions. *)
Record mask_grid := {
  x_offsets : list Q;
  y_offsets : list Q;
  xy_list : list (Q * Q);
  ind_sgd : list bool;
}.

(** Offsets of the [MIRI] masks and of the round [NIRCam] masks, the same
    on both axes. *)
Definition square_grid (offsets : list Q) (sgd_max : Q) (miri_order : bool) : mask_grid :=
  let xy_offsets := neg_all offsets in
  let xy_offsets := <[0%nat := 0%Q]> xy_offsets in
  let xy_offsets := reverse xy_offsets in (* Ascending order *)
  let x_offsets := xy_offsets in
  let y_offsets := xy_offsets in
  let xy := if miri_order then meshgrid_pairs y_offsets x_offsets
            else meshgrid_pairs x_offsets y_offsets in
  {| x_offsets := x_offsets; y_offsets := y_offsets; xy_list := xy;
     (* Small grid dithers indices *)
     ind_sgd := map (fun p =>
                  let ind_zero := Q_is0 (fst p) && Q_is0 (snd p) in
                  Qle_bool (Qabs (fst p)) sgd_max && Qle_bool (Qabs (snd p)) sgd_max
                  && negb ind_zero) xy |}.

(** The positions [_gen_wfemask_coeff] cycles through. *)
Definition mask_positions (self : instrument) : res mask_grid :=
  match image_mask self with
  | None => Raise (TypeError "argument of type 'NoneType' is not iterable")
  | Some mask =>
      match cls self with
      | MIRI_ext =>
          (* Series of x and y mask shifts (in mask coordinates) *)
          if str_contains "FQPM" mask then
            Ok (square_grid [0; 0.005; 0.01; 0.08; 0.10; 0.2; 0.5; 1; 10; 12]%Q 0.01%Q true)
          else if str_contains "LYOT" mask then
            Ok (square_grid [0; 0.01; 0.1; 0.36; 0.5; 1; 2.1; 10; 15]%Q 0.01%Q true)
          else Raise (NotImplementedError "{self.name} with {self.image_mask} not implemented.")
      | NIRCam_ext =>
          match str_last mask with
          | None => Raise (IndexError "string index out of range")
          | Some c =>
              if Ascii.eqb c "R" then
                (* Round masks.  Include SGD points *)
                let xy_inner := [0; 0.015; 0.02; 0.05; 0.1]%Q in
                (* M430R sampling; scale others *)
                let xy_mid := [0.6; 1.2; 2; 2.5]%Q in
                let xy_mid :=
                  if str_contains "210R" mask then map (fun q => q * 0.488)%Q xy_mid
                  else if str_contains "335R" mask then map (fun q => q * 0.779)%Q xy_mid
                  else xy_mid in
                let xy_outer := [5; 8]%Q in
                Ok (square_grid (xy_inner ++ xy_mid ++ xy_outer) 0.02%Q false)
              else
                (* Bar masks.  LWB sampling of wedge gradient.  Include SGD points *)
                let y_inner := [0; 0.01; 0.02; 0.05; 0.1]%Q in
                let y_mid := [0.6; 1.2; 2; 2.5]%Q in
                let y_mid :=
                  if str_contains "SW" mask then map (fun q => q * 0.488)%Q y_mid
                  else y_mid in
                let y_outer := [5; 8]%Q in
                let y_offsets := y_inner ++ y_mid ++ y_outer in
                let x_offsets := [-8; -6; -4; -2; 0; 2; 4; 6; 8]%Q in
                (* Mask offset values in ascending order *)
                let x_offsets := neg_all (reverse x_offsets) in
                let y_offsets := neg_all (reverse y_offsets) in
                let xy := meshgrid_pairs x_offsets y_offsets in
                Ok {| x_offsets := x_offsets; y_offsets := y_offsets; xy_list := xy;
                      (* Small grid dithers indices *)
                      ind_sgd := map (fun p =>
                                   let ind_zero := Q_is0 (snd p) in
                                   Qle_bool (Qabs (snd p)) 0.02%Q && negb ind_zero) xy |}
          end
      end
  end.

(** [cf_all[-1]] *)
Definition list_last {X} (l : list X) : res X :=
  match last l with
  | Some x => Ok x
  | None => Raise (IndexError "list index out of range")
  end.

(** [coeff0 = cf_all[-1]] and [cf_resid = np.array(cf_all) - coeff0]. *)
Definition mask_residuals (cf_all : list cube) : res (list cube * cube) :=
  (* Get residuals *)
  res_bind (list_last cf_all) (fun coeff0 => (* (0,0) is in final position *)
  res_bind (stack_sub cf_all coeff0) (fun cf_resid =>
  Ok (cf_resid, coeff0))).

Inductive mask_ret :=
| MaskNone
| MaskResults (a0 a1 a2 a3 : modval)
| MaskRaw (cf_all : list cube) (xy : list (Q * Q))
| MaskResid (cf_resid : list cube) (coeff0 : cube) (grid : mask_grid).

(** [def _gen_wfemask_coeff(self, force=False, save=True,
    return_results=False, return_raw=False)], from its beginning to
    [cf_resid = np.array(cf_all) - coeff0].  The rest of the function (the
    mirrored quadrants, the recomputed small-grid-dither positions, the
    saving) is not embedded; [MaskResid] stands for reaching it. *)
Definition _gen_wfemask_coeff_resid (E : externals) (force return_results return_raw : bool)
  : M world mask_ret :=
  (self <- gets inst ;;
   if negb (is_coron self) then
     emit INFO "Skipping WFE mask dependence..." ;;;
     emit INFO "   Coronagraphic image mask not in place" ;;;
     ret MaskNone
   else
     (* fov_pix should not be more than some size to preserve memory *)
     let fov_max := fov_cap (_fovmax_wfefield self) self in
     let fov_pix_orig := fov_pix self in
     upd_inst (set_fov_pix (capped_fov_pix fov_max self)) ;;;
     (* Modify bar_offset to always be 0 (center of wedge FOV) *)
     let bar_offset_orig := default ONone (options self !! "bar_offset") in
     let is_nircam := String.eqb (name self) "NIRCam" in
     (if is_nircam then set_option "bar_offset" (ONum 0) else ret tt) ;;;
     (* Name to save array of oversampled coefficients *)
     self <- gets inst ;;
     let outname := save_dir E self +:+ splitext_root E (save_name E self)
                    +:+ "_wfemask.npz" in
     on_disk <- gets (fun w => files w !! outname) ;;
     match (if force then None else on_disk) with
     | Some out =>
         (* Return parameter to original *)
         upd_inst (set_fov_pix fov_pix_orig) ;;;
         (if is_nircam then set_option "bar_offset" bar_offset_orig else ret tt) ;;;
         emit INFO "Loading {outname}" ;;;
         if return_results then
           a0 <- lift (npz_get out 0) ;;
           a1 <- lift (npz_get out 1) ;;
           a2 <- lift (npz_get out 2) ;;
           a3 <- lift (npz_get out 3) ;;
           ret (MaskResults a0 a1 a2 a3)
         else
           a0 <- lift (npz_get out 0) ;;
           set_mod "si_mask" a0 ;;;
           a1 <- lift (npz_get out 1) ;;
           set_mod "si_mask_xgrid" a1 ;;;
           a2 <- lift (npz_get out 2) ;;
           set_mod "si_mask_ygrid" a2 ;;;
           a3 <- lift (npz_get out 3) ;;
           set_mod "si_mask_apname" a3 ;;;
           ret MaskNone
     | None =>
         emit WARNING "Generating mask position-dependent coefficients. This may take some time..." ;;;
         (* Current mask positions to return to at end *)
         let coron_shift_x_orig := default (ONum 0) (options self !! "coron_shift_x") in
         let coron_shift_y_orig := default (ONum 0) (options self !! "coron_shift_y") in
         (* Cycle through a list of field points *)
         let nd_squares_orig := default (OBool true) (options self !! "nd_squares") in
         (if is_nircam then set_option "nd_squares" (OBool false) else ret tt) ;;;
         grid <- lift (mask_positions self) ;;
         (* Get PSF coefficients for each specified position *)
         cf_all <- map_M (fun p : (Q * Q) * bool =>
             set_option "coron_shift_x" (ONum (fst (fst p))) ;;;
             set_option "coron_shift_y" (ONum (snd (fst p))) ;;;
             if snd p then
               (* Add just a set of 0s for SGD positions *)
               self <- gets inst ;;
               match psf_coeff self with
               | Some c => ret (cube_zeros_like c)
               | None => raise (AttributeError "'NoneType' object has no attribute 'shape'")
               end
             else gen_psf_coeff E 0%R)
           (zip (xy_list grid) (ind_sgd grid)) ;;
         if return_raw then
           (* Return to previous values *)
           set_option "coron_shift_x" coron_shift_x_orig ;;;
           set_option "coron_shift_y" coron_shift_y_orig ;;;
           upd_inst (set_fov_pix fov_pix_orig) ;;;
           (if is_nircam then
              set_option "nd_squares" nd_squares_orig ;;;
              set_option "bar_offset" bar_offset_orig
            else ret tt) ;;;
           ret (MaskRaw cf_all (xy_list grid))
         else
           r <- lift (mask_residuals cf_all) ;;
           ret (MaskResid (fst r) (snd r) grid)
     end)%py.

(** *** [_gen_wfefield_coeff], up to its residuals *)

(** [cf_fields_resid = np.array(cf_fields) - coeff0] with
    [coeff0 = self.psf_coeff]. *)
Definition field_residuals (cf_fields : list cube) (coeff0 : option cube)
  : res (list cube) :=
  match coeff0 with
  | Some c0 => stack_sub cf_fields c0
  | None => Raise (TypeError "unsupported operand type(s) for -: 'float' and 'NoneType'")
  end.

Inductive field_ret :=
| FieldNone
| FieldResults (a0 a1 a2 a3 : modval)
| FieldRaw (cf_fields : list cube) (v2_all v3_all : list R)
| FieldResid (cf_fields_resid : list cube) (v2_all v3_all : list R).

(** [def _gen_wfefield_coeff(self, force=False, save=True,
    return_results=False, return_raw=False)], from its beginning to
    [cf_fields_resid = np.array(cf_fields) - coeff0].  The interpolation
    onto the V2/V3 grid and the saving are not embedded; [FieldResid]
    stands for reaching them. *)
Definition _gen_wfefield_coeff_resid (E : externals) (force return_results return_raw : bool)
  : M world field_ret :=
  (self <- gets inst ;;
   if negb (include_si_wfe self) || is_coron self then
     emit INFO "Skipping WFE field dependence..." ;;;
     (if negb (include_si_wfe self)
      then emit INFO "   `include_si_wfe` attribute is set to False." else ret tt) ;;;
     (if is_coron self
      then emit INFO "   {self.name} coronagraphic image mask is in place." else ret tt) ;;;
     ret FieldNone
   else
     (* fov_pix should not be more than some size to preserve memory *)
     let fov_max := fov_cap (_fovmax_wfefield self) self in
     let fov_pix_orig := fov_pix self in
     upd_inst (set_fov_pix (capped_fov_pix fov_max self)) ;;;
     (* Name to save array of oversampled coefficients *)
     self <- gets inst ;;
     let outname := save_dir E self +:+ splitext_root E (save_name E self)
                    +:+ "_wfefields.npz" in
     on_disk <- gets (fun w => files w !! outname) ;;
     match (if force then None else on_disk) with
     | Some out =>
         (* Return fov_pix to original size *)
         upd_inst (set_fov_pix fov_pix_orig) ;;;
         emit INFO "Loading {outname}" ;;;
         if return_results then
           a0 <- lift (npz_get out 0) ;;
           a1 <- lift (npz_get out 1) ;;
           a2 <- lift (npz_get out 2) ;;
           a3 <- lift (npz_get out 3) ;;
           ret (FieldResults a0 a1 a2 a3)
         else
           a0 <- lift (npz_get out 0) ;;
           set_mod "si_field" a0 ;;;
           a1 <- lift (npz_get out 1) ;;
           set_mod "si_field_v2grid" a1 ;;;
           a2 <- lift (npz_get out 2) ;;
           set_mod "si_field_v3grid" a2 ;;;
           a3 <- lift (npz_get out 3) ;;
           set_mod "si_field_apname" a3 ;;;
           ret FieldNone
     | None =>
         emit WARNING "Generating field-dependent coefficients. This may take some time..." ;;;
         (* Cycle through a list of field points *)
         pts <- lift (field_points E self) ;;
         let v2_all := fst (fst pts) in
         let v3_all := snd (fst pts) in
         (* Initial settings *)
         let coeff0 := psf_coeff self in
         let xy0 := detector_position self in
         (* Calculate new coefficients at each position *)
         cf_fields <- map_M (fun sci : R * R =>
             (* Update saved detector position and calculate PSF coeff *)
             upd_inst (set_detector_position sci) ;;;
             gen_psf_coeff E 0%R) (snd pts) ;;
         (* Reset to initial values *)
         upd_inst (set_detector_position xy0) ;;;
         upd_inst (set_fov_pix fov_pix_orig) ;;;
         (* Return raw results for further analysis *)
         if return_raw then ret (FieldRaw cf_fields v2_all v3_all)
         else
           (* Get residuals *)
           resid <- lift (field_residuals cf_fields coeff0) ;;
           ret (FieldResid resid v2_all v3_all)
     end)%py.

(** ** Concrete configurations *)

(** Objects as [_init_inst] leaves them: imaging configurations without
    masks, a [MIRI_ext] four-quadrant coronagraph and a [NIRCam_ext] bar
    coronagraph. *)
Definition nircam0 : instrument :=
  _init_inst NIRCam_ext None None None None ∅ ∅ None (0%R, 0%R).
Definition miri0 : instrument :=
  _init_inst MIRI_ext None None None None ∅ ∅ None (0%R, 0%R).
Definition miri_fqpm : instrument :=
  _init_inst MIRI_ext (Some "MASKFQPM") (Some "FQPM1140") None None ∅ ∅ None (0%R, 0%R).
Definition nircam_lwb : instrument :=
  _init_inst NIRCam_ext (Some "WEDGELYOT") (Some "MASKLWB") None None ∅ ∅ None (0%R, 0%R).

(** A one-pixel, one-coefficient cube. *)
Definition cube1 (x : R) : cube := [{| shape := (1%nat, 1%nat); rows := [[x]] |}].

Definition set_psf_coeff (c : option cube) (h : option header) (self : instrument)
  : instrument :=
  {| cls := cls self; pupil_mask := pupil_mask self; image_mask := image_mask self;
     _fov_pix := _fov_pix self; _oversample := _oversample self; _ndeg := _ndeg self;
     use_legendre := use_legendre self; _quick := _quick self; _ND_acq := _ND_acq self;
     include_si_wfe := include_si_wfe self;
     _fovmax_wfedrift := _fovmax_wfedrift self;
     _fovmax_wfefield := _fovmax_wfefield self;
     options := options self; psf_coeff := c;
     psf_coeff_header := h;
     _psf_coeff_mod := _psf_coeff_mod self; _rotation := _rotation self;
     aperturename := aperturename self; siaf := siaf self;
     detector_position := detector_position self |}.

(** The world around an instrument that has logged nothing, saved nothing
    and simulated nothing. *)
Definition world_of (self : instrument) : world :=
  {| inst := self; log := []; files := ∅; sims := [] |}.

(** Stand-ins for the external services.  The simulated cube has one
    pixel, whose value is the requested drift plus the mask shift in x. *)
Definition shift_x (self : instrument) : R :=
  match options self !! "coron_shift_x" with
  | Some (ONum q) => Q2R q
  | _ => 0%R
  end.

Definition toy_externals : externals :=
  {| spectrum := unit;
     sp_len := fun _ => Raise (TypeError "object of type 'spectrum' has no len()");
     sp_getitem := fun s _ => Ok s;
     sim_psf_coeff := fun self d => Ok (cube1 (d + shift_x self));
     jl_poly_fit := fun _ cf _ _ => Ok cf;
     jl_poly := fun _ cf _ => list_get cf 0;
     field_coeff_func := fun _ _ _ _ _ => Ok (ModNum 0);
     gen_image_from_coeff := fun _ cf _ _ _ =>
       match cf with
       | CoeffCube (im :: _) | CoeffStack ((im :: _) :: _) | CoeffPlane im => Ok (ImageOnly im)
       | _ => Raise (IndexError "empty coefficients")
       end;
     get_opd_info := fun _ _ => Ok {| opd_source := "OPD_RevW_ote_predicted.fits"; opd_ops := [] |};
     get_bar_offset := fun _ => Ok 0%R;
     _update_aperturename := fun self => self;
     field_points := fun _ => Ok ([], [], []);
     save_dir := fun _ => "psf_coeffs/";
     save_name := fun _ => "coeffs.fits";
     splitext_root := fun _ => "coeffs" |}.

(** The same services with a PSF simulation that fails, as
    [_gen_psf_coeff] does when the engine returns no image. *)
Definition failing_externals : externals :=
  {| spectrum := unit;
     sp_len := sp_len toy_externals;
     sp_getitem := sp_getitem toy_externals;
     sim_psf_coeff := fun _ _ => Raise (RuntimeError "Returned None values. Issue with WebbPSF??");
     jl_poly_fit := jl_poly_fit toy_externals;
     jl_poly := jl_poly toy_externals;
     field_coeff_func := field_coeff_func toy_externals;
     gen_image_from_coeff := gen_image_from_coeff toy_externals;
     get_opd_info := get_opd_info toy_externals;
     get_bar_offset := get_bar_offset toy_externals;
     _update_aperturename := _update_aperturename toy_externals;
     field_points := field_points toy_externals;
     save_dir := save_dir toy_externals;
     save_name := save_name toy_externals;
     splitext_root := splitext_root toy_externals |}.

(** The correction dictionary has the keys [_init_inst] gave it: the
    generators and the cache loaders assign to these keys only. *)
Definition mod_keys_init (self : instrument) : Prop :=
  dom (_psf_coeff_mod self) = dom psf_coeff_mod_init.

(** An instrument after [gen_psf_coeff] (a cube and its header are
    stored) and after [gen_wfedrift_coeff] (a drift model is stored). *)
Definition with_drift_model (fit lxmap : modval) (self : instrument) : instrument :=
  set_psf_coeff_mod
    (<["wfe_drift_lxmap" := lxmap]> (<["wfe_drift" := fit]> (_psf_coeff_mod self))) self.

Definition nircam_ready : instrument :=
  set_psf_coeff (Some (cube1 1)) (Some []) nircam0.

Definition miri_fqpm_ready (c : cube) (h : header) (fit lxmap : modval) : instrument :=
  with_drift_model fit lxmap (set_psf_coeff (Some c) (Some h) miri_fqpm).

(** The default drift amplitudes, and the coronagraph with a field of
    view wider than the cap of the drift sweep. *)
Definition wfe_list_default : list R := [0; 1; 2; 5; 10; 20; 40]%R.

Definition miri_fqpm_wide : instrument := set_fov_pix 400 miri_fqpm.

(** A bar-mask coronagraph that holds a coefficient cube. *)
Definition nircam_lwb_ready : instrument :=
  set_psf_coeff (Some (cube1 0)) (Some []) nircam_lwb.

(** Every coefficient of the cube is exactly zero. *)
Definition cube_all_zero (c : cube) : Prop :=
  Forall (fun im => Forall (Forall (fun v => v = 0%R)) (rows im)) c.

(** ** Frame conditions of the sweeps *)

(** A computation is quiet when it neither changes [fov_pix] nor runs a
    simulation, and is a sweep step when it leaves [fov_pix] as it found
    it and every simulation it runs sees that [fov_pix]. *)
Definition quiet_m {A} (m : M world A) : Prop :=
  forall w, fov_pix (inst (snd (m w))) = fov_pix (inst w) /\ sims (snd (m w)) = sims w.

Definition sweep_m {A} (m : M world A) : Prop :=
  forall w, fov_pix (inst (snd (m w))) = fov_pix (inst w)
            /\ exists new, sims (snd (m w)) = sims w ++ new
                           /\ Forall (fun s => fov_pix (fst s) = fov_pix (inst w)) new.

(** The outcome [rw] of a sweep started in world [w] under the cap [cap]:
    every simulation run saw [fov_pix = cap], and at the end [fov_pix] is
    back at [orig] unless an exception left it at [cap]. *)
Definition capped_run {A} (cap orig : Q) (w : world) (rw : res A * world) : Prop :=
  (exists new, sims (snd rw) = sims w ++ new
               /\ Forall (fun s => fov_pix (fst s) = cap) new)
  /\ (fov_pix (inst (snd rw)) = orig
      \/ (fov_pix (inst (snd rw)) = cap /\ exists e, fst rw = Raise e)).

(** A computation stops at the first simulation that fails: when a
    simulation it started raised, the computation ends with that very
    exception, in a world whose [fov_pix] is the one the simulation saw. *)
Definition fail_stop (E : externals) {A} (m : M world A) : Prop :=
  forall w, exists new,
    sims (snd (m w)) = sims w ++ new
    /\ forall s e, s ∈ new -> sim_psf_coeff E (fst s) (snd s) = Raise e ->
         fst (m w) = Raise e /\ fov_pix (inst (snd (m w))) = fov_pix (fst s).

(** ** What the sweeps simulate *)





(** * Further functions of the embedded files *)

(** ** Further coordinate helpers ([coords.py]) *)

(** An array computed pixel by pixel from the column index [i] and the row
    index [j], as the arrays of [np.indices] are. *)
Definition pixel_grid (ny nx : nat) (f : R -> R -> R) : image :=
  {| shape := (ny, nx);
     rows := map (fun j => map (fun i => f (INR i) (INR j)) (seq 0 nx)) (seq 0 ny) |}.

(** [a[j, i]], and the entry at integer indices, which exists only when
    both are in range. *)
Definition entry {A} (a : array2 A) (j i : nat) : option A :=
  match rows a !! j with
  | Some r => r !! i
  | None => None
  end.

Definition at_Z {X} (l : list X) (z : Z) : option X :=
  if Z.leb 0 z then l !! Z.to_nat z else None.

Definition entry_Z {A} (a : array2 A) (zj zi : Z) : option A :=
  if Z.leb 0 zj && Z.leb 0 zi then entry a (Z.to_nat zj) (Z.to_nat zi) else None.

(** [def dist_image(image, pixscale=None, center=None, return_theta=False)]
    for a 2-D [image], of which only the shape is read.  The result is
    [rho], with [theta] beside it when [return_theta] is set. *)
Definition dist_image (im : image) (pixscale : option R) (center : option (R * R))
    (return_theta : bool) : image * option image :=
  let '(ny, nx) := shape im in
  (* y, x = np.indices(image.shape) *)
  let center :=
    match center with
    | None => ((INR nx - 1) / 2, (INR ny - 1) / 2)%R
    | Some c => c
    end in
  let x i := (i - fst center)%R in
  let y j := (j - snd center)%R in
  let rho := pixel_grid ny nx (fun i j => sqrt (x i ^ 2 + y j ^ 2))%R in
  let rho :=
    match pixscale with
    | Some s => image_map (fun v => v * s)%R rho
    | None => rho
    end in
  if return_theta
  then (rho, Some (pixel_grid ny nx (fun i j => arctan2 (- x i) (y j) * 180 / PI)%R))
  else (rho, None).

(** ** Further image manipulation ([image_manip.py]) *)

(** [def fshift(image, delx=0, dely=0, pad=False, cval=0.0)] on a 1-D
    image, for whole-pixel shifts (so that [fracx] is 0 and the
    interpolation is skipped).  The array is padded by [np.abs(intx)] on
    both sides and read back from [padx = np.abs(intx) + 1]. *)
Definition fshift_1d {A} (image : list A) (delx : Z) (pad : bool) (cval : A) : list A :=
  (* Return if delx is 0 *)
  if Z.eqb delx 0 then image
  else
    let intx := delx in
    (* Pad ends with constant value *)
    let padx := if pad then (Z.abs_nat intx + 1)%nat else 0%nat in
    let out :=
      if pad
      then replicate (Z.abs_nat intx) cval ++ image ++ replicate (Z.abs_nat intx) cval
      else image in
    (* shift by integer portion *)
    let out := roll out intx in
    slice out padx (padx + length image).

(** [np.sum(l)] *)
Definition Rsum (l : list R) : R := foldr Rplus 0%R l.

(** *** Random pointing offsets *)

Section pointing.
(** The state of numpy's global random generator, and the draw of one
    standard normal deviate from it. *)
Variable rng : Type.
Variable standard_normal : rng -> R * rng.

(** [np.random.normal(loc, scale)] for one value: numpy returns
    [loc + scale * z] for a standard deviate [z]. *)
Definition normal1 (loc scale : R) : M rng R :=
  fun g => let '(z, g') := standard_normal g in (Ok (loc + scale * z)%R, g').

(** [np.random.normal(loc=locs, scale=scale)]: one draw per entry of
    [locs], in order; a negative [scale] is refused. *)
Definition np_random_normal (locs : list R) (scale : R) : M rng (list R) :=
  if Rlt_dec scale 0 then raise (ValueError "scale < 0")
  else map_M (fun loc => normal1 loc scale) locs.

(** The nominal small-grid-dither patterns, in milliarcseconds. *)
Definition sgd_pattern (sgd_type : string) : res (list R * list R) :=
  (if String.eqb sgd_type "9circle" then
     Ok ([0; 0; -15; -20; -15; 0; 15; 20; 15], [0; 20; 15; 0; -15; -20; -15; 0; 15])
   else if String.eqb sgd_type "5box" then
     Ok ([0; 15; -15; -15; 15], [0; 15; 15; -15; -15])
   else if String.eqb sgd_type "5diamond" then
     Ok ([0; 0; 0; 0; 0], [0; 20; -20; 20; -20])
   else if String.eqb sgd_type "5bar" then
     Ok ([0; 0; 0; 0; 0], [0; 20; 10; -10; -20])
   else if String.eqb sgd_type "3bar" then
     Ok ([0; 0; 0], [0; 15; -15])
   else if String.eqb sgd_type "5miri" then
     Ok ([0; -10; 10; 10; -10], [0; 10; 10; -10; -10])
   else if String.eqb sgd_type "9miri" then
     Ok ([0; -10; -10; 0; 10; 10; 10; 0; -10], [0; 0; 10; 10; 10; 0; -10; -10; -10])
   else Raise (ValueError (sgd_type +:+ " not a valid SGD type")))%R.

(** [a[1:] += b[1:]] for two arrays of the same length. *)
Definition add_tail (a b : list R) : list R :=
  take 1 a ++ zip_with Rplus (drop 1 a) (drop 1 b).

(** [def gen_sgd_offsets(sgd_type, slew_std=5, fsm_std=2.5)] *)
Definition gen_sgd_offsets (sgd_type : string) (slew_std fsm_std : R)
  : M rng (list R * list R) :=
  (pat <- lift (sgd_pattern sgd_type) ;;
   let '(xoff_msec, yoff_msec) := pat in
   (* Add randomized telescope offsets *)
   off <-
     (if Rlt_dec 0 slew_std then
        pt <- np_random_normal [0; 0]%R slew_std ;;
        match pt with
        | [x_point; y_point] =>
            ret (map (fun v => v + x_point)%R xoff_msec,
                 map (fun v => v + y_point)%R yoff_msec)
        | _ => raise (ValueError "not enough values to unpack (expected 2)")
        end
      else ret (xoff_msec, yoff_msec)) ;;
   let '(xoff_msec, yoff_msec) := off in
   (* Add randomized FSM offsets *)
   off <-
     (if Rlt_dec 0 fsm_std then
        x_fsm <- np_random_normal (map (fun _ => 0%R) xoff_msec) fsm_std ;;
        y_fsm <- np_random_normal (map (fun _ => 0%R) yoff_msec) fsm_std ;;
        ret (add_tail xoff_msec x_fsm, add_tail yoff_msec y_fsm)
      else ret (xoff_msec, yoff_msec)) ;;
   let '(xoff_msec, yoff_msec) := off in
   ret (map (fun v => v / 1000)%R xoff_msec, map (fun v => v / 1000)%R yoff_msec))%py.

(** [def get_idl_offset(base_offset=(0,0), dith_offset=(0,0), base_std=0,
    use_ta=True, dith_std=0, use_sgd=True)] for pairs of offsets and
    standard deviations that are numbers or [None]; the result is the
    array of the two offsets. *)
Definition get_idl_offset (base_offset dith_offset : R * R) (base_std : option R)
    (use_ta : bool) (dith_std : option R) (use_sgd : bool) : M rng (list R) :=
  (* Convert to arrays (values of mas) *)
  let base_xy := [fst base_offset * 1000; snd base_offset * 1000]%R in
  let dith_xy := [fst dith_offset * 1000; snd dith_offset * 1000]%R in
  (* Set telescope slew uncertainty *)
  let base_std : R :=
    match base_std with
    | None => if use_ta then 5%R else 100%R
    | Some s => s
    end in
  (* No dither offset: [dith_xy[0]==dith_xy[1]==0] *)
  let dith_std : R :=
    if (if Req_dec_T (fst dith_offset * 1000) (snd dith_offset * 1000) then true else false)
       && Req_zero (snd dith_offset * 1000)
    then 0%R
    else match dith_std with
         | None => if use_sgd then 2.5%R else 5%R
         | Some s => s
         end in
  (b <- np_random_normal base_xy base_std ;;
   d <- np_random_normal dith_xy dith_std ;;
   ret (map (fun v => v / 1000)%R (zip_with Rplus b d)))%py.
End pointing.

(** ** Further properties of the instrument objects *)

(** The [npsf] property.  The attribute [_npsf] (a number or [None]) and
    the ends of [self.bandpass.wave] (in Angstrom) are not part of
    [instrument] and are passed beside it. *)
Definition npsf (self : instrument) (_npsf : option Q) (wave_min wave_max : Q) : Z :=
  (* Default to 10 PSF simulations per um *)
  let w1 := (wave_min / 10000)%Q in
  let w2 := (wave_max / 10000)%Q in
  let npsf : Q :=
    match _npsf with
    | None =>
        let dn : Q := match cls self with NIRCam_ext => 20%Q | MIRI_ext => 10%Q end in
        inject_Z (Qceiling (dn * (w2 - w1)))
    | Some n => n
    end in
  (* Want at least 5 monochromatic PSFs *)
  let npsf : Z := if negb (Qle_bool 5%Q npsf) then 5 else py_int npsf in
  (* Number of points must be greater than degree of fit *)
  if Z.leb npsf (ndeg self) then ndeg self + 1 else npsf.

(** [temp_list.count(None)] *)
Definition count_None (l : list pyval) : nat :=
  length (List.filter (fun v => py_eq v PNone) l).

(** Every simulation a computation starts on a [NIRCam_ext] object sees
    [options['bar_offset'] = 0]. *)
Definition zero_bar_sims {A} (m : M world A) : Prop :=
  forall w, cls (inst w) = NIRCam_ext ->
    cls (inst (snd (m w))) = NIRCam_ext
    /\ exists new, sims (snd (m w)) = sims w ++ new
                   /\ Forall (fun s => options (fst s) !! "bar_offset" = Some (ONum 0)) new.

(** ** NIRCam aperture limits ([coords.py]) *)

(** What [NIRCam_V2V3_limits] returns: the four bounds, or the two arrays
    of corner coordinates. *)
Inductive v2v3_limits :=
| Bounds (v2_min v2_max v3_min v3_max : R)
| Corners (V2 V3 : list R).

Definition names_dict : list (string * string) :=
  [("SW", "NRCALL_FULL"); ("LW", "NRCALL_FULL");
   ("SWA", "NRCAS_FULL"); ("SWB", "NRCBS_FULL");
   ("LWA", "NRCA5_FULL"); ("LWB", "NRCB5_FULL")].

(** [d[key]] on a dictionary held in insertion order. *)
Definition items_get {V} (d : list (string * V)) (key : string) : res V :=
  match List.find (fun kv => String.eqb (fst kv) key) d with
  | Some kv => Ok (snd kv)
  | None => Raise (KeyError key)
  end.

(** [np.mean(v)] *)
Definition np_mean (v : list R) : R := (Rsum v / INR (length v))%R.

(** [v[v<avg] -= border; v[v>avg] += border] with [avg = np.mean(v)]: the
    second mask is taken on the values the first statement left. *)
Definition add_border (border : R) (v : list R) : list R :=
  let avg := np_mean v in
  let v := map (fun x => if Rlt_dec x avg then (x - border)%R else x) v in
  map (fun x => if Rlt_dec avg x then (x + border)%R else x) v.

Section aperture_limits.
(** pysiaf: [siaf[apname].corners(frame, False)] and
    [siaf[apname].sci_to_tel(xsci, ysci)]; every call returns new arrays. *)
Variable corners : string -> string -> list R * list R.
Variable sci_to_tel : string -> list R -> list R -> list R * list R.

(** The corners of one aperture in the telescope frame, in arcsec, with
    the offset of the coronagraphic field. *)
Definition tel_corners (pupil : option string) (apname : string) : list R * list R :=
  (* Do all four apertures for each SWA & SWB *)
  let '(v2_ref, v3_ref) :=
    if str_contains "S_" apname || str_contains "ALL_" apname
    then corners apname "tel"
    else let '(xsci, ysci) := corners apname "sci" in sci_to_tel apname xsci ysci in
  (* Offset by 50 arcsec if coronagraphy *)
  if match pupil with Some p => str_contains "LYOT" p | None => false end
  then (map (fun v => v - 2.1)%R v2_ref, map (fun v => v + 47.7)%R v3_ref)
  else (v2_ref, v3_ref).

(** [def get_NRC_v2v3_limits(pupil=None, border=10, return_corners=False, **kwargs)] *)
Definition get_NRC_v2v3_limits (pupil : option string) (border : R) (return_corners : bool)
  : res (list (string * (list R * list R))) :=
  map_res (fun '(name, apname) =>
    let '(v2_ref, v3_ref) := tel_corners pupil apname in
    (* Add border margin *)
    let v2_ref := add_border border v2_ref in
    let v3_ref := add_border border v3_ref in
    if return_corners then
      Ok (name, (map (fun v => v / 60)%R v2_ref, map (fun v => v / 60)%R v3_ref))
    else
      res_bind (Rlist_min v2_ref) (fun v2_lo =>
      res_bind (Rlist_max v2_ref) (fun v2_hi =>
      res_bind (Rlist_min v3_ref) (fun v3_lo =>
      res_bind (Rlist_max v3_ref) (fun v3_hi =>
      Ok (name, ([v2_lo / 60; v2_hi / 60], [v3_lo / 60; v3_hi / 60]))))))%R)
    names_dict.

(** [def NIRCam_V2V3_limits(module, channel='LW', pupil=None, rederive=False,
    return_corners=False, **kwargs)]; of the keyword arguments handed on,
    [border] is the one [get_NRC_v2v3_limits] reads. *)
Definition NIRCam_V2V3_limits (module channel : string) (pupil : option string)
    (rederive return_corners : bool) (border : option R) : res v2v3_limits :=
  (* Grab coordinate from pySIAF *)
  if rederive then
    res_bind (get_NRC_v2v3_limits pupil (default 10%R border) return_corners)
      (fun v2v3_limits =>
    let name := (channel +:+ module)%string in
    res_bind (items_get v2v3_limits name) (fun lim =>
    if return_corners then Ok (Corners (fst lim) (snd lim))
    else
      match lim with
      | ([v2_min; v2_max], [v3_min; v3_max]) => Ok (Bounds v2_min v2_max v3_min v3_max)
      | _ => Raise (ValueError "not enough values to unpack")
      end))
  else
    (* Or use preset coordinates *)
    let '(v2_min, v2_max, v3_min, v3_max) :=
      if String.eqb module "A" then (0.2, 2.7, -9.5, -7.0)%R
      else (-2.7, -0.2, -9.5, -7.0)%R in
    if return_corners
    then Ok (Corners [v2_min; v2_min; v2_max; v2_max] [v3_min; v3_max; v3_min; v3_max])
    else Ok (Bounds v2_min v2_max v3_min v3_max).
End aperture_limits.

(* ====================================================================== *)
(** * Theorems *)
(* ====================================================================== *)

(** ** Validated settings *)

Example check_list_message :
  fst (_check_list (PInt 3) 0%nat (Some "quick") {[ 0%nat := [PBool true; PNone] ]})
  = Raise (ValueError ("Invalid quick setting: 3 " +:+ newline_tab
                        +:+ "Valid values are: True, None")).
Proof. vm_compute. reflexivity. Qed.

Lemma py_eq_None (v : pyval) : py_eq v PNone = true <-> v = PNone.
Proof. destruct v; simpl; split; intros H; try discriminate; reflexivity. Qed.

Lemma py_eq_None_l (v : pyval) : py_eq PNone v = py_eq v PNone.
Proof. destruct v; reflexivity. Qed.

Lemma index_None_lookup (l : list pyval) :
  py_in PNone l = true -> l !! index_None l = Some PNone.
Proof.
  unfold py_in. induction l as [|v tl IH]; cbn [existsb index_None]; [discriminate|].
  rewrite py_eq_None_l. destruct (py_eq v PNone) eqn:Hv; cbn [orb].
  - intros _. apply py_eq_None in Hv. now subst.
  - intros H. cbn. now apply IH.
Qed.

Lemma check_list_accepts (value : pyval) (r : ref) (vn : option string) (h : store) (l : list pyval) :
  h !! r = Some l -> py_in value l = true -> _check_list value r vn h = (Ok tt, h).
Proof.
  intros Hl Hin. unfold _check_list, bind, deref. rewrite Hl. simpl.
  rewrite Hin. reflexivity.
Qed.

Lemma check_list_rejects_no_None (value : pyval) (r : ref) (vn : option string) (h : store)
    (l : list pyval) :
  h !! r = Some l -> py_in value l = false -> py_in PNone l = false ->
  snd (_check_list value r vn h) = h.
Proof.
  intros Hl Hin Hn. unfold _check_list, bind, deref. rewrite Hl. simpl.
  rewrite Hin, Hn. reflexivity.
Qed.

(** A setter validates against a list it has just built: whatever the
    value, the lists that existed before the call are left as they were. *)
Lemma setter_check_frame (value : pyval) (vn : string) (h : store) (r : ref) :
  is_Some (h !! r) ->
  let '(l, h1) := alloc_list [PBool true; PBool false] h in
  match l with
  | Ok l => snd (_check_list value l (Some vn) (snd (alloc_list [PBool true; PBool false] h))) !! r
            = h !! r
  | Raise _ => False
  end.
Proof.
  intros Hr. unfold alloc_list. simpl.
  set (r0 := fresh (dom h)).
  assert (Hfresh : r0 ∉ dom h) by apply is_fresh.
  assert (Hne : r0 <> r).
  { intros ->. apply Hfresh. now apply elem_of_dom. }
  assert (Hl : (<[r0:=[PBool true; PBool false]]> h : store) !! r0
               = Some [PBool true; PBool false]) by apply lookup_insert_eq.
  destruct (py_in value [PBool true; PBool false]) eqn:Hin.
  - rewrite (check_list_accepts _ _ _ _ _ Hl Hin). simpl.
    now rewrite lookup_insert_ne.
  - rewrite (check_list_rejects_no_None _ _ _ _ _ Hl Hin eq_refl).
    now rewrite lookup_insert_ne.
Qed.

(** C10.  When [_check_list] rejects a value and the list it was handed
    contains [None], the list object itself is changed before [ValueError]
    is raised: its first [None] becomes the string ['None'], and the
    caller's list stays changed after the failed validation.  The [quick]
    and [ND_acq] setters validate against a list they build for the call,
    so no list that existed before a setter call is changed by it. *)
Theorem check_list_rejection_mutates_shared_list
    (h : store) (temp_list : ref) (l : list pyval) (value : pyval)
    (var_name : option string) :
  h !! temp_list = Some l ->
  py_in value l = false ->
  py_in PNone l = true ->
  (exists msg, _check_list value temp_list var_name h
               = (Raise (ValueError msg),
                  <[temp_list := <[index_None l := PStr "None"]> l]> h))
  /\ l !! index_None l = Some PNone
  /\ (<[index_None l := PStr "None"]> l) !! index_None l = Some (PStr "None")
  /\ snd (_check_list value temp_list var_name h) !! temp_list <> Some l
  /\ (forall (w : store * instrument) (v : pyval) (r : ref),
        is_Some (fst w !! r) ->
        fst (snd (quick_setter v w)) !! r = fst w !! r
        /\ fst (snd (ND_acq_setter v w)) !! r = fst w !! r).
Proof.
  intros Hl Hin Hnone.
  pose proof (index_None_lookup l Hnone) as Hidx.
  assert (Hlt : (index_None l < length l)%nat) by (eapply lookup_lt_Some; eauto).
  assert (Hrun : exists msg, _check_list value temp_list var_name h
               = (Raise (ValueError msg),
                  <[temp_list := <[index_None l := PStr "None"]> l]> h)).
  { unfold _check_list, bind, deref, modify, raise. rewrite Hl. simpl.
    rewrite Hin, Hnone. simpl. rewrite lookup_insert_eq. simpl. eauto. }
  split; [exact Hrun|]. split; [exact Hidx|].
  assert (Hnew : (<[index_None l := PStr "None"]> l) !! index_None l = Some (PStr "None"))
    by now apply list_lookup_insert_eq.
  split; [exact Hnew|]. split.
  - destruct Hrun as [msg ->]. simpl. rewrite lookup_insert_eq.
    intros Heq. injection Heq as Heq. rewrite Heq in Hnew. congruence.
  - intros [hw iw] v r Hr. simpl in Hr.
    pose proof (setter_check_frame v "quick" hw r Hr) as Hq.
    pose proof (setter_check_frame v "ND_acq" hw r Hr) as Hn.
    unfold alloc_list in Hq, Hn. simpl in Hq, Hn.
    unfold quick_setter, ND_acq_setter, bind, on_store, alloc_list, modify. simpl.
    split.
    + destruct (_check_list v (fresh (dom hw)) (Some "quick")
                  (<[fresh (dom hw):=[PBool true; PBool false]]> hw)) as [[[]|e] h'] eqn:E;
        simpl in *; exact Hq.
    + destruct (_check_list v (fresh (dom hw)) (Some "ND_acq")
                  (<[fresh (dom hw):=[PBool true; PBool false]]> hw)) as [[[]|e] h'] eqn:E;
        simpl in *; exact Hn.
Qed.

Lemma check_list_rejection_mutates_shared_list_witness :
  let h : store := {[ 7%nat := [PStr "A"; PNone; PStr "B"] ]} in
  h !! 7%nat = Some [PStr "A"; PNone; PStr "B"]
  /\ py_in (PStr "C") [PStr "A"; PNone; PStr "B"] = false
  /\ py_in PNone [PStr "A"; PNone; PStr "B"] = true
  /\ snd (_check_list (PStr "C") 7%nat None h) !! 7%nat <> Some [PStr "A"; PNone; PStr "B"].
Proof.
  intros h.
  assert (H1 : h !! 7%nat = Some [PStr "A"; PNone; PStr "B"]) by reflexivity.
  assert (H2 : py_in (PStr "C") [PStr "A"; PNone; PStr "B"] = false) by reflexivity.
  assert (H3 : py_in PNone [PStr "A"; PNone; PStr "B"] = true) by reflexivity.
  split; [exact H1|]. split; [exact H2|]. split; [exact H3|].
  exact (proj1 (proj2 (proj2 (proj2
    (check_list_rejection_mutates_shared_list h 7%nat _ (PStr "C") None H1 H2 H3))))).
Defined.

(** ** Polynomial degree defaults *)

Lemma ndeg_NIRCam_defaults_counterexample :
  _ndeg nircam0 = None
  /\ py_truth (quick nircam0) = false /\ ndeg nircam0 <> 7
  /\ py_truth (quick (set_quick (PBool true) nircam0)) = true
  /\ ndeg (set_quick (PBool true) nircam0) <> 9.
Proof. vm_compute. repeat split; congruence. Qed.

(** C2 (amended).  With [_ndeg] unset, [NIRCam_ext] fits degree 9 in normal
    mode and 7 in quick mode, [MIRI_ext] degree 7 in normal mode and 4 in
    quick mode, and neither default depends on [use_legendre]. *)
Theorem ndeg_default (self : instrument) :
  _ndeg self = None ->
  ndeg self =
    match cls self, py_truth (quick self) with
    | NIRCam_ext, false => 9
    | NIRCam_ext, true => 7
    | MIRI_ext, false => 7
    | MIRI_ext, true => 4
    end
  /\ forall b : bool, ndeg (set_use_legendre b self) = ndeg self.
Proof.
  intros H. unfold ndeg, quick. simpl. rewrite H.
  destruct (cls self), (use_legendre self), (_quick self) as [| [] | n | q]; simpl;
    split; try reflexivity; intros []; try reflexivity;
    destruct (py_truth _); reflexivity.
Qed.

Lemma ndeg_default_witness :
  _ndeg nircam0 = None /\ ndeg nircam0 = 9
  /\ ndeg (set_quick (PBool true) nircam0) = 7
  /\ ndeg miri0 = 4
  /\ ndeg (set_quick (PBool false) miri0) = 7.
Proof.
  split; [reflexivity|].
  split; [exact (proj1 (ndeg_default nircam0 eq_refl))|].
  split; [exact (proj1 (ndeg_default (set_quick (PBool true) nircam0) eq_refl))|].
  split; [exact (proj1 (ndeg_default miri0 eq_refl))|].
  exact (proj1 (ndeg_default (set_quick (PBool false) miri0) eq_refl)).
Defined.

(** ** Padding and cropping *)

Example pad_example :
  pad_or_cut_to_size 0 Z.add (Z.eqb 0)
    {| shape := (1%nat, 2%nat); rows := [[5; 6]] |} (ShapeSeq [2%nat; 5%nat]) 0 None
  = Ok {| shape := (2%nat, 5%nat); rows := [[0;0;0;0;0]; [0;0;5;6;0]] |}.
Proof. vm_compute. reflexivity. Qed.

Lemma py_int_half_up (d n : Z) :
  0 <= d -> 0 <= n ->
  py_int (inject_Z d / 2 + inject_Z n + (1 # 2))%Q = (d + 1) / 2 + n.
Proof.
  intros Hd Hn. unfold py_int. cbn.
  rewrite Z.quot_div_nonneg by lia.
  Z.to_euclidean_division_equations. lia.
Qed.

Lemma py_int_half_up0 (d : Z) :
  0 <= d -> py_int (inject_Z d / 2 + (1 # 2))%Q = (d + 1) / 2.
Proof.
  intros Hd. unfold py_int. cbn.
  rewrite Z.quot_div_nonneg by lia.
  Z.to_euclidean_division_equations. lia.
Qed.

Lemma py_int_whole (n : Z) :
  0 <= n -> py_int (inject_Z n + (1 # 2))%Q = n.
Proof.
  intros Hn. unfold py_int. cbn.
  rewrite Z.quot_div_nonneg by lia.
  Z.to_euclidean_division_equations. lia.
Qed.

(** The start of the centred window of [n] entries inside [n'] entries. *)
Lemma axis_bounds_grow (n n' : nat) :
  (n <= n')%nat ->
  axis_bounds n n' = (((n' - n + 1) / 2)%nat, ((n' - n + 1) / 2 + n)%nat).
Proof.
  intros H. unfold axis_bounds.
  destruct (Nat.ltb_spec n n') as [Hlt|Hge].
  - rewrite py_int_half_up, py_int_half_up0 by lia.
    f_equal.
    + rewrite <- (Nat2Z.id ((n' - n + 1) / 2)). f_equal.
      rewrite Nat2Z.inj_div, Nat2Z.inj_add, Nat2Z.inj_sub by lia. reflexivity.
    + rewrite <- (Nat2Z.id ((n' - n + 1) / 2 + n)). f_equal.
      rewrite Nat2Z.inj_add, Nat2Z.inj_div, Nat2Z.inj_add, Nat2Z.inj_sub by lia.
      reflexivity.
  - assert (n' = n) by lia. subst n'.
    rewrite Nat.ltb_irrefl.
    replace (n - n + 1)%nat with 1%nat by lia. cbn [Nat.div].
    change (py_int (0 + (1 # 2))%Q) with 0.
    rewrite py_int_whole by lia. simpl. now rewrite Nat2Z.id.
Qed.

Lemma axis_bounds_shrink (n n' : nat) :
  (n <= n')%nat ->
  axis_bounds n' n = (((n' - n + 1) / 2)%nat, ((n' - n + 1) / 2 + n)%nat).
Proof.
  intros H. unfold axis_bounds.
  destruct (Nat.ltb_spec n' n) as [Hlt|Hge]; [lia|].
  destruct (Nat.ltb_spec n n') as [Hlt|Hge'].
  - rewrite py_int_half_up, py_int_half_up0 by lia.
    f_equal.
    + rewrite <- (Nat2Z.id ((n' - n + 1) / 2)). f_equal.
      rewrite Nat2Z.inj_div, Nat2Z.inj_add, Nat2Z.inj_sub by lia. reflexivity.
    + rewrite <- (Nat2Z.id ((n' - n + 1) / 2 + n)). f_equal.
      rewrite Nat2Z.inj_add, Nat2Z.inj_div, Nat2Z.inj_add, Nat2Z.inj_sub by lia.
      reflexivity.
  - assert (n' = n) by lia. subst n'.
    replace (n - n + 1)%nat with 1%nat by lia. cbn [Nat.div].
    change (py_int (0 + (1 # 2))%Q) with 0.
    rewrite py_int_whole by lia. simpl. now rewrite Nat2Z.id.
Qed.

Lemma half_window_fits (n n' : nat) :
  (n <= n')%nat -> ((n' - n + 1) / 2 + n <= n')%nat.
Proof.
  intros H.
  assert ((n' - n + 1) / 2 <= n' - n)%nat; [|lia].
  destruct (Nat.eq_dec n' n) as [->|Hne].
  - replace (n - n + 1)%nat with 1%nat by lia. simpl. lia.
  - apply Nat.Div0.div_le_upper_bound. lia.
Qed.

Section pad_or_cut_facts.
Context {A : Type} (zero : A) (add : A -> A -> A) (is_zero : A -> bool).

Lemma array2_ok_spec (a : array2 A) :
  array2_ok a = true <->
  length (rows a) = fst (shape a)
  /\ Forall (fun r => length r = snd (shape a)) (rows a).
Proof.
  unfold array2_ok. rewrite andb_true_iff, Nat.eqb_eq, forallb_forall, Forall_forall.
  split; intros [H1 H2]; split; auto; intros r Hr.
  - apply Nat.eqb_eq, H2. now apply list_elem_of_In.
  - apply Nat.eqb_eq, H2. now apply list_elem_of_In.
Qed.

Lemma slice_middle {X} (p m s : list X) (i : nat) :
  length p = i -> slice (p ++ m ++ s) i (i + length m) = m.
Proof.
  intros <-. unfold slice.
  rewrite drop_app_length.
  replace (length p + length m - length p)%nat with (length m) by lia.
  apply take_app_length.
Qed.

(** Reading back the window that was written gives what was written. *)
Lemma window_read_back (O R : list (list A)) (n0 nx : nat) :
  length O = length R ->
  Forall (fun o => n0 <= length o)%nat O ->
  Forall (fun r => length r = nx) R ->
  map (fun r => slice r n0 (n0 + nx))
      (zip_with (fun o b => take n0 o ++ b ++ drop (n0 + nx) o) O R) = R.
Proof.
  revert R. induction O as [|o O IH]; intros [|r R] Hlen HO HR; simpl in *;
    try discriminate; [reflexivity|].
  inversion HO; inversion HR; subst. f_equal.
  - apply slice_middle. rewrite length_take. lia.
  - apply IH; auto.
Qed.

Lemma slice_replicate {X} (x : X) (n i j : nat) :
  (j <= n)%nat -> slice (replicate n x) i j = replicate (j - i) x.
Proof.
  intros H. unfold slice. rewrite drop_replicate, take_replicate.
  f_equal. lia.
Qed.

(** Growing [a] to [(ny', nx')] and reading the centred window back. *)
Lemma grow_then_window (a : array2 A) (ny' nx' m0 n0 : nat) :
  array2_ok a = true ->
  (m0 + fst (shape a) <= ny')%nat ->
  (n0 + snd (shape a) <= nx')%nat ->
  exists b,
    assign_block (zeros zero ny' nx') m0 (m0 + fst (shape a)) n0 (n0 + snd (shape a)) a
      = Ok b
    /\ shape b = (ny', nx')
    /\ array2_ok b = true
    /\ slice2 b m0 (m0 + fst (shape a)) n0 (n0 + snd (shape a)) = a.
Proof.
  destruct a as [[ny nx] R]. cbn [shape rows fst snd].
  intros Hok Hm Hn. apply array2_ok_spec in Hok. cbn [shape rows fst snd] in Hok.
  destruct Hok as [HlenR HrowsR].
  unfold assign_block. cbn [shape zeros rows fst snd].
  assert (E1 : slice_len ny' m0 (m0 + ny) = ny) by (unfold slice_len; lia).
  assert (E2 : slice_len nx' n0 (n0 + nx) = nx) by (unfold slice_len; lia).
  rewrite E1, E2, !Nat.eqb_refl. cbn [andb].
  eexists. split; [reflexivity|]. split; [reflexivity|]. split.
  { apply array2_ok_spec. cbn [shape rows fst snd]. split.
    - rewrite !length_app, length_take, length_drop, length_zip_with.
      unfold slice. rewrite length_take, length_drop, !length_replicate. lia.
    - rewrite !Forall_app. repeat split.
      + apply Forall_take, Forall_replicate, length_replicate.
      + apply Forall_forall. intros r Hr.
        apply elem_of_lookup_zip_with in Hr as (i & o & b & -> & Ho & Hb).
        assert (length b = nx).
        { eapply Forall_forall in HrowsR; [exact HrowsR|].
          eapply list_elem_of_lookup_2; eauto. }
        assert (o = replicate nx' zero).
        { unfold slice in Ho. apply lookup_take_Some in Ho as [Ho _].
          rewrite lookup_drop in Ho. now apply lookup_replicate in Ho as [-> _]. }
        subst o. rewrite !length_app, length_take, length_drop, length_replicate. lia.
      + apply Forall_drop, Forall_replicate, length_replicate. }
  unfold slice2. cbn [shape rows fst snd]. rewrite E1, E2. f_equal.
  rewrite slice_replicate by lia.
  replace (m0 + ny - m0)%nat with ny by lia.
  replace (m0 + ny)%nat with (m0 + length (zip_with
     (fun o b : list A => take n0 o ++ b ++ drop (n0 + nx) o)
     (replicate ny (replicate nx' zero)) R))%nat at 2
    by (rewrite length_zip_with, length_replicate; lia).
  rewrite slice_middle by (rewrite length_take, length_replicate; lia).
  apply window_read_back.
  - now rewrite length_replicate.
  - apply Forall_replicate. rewrite length_replicate. lia.
  - exact HrowsR.
Qed.

Lemma slice2_whole (b : array2 A) :
  array2_ok b = true ->
  slice2 b 0 (fst (shape b)) 0 (snd (shape b)) = b.
Proof.
  destruct b as [[ny nx] R]. cbn [shape fst snd]. intros Hok.
  apply array2_ok_spec in Hok. cbn [shape rows fst snd] in Hok.
  destruct Hok as [HlenR HrowsR].
  unfold slice2, slice_len. cbn [shape rows fst snd].
  rewrite !Nat.min_id, !Nat.sub_0_r. f_equal.
  unfold slice. rewrite !Nat.sub_0_r, drop_0, <- HlenR, firstn_all.
  clear HlenR. induction HrowsR as [|r R Hr _ IH]; simpl; [reflexivity|].
  rewrite IH. f_equal. rewrite drop_0, <- Hr. apply firstn_all.
Qed.
End pad_or_cut_facts.

(** C8.  For a well-formed 2-D array [a] and a target shape at least as
    large on both axes, padding [a] to the target with [fill_val=0] and no
    offsets, then resizing the result to [a.shape], gives back [a]. *)
Theorem pad_then_cut_roundtrip {A : Type} (zero : A) (add : A -> A -> A)
    (is_zero : A -> bool) (a : array2 A) (ny' nx' : nat) :
  is_zero zero = true ->
  array2_ok a = true ->
  (fst (shape a) <= ny')%nat ->
  (snd (shape a) <= nx')%nat ->
  exists b,
    pad_or_cut_to_size zero add is_zero a (ShapeSeq [ny'; nx']) zero None = Ok b
    /\ shape b = (ny', nx')
    /\ pad_or_cut_to_size zero add is_zero b
         (ShapeSeq [fst (shape a); snd (shape a)]) zero None = Ok a.
Proof.
  intros Hz Hok Hy Hx.
  pose proof (half_window_fits _ _ Hy) as Hwy.
  pose proof (half_window_fits _ _ Hx) as Hwx.
  destruct (grow_then_window zero a ny' nx' _ _ Hok Hwy Hwx)
    as (b & Hb & Hshape & Hbok & Hback).
  exists b. split; [|split; [exact Hshape|]].
  - unfold pad_or_cut_to_size. destruct (shape a) as [ny nx] eqn:Hsa.
    cbn [fst snd] in *.
    rewrite bool_decide_eq_false_2 by discriminate. cbn [andb].
    rewrite Hz. cbn [negb].
    rewrite (axis_bounds_grow nx nx' Hx), (axis_bounds_grow ny ny' Hy).
    replace (Nat.leb nx nx') with true by (symmetry; now apply Nat.leb_le).
    replace (Nat.leb ny ny') with true by (symmetry; now apply Nat.leb_le).
    cbn [andb]. rewrite Hb. reflexivity.
  - unfold pad_or_cut_to_size. rewrite Hshape. destruct (shape a) as [ny nx] eqn:Hsa.
    cbn [fst snd] in *.
    rewrite bool_decide_eq_false_2 by discriminate. cbn [andb].
    rewrite Hz. cbn [negb].
    rewrite (axis_bounds_shrink nx nx' Hx), (axis_bounds_shrink ny ny' Hy).
    destruct (Nat.leb nx' nx && Nat.leb ny' ny) eqn:Hcase.
    + (* the two shapes are equal: the array is copied into place again *)
      apply andb_true_iff in Hcase as [Hcx Hcy].
      apply Nat.leb_le in Hcx, Hcy.
      assert (nx' = nx) by lia. assert (ny' = ny) by lia. subst nx' ny'.
      replace ((nx - nx + 1) / 2)%nat with 0%nat in *
        by (replace (nx - nx + 1)%nat with 1%nat by lia; reflexivity).
      replace ((ny - ny + 1) / 2)%nat with 0%nat in *
        by (replace (ny - ny + 1)%nat with 1%nat by lia; reflexivity).
      cbn [Nat.add] in *.
      assert (Hba : b = a).
      { rewrite <- Hback. symmetry.
        pose proof (slice2_whole b Hbok) as Hw. now rewrite Hshape in Hw. }
      subst b.
      destruct (grow_then_window zero a ny nx 0 0 Hok) as (c & Hc & Hcs & Hcok & Hcb);
        rewrite ?Hsa; cbn [fst snd]; try lia.
      rewrite Hsa in Hc, Hcb. cbn [fst snd Nat.add] in Hc, Hcb.
      rewrite Hc.
      pose proof (slice2_whole c Hcok) as Hw. rewrite Hcs in Hw. cbn [fst snd] in Hw.
      rewrite Hw in Hcb. subst c. reflexivity.
    + replace (Nat.leb nx nx') with true by (symmetry; now apply Nat.leb_le).
      replace (Nat.leb ny ny') with true by (symmetry; now apply Nat.leb_le).
      cbn [andb Z.eqb negb orb]. rewrite Hback. reflexivity.
Qed.

Lemma pad_then_cut_roundtrip_witness :
  let a := {| shape := (2%nat, 3%nat); rows := [[1; 2; 3]; [4; 5; 6]] |} in
  Z.eqb 0 0 = true /\ array2_ok a = true /\ (2 <= 5)%nat /\ (3 <= 4)%nat
  /\ exists b,
       pad_or_cut_to_size 0 Z.add (Z.eqb 0) a (ShapeSeq [5%nat; 4%nat]) 0 None = Ok b
       /\ shape b = (5%nat, 4%nat)
       /\ pad_or_cut_to_size 0 Z.add (Z.eqb 0) b (ShapeSeq [2%nat; 3%nat]) 0 None = Ok a.
Proof.
  intros a.
  split; [reflexivity|]. split; [reflexivity|]. split; [lia|]. split; [lia|].
  apply (pad_then_cut_roundtrip 0 Z.add (Z.eqb 0) a 5 4); [reflexivity|reflexivity| |];
    simpl; lia.
Defined.


(** ** Polar and Cartesian coordinates *)

Lemma epsilon_pos : (0 < __epsilon)%R.
Proof. unfold __epsilon. apply Rinv_0_lt_compat, pow_lt. lra. Qed.

Lemma snap_exact (x : R) : (Rabs (snap x) < __epsilon)%R -> snap x = 0%R.
Proof.
  unfold snap. destruct (Rlt_dec (Rabs x) __epsilon) as [H|H]; [reflexivity|].
  intros H'. contradiction.
Qed.

Lemma snap_array_snapped (v : coordv) : snapped (snap_array v).
Proof.
  unfold snapped. destruct v as [x|l]; simpl.
  - constructor; [apply snap_exact|constructor].
  - induction l as [|x l IH]; simpl; constructor; [apply snap_exact|exact IH].
Qed.

Lemma snap_single_snapped (v : coordv) : np_size v = 1%nat -> snapped (snap_single v).
Proof.
  unfold snapped. destruct v as [x|[|x [|y l]]]; simpl; try discriminate; intros _.
  - constructor; [apply snap_exact|constructor].
  - destruct (Rlt_dec (Rabs x) __epsilon) as [H|H]; simpl.
    + constructor; [reflexivity|constructor].
    + constructor; [intros H'; contradiction|constructor].
Qed.

Lemma cmap2_size (f g : R -> R -> R) (a b u v : coordv) :
  cmap2 f a b = Ok u -> cmap2 g a b = Ok v -> np_size u = np_size v.
Proof.
  destruct a as [x|l1], b as [y|l2]; simpl.
  - intros [= <-] [= <-]. reflexivity.
  - intros [= <-] [= <-]. simpl. now rewrite !length_map.
  - intros [= <-] [= <-]. simpl. now rewrite !length_map.
  - destruct (Nat.eqb (length l1) (length l2)).
    + intros [= <-] [= <-]. simpl. now rewrite !length_zip_with.
    + destruct (Nat.eqb (length l1) 1).
      * intros [= <-] [= <-]. simpl. now rewrite !length_map.
      * destruct (Nat.eqb (length l2) 1); [|discriminate].
        intros [= <-] [= <-]. simpl. now rewrite !length_map.
Qed.

(** [rtheta_to_xy] snaps both of its outputs, whatever their size. *)
Lemma rtheta_to_xy_snapped (r theta x y : coordv) :
  rtheta_to_xy r theta = Ok (x, y) -> snapped x /\ snapped y.
Proof.
  unfold rtheta_to_xy, res_bind.
  destruct (cmap2 _ r theta) as [x0|] eqn:Hx; [|discriminate].
  destruct (cmap2 (fun r0 theta0 => (r0 * cos (theta0 * PI / 180))%R) r theta)
    as [y0|] eqn:Hy; [|discriminate].
  pose proof (cmap2_size _ _ _ _ _ _ Hx Hy) as Hsz.
  destruct (Nat.eqb_spec (np_size x0) 1) as [H1|H1]; intros [= <- <-].
  - split; apply snap_single_snapped; congruence.
  - split; apply snap_array_snapped.
Qed.

(** [xy_to_rtheta] snaps [r] and [theta] when they hold more than one
    value (or none). *)
Lemma xy_to_rtheta_array_snapped (x y r theta : coordv) :
  xy_to_rtheta x y = Ok (r, theta) -> np_size r <> 1%nat -> snapped r /\ snapped theta.
Proof.
  unfold xy_to_rtheta, res_bind.
  destruct (cmap2 _ x y) as [r0|] eqn:Hr; [|discriminate].
  destruct (cmap2 (fun x0 y0 => (arctan2 (- x0) y0 * 180 / PI)%R) x y)
    as [t0|] eqn:Ht; [|discriminate].
  destruct (Nat.eqb_spec (np_size r0) 1) as [H1|H1]; intros [= <- <-].
  - intros H. contradiction.
  - intros _. split; apply snap_array_snapped.
Qed.

(** C7 at a failing input.  For the single point [x = eps/2], [y = 0],
    [xy_to_rtheta] returns the radius [eps/2]: a value which is below
    machine epsilon in magnitude and is not zero, because the branch for a
    single value rebinds [x] and [y] and leaves [r] and [theta] alone. *)
Theorem xy_to_rtheta_single_value_not_snapped :
  exists theta,
    xy_to_rtheta (Scalar (__epsilon / 2)) (Scalar 0)
      = Ok (Scalar (__epsilon / 2), Scalar theta)
    /\ (Rabs (__epsilon / 2) < __epsilon)%R
    /\ (__epsilon / 2 <> 0)%R
    /\ ~ snapped (Scalar (__epsilon / 2)).
Proof.
  pose proof epsilon_pos as He.
  assert (Habs : (Rabs (__epsilon / 2) < __epsilon)%R).
  { rewrite Rabs_pos_eq by lra. lra. }
  eexists. split; [|split; [exact Habs|split; [lra|]]].
  - unfold xy_to_rtheta, res_bind. cbn [cmap2 np_size Nat.eqb].
    replace ((__epsilon / 2) ^ 2 + 0 ^ 2)%R with ((__epsilon / 2) ^ 2)%R by ring.
    rewrite sqrt_pow2 by lra. reflexivity.
  - unfold snapped. cbn [values]. intros H. inversion H as [|? ? H1 _]. subst.
    specialize (H1 Habs). lra.
Qed.

(** ** Drift decomposition *)


(** C6 at a failing input.  For the requested drift [-3] nm the guard
    [wfe_drift > 0] is false: nothing is logged, the linear model is
    returned as loaded and the three terms are all zero, although the
    decomposition of the claim gives [iec = -1] and non-zero [frill] and
    [therm]. *)
Theorem drift_opd_negative_drift_ignored (E : externals) (arg : option string) (w : world) :
  _drift_opd E (-3) arg w =
    match get_opd_info E (inst w) arg with
    | Ok lm => (Ok {| therm := 0; frill := 0; iec := 0; opd := lm |}, w)
    | Raise e => (Raise e, w)
    end
  /\ ((if Rlt_dec 2 (Rabs (-3)) then 1 else 0) * -1 = -1)%R
  /\ (sqrt (0.8 * ((-3) ^ 2 - 1 ^ 2)) * -1 < 0)%R
  /\ (sqrt (0.2 * ((-3) ^ 2 - 1 ^ 2)) * -1 < 0)%R.
Proof.
  split; [|split; [|split]];
    [| |assert (0 < sqrt (0.8 * ((-3) ^ 2 - 1 ^ 2)))%R by (apply sqrt_lt_R0; lra); lra
       |assert (0 < sqrt (0.2 * ((-3) ^ 2 - 1 ^ 2)))%R by (apply sqrt_lt_R0; lra); lra].
  - unfold _drift_opd, bind, gets, lift, ret.
    destruct (get_opd_info E (inst w) arg) as [lm|e]; [|reflexivity].
    destruct (Rlt_dec 0 (-3)) as [H|_]; [lra|]. reflexivity.
  - destruct (Rlt_dec 2 (Rabs (-3))) as [_|H]; [lra|].
    exfalso. apply H. rewrite Rabs_left by lra. lra.
Qed.

(** ** PSFs from coefficients *)

Lemma mod_keys_init_lookup (self : instrument) (k : string) :
  mod_keys_init self ->
  is_Some (_psf_coeff_mod self !! k) <-> is_Some (psf_coeff_mod_init !! k).
Proof. unfold mod_keys_init. intros H. now rewrite <- !elem_of_dom, H. Qed.

Lemma mod_keys_get (self : instrument) (k : string) :
  mod_keys_init self -> is_Some (psf_coeff_mod_init !! k) ->
  exists v, dict_get (_psf_coeff_mod self) k = Ok v.
Proof.
  intros H Hk. apply (mod_keys_init_lookup self k H) in Hk as [v Hv].
  exists v. unfold dict_get. now rewrite Hv.
Qed.

Lemma mod_keys_missing (self : instrument) (k : string) :
  mod_keys_init self -> psf_coeff_mod_init !! k = None ->
  dict_get (_psf_coeff_mod self) k = Raise (KeyError k).
Proof.
  intros H Hk. unfold dict_get.
  destruct (_psf_coeff_mod self !! k) as [v|] eqn:Hv; [|reflexivity].
  assert (Hs : is_Some (psf_coeff_mod_init !! k)).
  { apply (mod_keys_init_lookup self k H). eauto. }
  rewrite Hk in Hs. now destruct Hs.
Qed.

(** The field correction looks its aperture name up under the key
    ['si_feild_apname'], which the dictionary does not have. *)
Lemma coeff_mod_wfe_field_raises (E : externals)
    (coord_vals : option (coordv * coordv)) (coord_frame : string) (w : world) :
  mod_keys_init (inst w) ->
  _coeff_mod_wfe_field E coord_vals coord_frame w = (Raise (KeyError "si_feild_apname"), w).
Proof.
  intros Hk. unfold _coeff_mod_wfe_field, bind, gets, lift.
  destruct (mod_keys_get (inst w) "si_field" Hk) as [v1 ->]; [vm_compute; eauto|].
  destruct (mod_keys_get (inst w) "si_field_v2grid" Hk) as [v2 ->]; [vm_compute; eauto|].
  destruct (mod_keys_get (inst w) "si_field_v3grid" Hk) as [v3 ->]; [vm_compute; eauto|].
  rewrite (mod_keys_missing (inst w) "si_feild_apname" Hk) by (vm_compute; reflexivity).
  reflexivity.
Qed.

Lemma calc_psf_no_mask (E : externals) (sp : option (spectrum E)) (return_oversample : bool)
    (wfe_drift : option R) (coord_vals : option (coordv * coordv))
    (coord_frame : string) (return_hdul : bool) (w : world) (c : cube) :
  psf_coeff (inst w) = Some c ->
  image_mask (inst w) = None ->
  mod_keys_init (inst w) ->
  _calc_psf_from_coeff E sp return_oversample wfe_drift coord_vals coord_frame return_hdul w
  = (Raise (KeyError "si_feild_apname"), w).
Proof.
  intros Hc Hm Hk. unfold _calc_psf_from_coeff, bind, gets. rewrite Hc, Hm.
  rewrite (coeff_mod_wfe_field_raises E coord_vals coord_frame w Hk). reflexivity.
Qed.

(** Whatever the correction dictionary holds, a call on an instrument
    without image mask that holds a coefficient cube ends in an exception:
    if the field correction is computed, the name [nfield_mask] is read
    without having been bound. *)
Lemma calc_psf_without_mask_always_raises (E : externals) (sp : option (spectrum E))
    (return_oversample : bool) (wfe_drift : option R)
    (coord_vals : option (coordv * coordv)) (coord_frame : string) (return_hdul : bool)
    (w : world) (c : cube) :
  psf_coeff (inst w) = Some c ->
  image_mask (inst w) = None ->
  exists e,
    fst (_calc_psf_from_coeff E sp return_oversample wfe_drift coord_vals coord_frame
           return_hdul w) = Raise e
    /\ (forall r w1, _coeff_mod_wfe_field E coord_vals coord_frame w = (Ok r, w1) ->
        forall m, mod_iadd (ModNum 0) (fst r) = Ok m ->
        e = UnboundLocalError "nfield_mask").
Proof.
  intros Hc Hm. unfold _calc_psf_from_coeff, bind, gets, lift, ret. rewrite Hc, Hm.
  destruct (_coeff_mod_wfe_field E coord_vals coord_frame w) as [[r|e] w1].
  - destruct (mod_iadd (ModNum 0) (fst r)) as [m|e] eqn:Hadd; cbn [fst snd raise].
    + eexists. split; [reflexivity|]. reflexivity.
    + eexists. split; [reflexivity|]. intros r' w' [= <- <-] m Hm'. congruence.
  - eexists. split; [reflexivity|]. intros r w' [=].
Qed.

(** C1 at its failing inputs.  On an instrument without image mask that
    holds a coefficient cube, [calc_psf_from_coeff] raises [KeyError] for
    every [coord_vals], [None] included, whether or not a field model has
    been generated: nothing is logged and no PSF is computed. *)
Theorem calc_psf_without_mask_raises_KeyError (E : externals)
    (sp : option (spectrum E)) (return_oversample : bool)
    (wfe_drift : option R) (coord_vals : option (coordv * coordv))
    (coord_frame : string) (return_hdul : bool) (w : world) (c : cube) :
  psf_coeff (inst w) = Some c ->
  image_mask (inst w) = None ->
  mod_keys_init (inst w) ->
  let rw := _calc_psf_from_coeff E sp return_oversample wfe_drift coord_vals coord_frame
              return_hdul w in
  fst rw = Raise (KeyError "si_feild_apname")
  /\ log (snd rw) = log w
  /\ snd rw = w
  /\ _psf_coeff_mod (inst w) !! "si_feild_apname" = None
  /\ is_Some (_psf_coeff_mod (inst w) !! "si_field_apname").
Proof.
  intros Hc Hm Hk rw. unfold rw.
  rewrite (calc_psf_no_mask E sp return_oversample wfe_drift coord_vals coord_frame
             return_hdul w c Hc Hm Hk).
  cbn [fst snd]. repeat split.
  - destruct (_psf_coeff_mod (inst w) !! "si_feild_apname") eqn:Hl; [|reflexivity].
    assert (Hs : is_Some (psf_coeff_mod_init !! "si_feild_apname")).
    { apply (mod_keys_init_lookup (inst w) _ Hk). eauto. }
    destruct Hs as [v Hv]. vm_compute in Hv. discriminate.
  - apply (mod_keys_init_lookup (inst w) _ Hk). vm_compute. eauto.
Qed.

Lemma calc_psf_without_mask_raises_KeyError_witness :
  psf_coeff nircam_ready = Some (cube1 1)
  /\ image_mask nircam_ready = None
  /\ mod_keys_init nircam_ready
  /\ _psf_coeff_mod nircam_ready !! "si_field" = Some MNone
  /\ fst (_calc_psf_from_coeff toy_externals None true None None "tel" true
            (world_of nircam_ready))
     = Raise (KeyError "si_feild_apname").
Proof.
  assert (H1 : psf_coeff (inst (world_of nircam_ready)) = Some (cube1 1)) by reflexivity.
  assert (H2 : image_mask (inst (world_of nircam_ready)) = None) by reflexivity.
  assert (H3 : mod_keys_init (inst (world_of nircam_ready))) by reflexivity.
  split; [exact H1|]. split; [exact H2|]. split; [exact H3|]. split; [reflexivity|].
  exact (proj1 (calc_psf_without_mask_raises_KeyError toy_externals None true None None
                  "tel" true (world_of nircam_ready) (cube1 1) H1 H2 H3)).
Defined.

(** C9 at its failing inputs.  On an instrument without image mask a
    negative [wfe_drift] does not reach the assertion: the call fails with
    the [KeyError] of the field correction, not with [AssertionError]. *)
Theorem calc_psf_negative_drift_without_mask (E : externals)
    (sp : option (spectrum E)) (return_oversample : bool)
    (d : R) (coord_vals : option (coordv * coordv))
    (coord_frame : string) (return_hdul : bool) (w : world) (c : cube) :
  (d < 0)%R ->
  psf_coeff (inst w) = Some c ->
  image_mask (inst w) = None ->
  mod_keys_init (inst w) ->
  fst (_calc_psf_from_coeff E sp return_oversample (Some d) coord_vals coord_frame
         return_hdul w)
  = Raise (KeyError "si_feild_apname")
  /\ forall msg,
       fst (_calc_psf_from_coeff E sp return_oversample (Some d) coord_vals coord_frame
              return_hdul w)
       <> Raise (AssertionError msg).
Proof.
  intros _ Hc Hm Hk.
  rewrite (calc_psf_no_mask E sp return_oversample (Some d) coord_vals coord_frame
             return_hdul w c Hc Hm Hk).
  split; [reflexivity|]. intros msg. discriminate.
Qed.

Lemma calc_psf_negative_drift_without_mask_witness :
  (-1 < 0)%R
  /\ psf_coeff nircam_ready = Some (cube1 1)
  /\ image_mask nircam_ready = None
  /\ mod_keys_init nircam_ready
  /\ fst (_calc_psf_from_coeff toy_externals None true (Some (-1)%R) None "tel" true
            (world_of nircam_ready))
     = Raise (KeyError "si_feild_apname").
Proof.
  assert (H0 : (-1 < 0)%R) by lra.
  assert (H1 : psf_coeff (inst (world_of nircam_ready)) = Some (cube1 1)) by reflexivity.
  assert (H2 : image_mask (inst (world_of nircam_ready)) = None) by reflexivity.
  assert (H3 : mod_keys_init (inst (world_of nircam_ready))) by reflexivity.
  split; [exact H0|]. split; [exact H1|]. split; [exact H2|]. split; [exact H3|].
  exact (proj1 (calc_psf_negative_drift_without_mask toy_externals None true (-1)%R None
                  "tel" true (world_of nircam_ready) (cube1 1) H0 H1 H2 H3)).
Defined.

Section miri_coronagraph.
Variables (E : externals) (c : cube) (h : header) (fit lxmap : modval).

Let self := miri_fqpm_ready c h fit lxmap.

Lemma miri_fqpm_mask_lookups :
  dict_get (_psf_coeff_mod self) "si_mask" = Ok MNone
  /\ dict_get (_psf_coeff_mod self) "si_mask_xgrid" = Ok MNone
  /\ dict_get (_psf_coeff_mod self) "si_mask_ygrid" = Ok MNone
  /\ dict_get (_psf_coeff_mod self) "si_mask_apname" = Ok MNone.
Proof. repeat split; reflexivity. Qed.

(** Without coordinates the mask correction of this configuration is
    the number 0 and no field count. *)
Lemma miri_fqpm_mask_mod (coord_frame : string) (w : world) :
  inst w = self ->
  _coeff_mod_wfe_mask E None coord_frame w = (Ok (ModNum 0, None), w).
Proof.
  intros Hw. unfold _coeff_mod_wfe_mask, bind, gets, lift. rewrite Hw.
  destruct miri_fqpm_mask_lookups as (-> & -> & -> & ->).
  reflexivity.
Qed.

(** With an image mask in place the assertion is reached: a negative
    drift raises [AssertionError]. *)
Lemma miri_fqpm_negative_drift_asserts (sp : option (spectrum E))
    (return_oversample return_hdul : bool) (d : R) (coord_frame : string) :
  (d < 0)%R ->
  _calc_psf_from_coeff E sp return_oversample (Some d) None coord_frame return_hdul
    (world_of self)
  = (Raise (AssertionError "`wfe_drift should not be negative"), world_of self).
Proof.
  intros Hd. unfold _calc_psf_from_coeff, bind, gets.
  change (psf_coeff (inst (world_of self))) with (Some c).
  change (image_mask (inst (world_of self))) with (Some "FQPM1140").
  cbn [ret fst snd lift mod_iadd].
  rewrite (miri_fqpm_mask_mod coord_frame (world_of self) eq_refl).
  cbn [ret fst snd lift mod_iadd].
  destruct (Rge_dec d 0) as [H|H]; [lra|]. reflexivity.
Qed.
End miri_coronagraph.

Lemma image_map_id (f : R -> R) (im : image) :
  (forall v, f v = v) -> image_map f im = im.
Proof.
  intros Hf. destruct im as [sh rs]. unfold image_map. cbn [shape rows]. f_equal.
  rewrite <- (map_id rs) at 2. apply map_ext. intros r.
  rewrite <- (map_id r) at 2. now apply map_ext.
Qed.

Lemma cube_map_id (f : R -> R) (c : cube) :
  (forall v, f v = v) -> cube_map f c = c.
Proof.
  intros Hf. unfold cube_map. rewrite <- (map_id c) at 2.
  apply map_ext. intros im. now apply image_map_id.
Qed.

(** Adding the number 0 changes no coefficient. *)
Lemma coeff_add_zero (c : cube) (z : R) :
  z = 0%R -> coeff_add c (ModNum z) = Ok (ModCube c).
Proof.
  intros ->. unfold coeff_add. rewrite cube_map_id; [reflexivity|]. intros v. lra.
Qed.

Lemma mod_iadd_zero (m : coeff_mod) : mod_iadd m (ModNum 0) = Ok m.
Proof.
  destruct m as [x|c|cs]; cbn [mod_iadd].
  - do 2 f_equal. lra.
  - rewrite cube_map_id; [reflexivity|]. intros v. lra.
  - do 2 f_equal. rewrite <- (map_id cs) at 2. apply map_ext. intros c.
    apply cube_map_id. intros v. lra.
Qed.

Lemma coeff_mod_wfe_drift_zero (E : externals) (key : string) (w : world) :
  _coeff_mod_wfe_drift E 0 key w = (Ok (ModNum 0), w).
Proof.
  unfold _coeff_mod_wfe_drift, bind, gets.
  destruct (Req_dec_T 0 0) as [_|H]; [reflexivity|]. now contradiction H.
Qed.

(** On the coronagraph with a drift model, a call with no drift hands the
    stored cube itself to the image synthesis. *)
Lemma miri_fqpm_zero_drift_uses_stored_cube (E : externals) (c : cube) (h : header)
    (fit lxmap : modval) (sp : option (spectrum E)) (return_oversample : bool)
    (coord_frame : string) :
  let self := miri_fqpm_ready c h fit lxmap in
  _calc_psf_from_coeff E sp return_oversample None None coord_frame false (world_of self)
  = (match gen_image_from_coeff E self (CoeffCube c) (Some h) sp return_oversample with
     | Ok r => Ok (OutResult r)
     | Raise e => Raise e
     end, world_of self).
Proof.
  intros self. unfold _calc_psf_from_coeff, bind, gets.
  change (psf_coeff (inst (world_of self))) with (Some c).
  change (image_mask (inst (world_of self))) with (Some "FQPM1140").
  cbn [ret fst snd lift mod_iadd].
  rewrite (miri_fqpm_mask_mod E c h fit lxmap coord_frame (world_of self) eq_refl).
  cbn [ret fst snd lift mod_iadd].
  destruct (Rge_dec 0 0) as [_|H]; [|lra].
  cbn [ret _wfe_drift_key np_unique length Nat.eqb list_get lookup list_lookup lift].
  rewrite coeff_mod_wfe_drift_zero.
  cbn [mod_iadd lift].
  rewrite coeff_add_zero by lra.
  cbn [Nat.ltb Nat.leb coeff_whole lift].
  change (psf_coeff_header (inst (world_of self))) with (Some h).
  change (inst (world_of self)) with self.
  destruct (gen_image_from_coeff E self (CoeffCube c) (Some h) sp return_oversample);
    reflexivity.
Qed.

(** C4.  [wfe_drift=0] and [wfe_drift=None] give the same result in the
    same world, whatever the configuration; the drift correction for a
    zero drift is the number 0 whether or not a drift model is stored;
    adding it changes no coefficient; and on a configuration where the call
    goes through, the cube handed to the image synthesis is the stored
    cube itself. *)
Theorem calc_psf_zero_drift_is_no_drift (E : externals) :
  (forall (sp : option (spectrum E)) (return_oversample : bool)
          (coord_vals : option (coordv * coordv)) (coord_frame : string)
          (return_hdul : bool) (w : world),
     _calc_psf_from_coeff E sp return_oversample (Some 0%R) coord_vals coord_frame
       return_hdul w
     = _calc_psf_from_coeff E sp return_oversample None coord_vals coord_frame
         return_hdul w)
  /\ (forall (key : string) (w : world),
        _coeff_mod_wfe_drift E 0 key w = (Ok (ModNum 0), w))
  /\ (forall m : coeff_mod, mod_iadd m (ModNum 0) = Ok m)
  /\ (forall c : cube, coeff_add c (ModNum 0) = Ok (ModCube c))
  /\ (forall (c : cube) (h : header) (fit lxmap : modval) (sp : option (spectrum E))
             (return_oversample : bool) (coord_frame : string),
        let self := miri_fqpm_ready c h fit lxmap in
        _calc_psf_from_coeff E sp return_oversample (Some 0%R) None coord_frame false
          (world_of self)
        = (match gen_image_from_coeff E self (CoeffCube c) (Some h) sp return_oversample with
           | Ok r => Ok (OutResult r)
           | Raise e => Raise e
           end, world_of self)).
Proof.
  split; [reflexivity|].
  split; [apply coeff_mod_wfe_drift_zero|].
  split; [apply mod_iadd_zero|].
  split; [intros c; now apply coeff_add_zero|].
  intros c h fit lxmap sp ro cf.
  apply (miri_fqpm_zero_drift_uses_stored_cube E c h fit lxmap sp ro cf).
Qed.

(** ** The field-of-view cap of the drift sweep *)

Section sweep_frames.
Context {A B : Type}.

Lemma quiet_ret (a : A) : quiet_m (ret a : M world A).
Proof. intros w. split; reflexivity. Qed.

Lemma quiet_raise (e : exn) : quiet_m (raise e : M world A).
Proof. intros w. split; reflexivity. Qed.

Lemma quiet_lift (r : res A) : quiet_m (lift r : M world A).
Proof. intros w. split; reflexivity. Qed.

Lemma quiet_gets (f : world -> A) : quiet_m (gets f).
Proof. intros w. split; reflexivity. Qed.

Lemma quiet_bind (m : M world A) (k : A -> M world B) :
  quiet_m m -> (forall a, quiet_m (k a)) -> quiet_m (bind m k).
Proof.
  intros Hm Hk w. unfold bind. specialize (Hm w).
  destruct (m w) as [[a|e] w1]; cbn [snd] in *; [|exact Hm].
  destruct Hm as [Hf Hs]. destruct (Hk a w1) as [Hf' Hs']. split; congruence.
Qed.

Lemma quiet_sweep (m : M world A) : quiet_m m -> sweep_m m.
Proof.
  intros Hm w. destruct (Hm w) as [Hf Hs]. split; [exact Hf|].
  exists []. rewrite app_nil_r. split; [exact Hs|constructor].
Qed.

Lemma sweep_bind (m : M world A) (k : A -> M world B) :
  sweep_m m -> (forall a, sweep_m (k a)) -> sweep_m (bind m k).
Proof.
  intros Hm Hk w. unfold bind. specialize (Hm w).
  destruct (m w) as [[a|e] w1]; cbn [snd] in *; [|exact Hm].
  destruct Hm as [Hf (new & Hs & Hall)].
  destruct (Hk a w1) as [Hf' (new' & Hs' & Hall')].
  split; [congruence|]. exists (new ++ new'). split.
  - rewrite Hs', Hs. now rewrite app_assoc.
  - apply Forall_app. split; [exact Hall|]. now rewrite <- Hf.
Qed.
End sweep_frames.

Lemma quiet_emit (lvl : log_level) (msg : string) : quiet_m (emit lvl msg).
Proof. intros w. split; reflexivity. Qed.

Lemma quiet_write_file (path : string) (content : list modval) :
  quiet_m (write_file path content).
Proof. intros w. split; reflexivity. Qed.

Lemma quiet_upd_inst (f : instrument -> instrument) :
  (forall self, fov_pix (f self) = fov_pix self) -> quiet_m (upd_inst f).
Proof. intros Hf w. split; [apply Hf|reflexivity]. Qed.

Lemma quiet_set_mod (key : string) (v : modval) : quiet_m (set_mod key v).
Proof. apply quiet_upd_inst. reflexivity. Qed.

Lemma quiet_set_option (key : string) (v : optval) : quiet_m (set_option key v).
Proof. apply quiet_upd_inst. reflexivity. Qed.

Lemma quiet_for_each {X} (xs : list X) (body : X -> M world unit) :
  (forall x, quiet_m (body x)) -> quiet_m (for_each xs body).
Proof.
  intros Hb. induction xs as [|x xs IH]; cbn [for_each].
  - apply quiet_ret.
  - apply quiet_bind; [apply Hb|intros _; exact IH].
Qed.

Lemma sweep_map_M {X Y} (f : X -> M world Y) (xs : list X) :
  (forall x, sweep_m (f x)) -> sweep_m (map_M f xs).
Proof.
  intros Hf. induction xs as [|x xs IH]; cbn [map_M].
  - apply quiet_sweep, quiet_ret.
  - apply sweep_bind; [apply Hf|]. intros y.
    apply sweep_bind; [exact IH|]. intros ys. apply quiet_sweep, quiet_ret.
Qed.

(** A simulation sees the [fov_pix] of the moment and leaves it alone. *)
Lemma sweep_gen_psf_coeff_inner (E : externals) (d : R) : sweep_m (_gen_psf_coeff E d).
Proof.
  intros w. unfold _gen_psf_coeff. cbn [snd inst sims]. split; [reflexivity|].
  exists [(inst w, d)]. split; [reflexivity|]. repeat constructor.
Qed.

Lemma sweep_gen_psf_coeff (E : externals) (d : R) : sweep_m (gen_psf_coeff E d).
Proof.
  unfold gen_psf_coeff. apply sweep_bind; [apply quiet_sweep, quiet_gets|].
  intros self. destruct (cls self).
  - apply sweep_bind; [apply quiet_sweep, quiet_set_option|]. intros _.
    apply sweep_bind; [apply sweep_gen_psf_coeff_inner|]. intros res.
    apply sweep_bind; [apply quiet_sweep, quiet_set_option|]. intros _.
    apply quiet_sweep, quiet_ret.
  - apply sweep_gen_psf_coeff_inner.
Qed.

Section capped_runs.
Context {A B : Type} (cap orig : Q).

(** A sweep step under the cap, then the rest of a capped run. *)
Lemma capped_run_step (m : M world A) (k : A -> M world B) (w : world) :
  sweep_m m ->
  fov_pix (inst w) = cap ->
  (forall a w1, fov_pix (inst w1) = cap -> capped_run cap orig w1 (k a w1)) ->
  capped_run cap orig w (bind m k w).
Proof.
  intros Hm Hw Hk. unfold bind. specialize (Hm w).
  destruct (m w) as [[a|e] w1]; cbn [snd] in Hm; destruct Hm as [Hf (new & Hs & Hall)].
  - assert (Hw1 : fov_pix (inst w1) = cap) by congruence.
    destruct (Hk a w1 Hw1) as [(new' & Hs' & Hall') Hend].
    split; [|exact Hend].
    exists (new ++ new'). split.
    + rewrite Hs', Hs. now rewrite app_assoc.
    + apply Forall_app. split; [now rewrite <- Hw|exact Hall'].
  - split; cbn [fst snd].
    + exists new. split; [exact Hs|now rewrite <- Hw].
    + right. split; [congruence|eauto].
Qed.

(** Putting [fov_pix] back, then only quiet steps. *)
Lemma capped_run_restore (post : M world B) (w : world) :
  quiet_m post ->
  capped_run cap orig w (bind (upd_inst (set_fov_pix orig)) (fun _ => post) w).
Proof.
  intros Hp. unfold bind, upd_inst, modify.
  match goal with |- capped_run _ _ _ (post ?w1) => destruct (Hp w1) as [Hf Hs] end.
  split.
  - exists []. rewrite app_nil_r. split; [exact Hs|constructor].
  - left. exact Hf.
Qed.

(** A capped run followed by quiet steps is a capped run. *)
Lemma capped_run_then_quiet (m : M world A) (k : A -> M world B) (w : world) :
  capped_run cap orig w (m w) ->
  (forall a, quiet_m (k a)) ->
  capped_run cap orig w (bind m k w).
Proof.
  intros [(new & Hs & Hall) Hend] Hk. unfold bind.
  destruct (m w) as [[a|e] w1]; cbn [fst snd] in *.
  - destruct (Hk a w1) as [Hf Hs']. split.
    + exists new. split; [congruence|exact Hall].
    + destruct Hend as [Ho|[Hc [e He]]]; [|discriminate]. left. congruence.
  - split; [eauto|]. cbn [fst snd].
    destruct Hend as [Ho|[Hc _]]; [now left|right; eauto].
Qed.
End capped_runs.

Ltac quiet_steps :=
  repeat (intros;
    first
      [ apply quiet_ret | apply quiet_raise | apply quiet_lift | apply quiet_gets
      | apply quiet_emit | apply quiet_write_file | apply quiet_set_mod
      | apply quiet_set_option | apply quiet_bind | apply quiet_for_each
      | match goal with
        | |- quiet_m (if ?b then _ else _) => destruct b
        | |- quiet_m (match ?x with _ => _ end) => destruct x
        end ]).

Lemma capped_run_same_sims {A} (cap orig : Q) (w w1 : world) (rw : res A * world) :
  sims w1 = sims w -> capped_run cap orig w1 rw -> capped_run cap orig w rw.
Proof. unfold capped_run. now intros ->. Qed.

Lemma gen_wfedrift_inner_capped (E : externals) (force save : bool) (wfe_list : list R)
    (return_results return_raw : bool) (w : world) :
  capped_run
    (capped_fov_pix (fov_cap (_fovmax_wfedrift (inst w)) (inst w)) (inst w))
    (fov_pix (inst w)) w
    (_gen_wfedrift_coeff E force save wfe_list return_results return_raw w).
Proof.
  unfold _gen_wfedrift_coeff.
  set (cap := capped_fov_pix (fov_cap (_fovmax_wfedrift (inst w)) (inst w)) (inst w)).
  set (orig := fov_pix (inst w)).
  unfold bind at 1. cbn [gets]. unfold bind at 1. cbn [upd_inst modify].
  fold cap. fold orig.
  match goal with |- capped_run _ _ _ (_ ?w1) =>
    apply (capped_run_same_sims cap orig w w1); [reflexivity|]
  end.
  apply capped_run_step; [apply quiet_sweep, quiet_gets|reflexivity|].
  intros self w1 Hw1.
  apply capped_run_step; [apply quiet_sweep, quiet_gets|exact Hw1|].
  intros on_disk w2 Hw2.
  destruct (if force then None else on_disk) as [out|].
  - apply capped_run_restore. quiet_steps.
  - apply capped_run_step; [apply quiet_sweep, quiet_emit|exact Hw2|].
    intros _ w3 Hw3.
    apply capped_run_step; [apply quiet_sweep; quiet_steps|exact Hw3|].
    intros _ w4 Hw4.
    apply capped_run_step;
      [apply sweep_map_M; intros d; apply sweep_gen_psf_coeff|exact Hw4|].
    intros cf_wfe w5 Hw5.
    apply capped_run_step; [apply quiet_sweep, quiet_gets|exact Hw5|].
    intros self' w6 Hw6.
    apply capped_run_then_quiet; [|quiet_steps].
    destruct (is_coron self').
    + apply capped_run_step;
        [apply quiet_sweep, quiet_upd_inst; reflexivity|exact Hw6|].
      intros _ w7 Hw7.
      apply capped_run_step;
        [apply sweep_map_M; intros d; apply sweep_gen_psf_coeff|exact Hw7|].
      intros cf_wfe_off w8 Hw8.
      apply capped_run_step;
        [apply quiet_sweep, quiet_upd_inst; reflexivity|exact Hw8|].
      intros _ w9 Hw9.
      apply capped_run_restore. quiet_steps.
    + apply capped_run_restore. quiet_steps.
Qed.

Lemma gen_wfedrift_capped (E : externals) (force save : bool) (wfe_list : list R)
    (return_results return_raw : bool) (w : world) :
  capped_run
    (capped_fov_pix (fov_cap (_fovmax_wfedrift (inst w)) (inst w)) (inst w))
    (fov_pix (inst w)) w
    (gen_wfedrift_coeff E force save wfe_list return_results return_raw w).
Proof.
  unfold gen_wfedrift_coeff. unfold bind at 1. cbn [gets].
  destruct (cls (inst w)) eqn:Hcls; [|apply gen_wfedrift_inner_capped].
  destruct (psf_coeff_header (inst w)) as [h|].
  - unfold bind, set_option, upd_inst, modify.
    match goal with |- context [_gen_wfedrift_coeff _ _ _ _ _ _ ?w1] =>
      pose proof (gen_wfedrift_inner_capped E force save wfe_list return_results
                    return_raw w1) as H;
      destruct (_gen_wfedrift_coeff E force save wfe_list return_results return_raw w1)
        as [r w2]
    end.
    cbn [fst snd inst sims] in *. exact H.
  - split.
    + exists []. rewrite app_nil_r. split; [reflexivity|constructor].
    + left. reflexivity.
Qed.

(** *** Exceptions of the simulations *)

Section fail_stop_frames.
Context (E : externals) {A B : Type}.

Lemma fs_no_sims (m : M world A) :
  (forall w, sims (snd (m w)) = sims w) -> fail_stop E m.
Proof.
  intros H w. exists []. rewrite app_nil_r. split; [apply H|].
  intros s e Hs. inversion Hs.
Qed.

Lemma fs_quiet (m : M world A) : quiet_m m -> fail_stop E m.
Proof. intros H. apply fs_no_sims. intros w. apply (H w). Qed.

Lemma fs_bind (m : M world A) (k : A -> M world B) :
  fail_stop E m -> (forall a, fail_stop E (k a)) -> fail_stop E (bind m k).
Proof.
  intros Hm Hk w. unfold bind. destruct (Hm w) as (new & Hs & Hfail).
  destruct (m w) as [[a|e] w1]; cbn [fst snd] in *.
  - destruct (Hk a w1) as (new' & Hs' & Hfail').
    exists (new ++ new'). split; [rewrite Hs', Hs; now rewrite app_assoc|].
    intros s e Hin Hsim. apply elem_of_app in Hin as [Hin|Hin].
    + destruct (Hfail s e Hin Hsim) as [Hr _]. discriminate.
    + exact (Hfail' s e Hin Hsim).
  - exists new. split; [exact Hs|].
    intros s e' Hin Hsim. destruct (Hfail s e' Hin Hsim) as [[= ->] Hfov].
    split; [reflexivity|exact Hfov].
Qed.
End fail_stop_frames.

Lemma fs_upd_inst (E : externals) (f : instrument -> instrument) :
  fail_stop E (upd_inst f).
Proof. apply fs_no_sims. reflexivity. Qed.

Lemma fs_for_each (E : externals) {X} (xs : list X) (body : X -> M world unit) :
  (forall x, fail_stop E (body x)) -> fail_stop E (for_each xs body).
Proof.
  intros Hb. induction xs as [|x xs IH]; cbn [for_each].
  - apply fs_quiet, quiet_ret.
  - apply fs_bind; [apply Hb|intros _; exact IH].
Qed.

Lemma fs_map_M (E : externals) {X Y} (f : X -> M world Y) (xs : list X) :
  (forall x, fail_stop E (f x)) -> fail_stop E (map_M f xs).
Proof.
  intros Hf. induction xs as [|x xs IH]; cbn [map_M].
  - apply fs_quiet, quiet_ret.
  - apply fs_bind; [apply Hf|]. intros y.
    apply fs_bind; [exact IH|]. intros ys. apply fs_quiet, quiet_ret.
Qed.

(** A simulation that raises ends [gen_psf_coeff] with its exception. *)
Lemma fs_gen_psf_coeff_inner (E : externals) (d : R) : fail_stop E (_gen_psf_coeff E d).
Proof.
  intros w. unfold _gen_psf_coeff. cbn [fst snd inst sims].
  exists [(inst w, d)]. split; [reflexivity|].
  intros s e Hs Hsim. apply list_elem_of_singleton in Hs. subst s.
  cbn [fst snd] in Hsim. split; [exact Hsim|reflexivity].
Qed.

Lemma fs_gen_psf_coeff (E : externals) (d : R) : fail_stop E (gen_psf_coeff E d).
Proof.
  unfold gen_psf_coeff. apply fs_bind; [apply fs_quiet, quiet_gets|].
  intros self. destruct (cls self).
  - apply fs_bind; [apply fs_quiet, quiet_set_option|]. intros _.
    apply fs_bind; [apply fs_gen_psf_coeff_inner|]. intros res.
    apply fs_bind; [apply fs_quiet, quiet_set_option|]. intros _.
    apply fs_quiet, quiet_ret.
  - apply fs_gen_psf_coeff_inner.
Qed.

Ltac fs_steps :=
  repeat (intros;
    first
      [ apply fs_gen_psf_coeff | apply fs_upd_inst
      | apply fs_bind | apply fs_for_each | apply fs_map_M
      | match goal with
        | |- fail_stop _ (if ?b then _ else _) => destruct b
        | |- fail_stop _ (match ?x with _ => _ end) => destruct x
        end
      | apply fs_quiet; quiet_steps; fail ]).

Lemma fs_gen_wfedrift_inner (E : externals) (force save : bool) (wfe_list : list R)
    (return_results return_raw : bool) :
  fail_stop E (_gen_wfedrift_coeff E force save wfe_list return_results return_raw).
Proof. unfold _gen_wfedrift_coeff. fs_steps. Qed.

(** The [finally] clause of the [NIRCam_ext] method puts an option back
    and lets the exception through. *)
Lemma fs_gen_wfedrift (E : externals) (force save : bool) (wfe_list : list R)
    (return_results return_raw : bool) :
  fail_stop E (gen_wfedrift_coeff E force save wfe_list return_results return_raw).
Proof.
  unfold gen_wfedrift_coeff. apply fs_bind; [apply fs_quiet, quiet_gets|].
  intros self. destruct (cls self); [|apply fs_gen_wfedrift_inner].
  destruct (psf_coeff_header self) as [h|]; [|fs_steps].
  apply fs_bind; [apply fs_quiet, quiet_set_option|]. intros _ w.
  destruct (fs_gen_wfedrift_inner E force save wfe_list return_results return_raw w)
    as (new & Hs & Hfail).
  destruct (_gen_wfedrift_coeff E force save wfe_list return_results return_raw w)
    as [r w'].
  cbn [fst snd] in *. exists new. split; [exact Hs|exact Hfail].
Qed.

Lemma gen_wfedrift_coeff_fov_pix_counterexample :
  let w := world_of miri_fqpm_wide in
  let rw := gen_wfedrift_coeff failing_externals false true wfe_list_default false false w in
  fst rw = Raise (RuntimeError "Returned None values. Issue with WebbPSF??")
  /\ fov_pix (inst w) = 400%Q
  /\ fov_pix (inst (snd rw)) = 256%Q
  /\ fov_pix (inst (snd rw)) <> fov_pix (inst w).
Proof.
  vm_compute. repeat split; try reflexivity. discriminate.
Qed.

(** C5 (amended).  During [gen_wfedrift_coeff] every coefficient
    regeneration sees [fov_pix] capped (to [fov_max], or to [fov_max + 1]
    when the original [fov_pix] is odd, where [fov_max] is 256 and is
    halved when [oversample] exceeds 4), and [fov_pix] has its pre-call
    value again whenever the call returns.  When a coefficient regeneration
    raises, the call ends with that exception and [fov_pix] keeps the
    capped value; on no path does [fov_pix] end at any other value than
    the pre-call one or, with an exception, the capped one. *)
Theorem gen_wfedrift_coeff_fov_pix (E : externals) (force save : bool)
    (wfe_list : list R) (return_results return_raw : bool) (w : world) :
  let rw := gen_wfedrift_coeff E force save wfe_list return_results return_raw w in
  let fov_max := fov_cap (_fovmax_wfedrift (inst w)) (inst w) in
  let cap := capped_fov_pix fov_max (inst w) in
  (exists new, sims (snd rw) = sims w ++ new
               /\ Forall (fun s => fov_pix (fst s) = cap) new
               /\ forall s e, s ∈ new -> sim_psf_coeff E (fst s) (snd s) = Raise e ->
                    fst rw = Raise e /\ fov_pix (inst (snd rw)) = cap)
  /\ (forall v, fst rw = Ok v -> fov_pix (inst (snd rw)) = fov_pix (inst w))
  /\ (fov_pix (inst (snd rw)) = fov_pix (inst w)
      \/ (fov_pix (inst (snd rw)) = cap /\ exists e, fst rw = Raise e))
  /\ (_fovmax_wfedrift (inst w) = 256 ->
      fov_max = if Z.leb (oversample (inst w)) 4 then 256%Q else 128%Q)
  /\ cap = (if negb (Qle_bool (fov_pix (inst w)) fov_max)
            then (if Q_even (fov_pix (inst w)) then fov_max else Qred (fov_max + 1))
            else fov_pix (inst w)).
Proof.
  intros rw fov_max cap.
  destruct (gen_wfedrift_capped E force save wfe_list return_results return_raw w)
    as [(new & Hsims & Hall) Hend].
  destruct (fs_gen_wfedrift E force save wfe_list return_results return_raw w)
    as (new' & Hsims' & Hfail).
  fold rw fov_max cap in Hsims, Hall, Hend, Hsims', Hfail.
  assert (Hnew : new' = new).
  { rewrite Hsims in Hsims'. now apply app_inv_head in Hsims'. }
  subst new'.
  split; [|split; [|split; [exact Hend|split]]].
  - exists new. split; [exact Hsims|]. split; [exact Hall|].
    intros s e Hin Hsim. destruct (Hfail s e Hin Hsim) as [Hr Hfov].
    split; [exact Hr|]. rewrite Hfov.
    rewrite Forall_forall in Hall. exact (Hall s Hin).
  - intros v Hv. destruct Hend as [Ho|[_ [e He]]]; [exact Ho|congruence].
  - intros H256. unfold fov_max, fov_cap. rewrite H256.
    destruct (Z.leb (oversample (inst w)) 4); reflexivity.
  - reflexivity.
Qed.

Lemma gen_wfedrift_coeff_fov_pix_witness :
  let w := world_of miri_fqpm_wide in
  let rw := gen_wfedrift_coeff toy_externals true false wfe_list_default false false w in
  let rw' := gen_wfedrift_coeff failing_externals true false wfe_list_default false false w in
  fst rw = Ok DriftNone
  /\ fov_pix (inst w) = 400%Q
  /\ fov_pix (inst (snd rw)) = 400%Q
  /\ (exists new, sims (snd rw) = new /\ length new = 14%nat
                  /\ Forall (fun s => fov_pix (fst s) = 256%Q) new)
  /\ fst rw' = Raise (RuntimeError "Returned None values. Issue with WebbPSF??")
  /\ fov_pix (inst (snd rw')) = 256%Q.
Proof.
  intros w rw rw'.
  assert (Hok : fst rw = Ok DriftNone) by (vm_compute; reflexivity).
  destruct (gen_wfedrift_coeff_fov_pix toy_externals true false wfe_list_default
              false false w) as ((new & Hs & Hall & _) & Hret & _).
  split; [exact Hok|]. split; [reflexivity|]. split; [exact (Hret _ Hok)|].
  split.
  { exists new. split; [exact Hs|]. split; [|exact Hall].
    change (sims (snd rw) = new) in Hs. rewrite <- Hs. vm_compute. reflexivity. }
  destruct (gen_wfedrift_coeff_fov_pix failing_externals true false wfe_list_default
              false false w) as ((new' & Hs' & _ & Hfail) & _).
  change (sims (snd rw') = new') in Hs'.
  assert (Hsim : sims (snd rw') = [(set_fov_pix 256 miri_fqpm_wide, 0%R)])
    by (vm_compute; reflexivity).
  rewrite Hsim in Hs'. subst new'.
  destruct (Hfail (set_fov_pix 256 miri_fqpm_wide, 0%R)
              (RuntimeError "Returned None values. Issue with WebbPSF??"))
    as [Hr Hfov]; [left|reflexivity|].
  split; [exact Hr|exact Hfov].
Defined.

(** ** Residuals of the correction models *)








(** For the [NIRCam] bar masks the last sampled position is 8 arcsec
    along the bar. *)
Lemma mask_positions_bar_last (self : instrument) (grid : mask_grid) (mask : string)
    (c : ascii) :
  mask_positions self = Ok grid ->
  cls self = NIRCam_ext -> image_mask self = Some mask ->
  str_last mask = Some c -> Ascii.eqb c "R" = false ->
  last (xy_list grid) = Some (8%Q, 0%Q)
  /\ xy_list grid !! 94%nat = Some (0%Q, 0%Q).
Proof.
  unfold mask_positions. intros Hg Hc Hm Hl Hr. rewrite Hm, Hc, Hl, Hr in Hg.
  destruct (str_contains "SW" mask); injection Hg as <-; vm_compute; split; reflexivity.
Qed.













Lemma cube1_not_zero (x : R) : x <> 0%R -> ~ cube_all_zero (cube1 x).
Proof.
  intros Hx Hz. unfold cube_all_zero, cube1 in Hz.
  inversion Hz as [|? ? H1 _]; subst. cbn [rows] in H1.
  inversion H1 as [|? ? H2 _]; subst. inversion H2; subst. contradiction.
Qed.


(** For a bar mask the reference cube is the one simulated 8 arcsec along
    the bar, the last position of the grid, so that the residual at the
    zero offset is not zero (the comment beside [coeff0 = cf_all[-1]] says
    that (0,0) is in final position). *)
Lemma bar_mask_zero_offset_residual :
  exists resid coeff0 grid x,
    fst (_gen_wfemask_coeff_resid toy_externals true false false
           (world_of nircam_lwb_ready))
    = Ok (MaskResid resid coeff0 grid)
    /\ last (xy_list grid) = Some (8%Q, 0%Q)
    /\ xy_list grid !! 94%nat = Some (0%Q, 0%Q)
    /\ ind_sgd grid !! 94%nat = Some false
    /\ resid !! 94%nat = Some (cube1 x)
    /\ x <> 0%R /\ ~ cube_all_zero (cube1 x).
Proof.
  set (run := fst (_gen_wfemask_coeff_resid toy_externals true false false
                     (world_of nircam_lwb_ready))).
  vm_compute in run.
  match eval unfold run in run with
  | Ok (MaskResid ?resid ?coeff0 ?grid) => exists resid, coeff0, grid
  end.
  eexists. split; [reflexivity|]. split; [reflexivity|]. split; [reflexivity|].
  split; [reflexivity|]. split; [reflexivity|].
  split; [|apply cube1_not_zero]; lra.
Qed.



(* ==================================================================== *)
(** * Further properties of the code *)
(* ==================================================================== *)

(** ** Rotations *)

(** The polar decomposition behind [np.arctan2]: a point is its radius
    times the sine and cosine of its angle. *)
Lemma arctan2_polar (u v : R) :
  (sqrt (u ^ 2 + v ^ 2) * sin (arctan2 u v) = u
   /\ sqrt (u ^ 2 + v ^ 2) * cos (arctan2 u v) = v)%R.
Proof.
  unfold arctan2.
  assert (Hs : forall t, (0 < sqrt (1 + t²))%R).
  { intros t. apply sqrt_lt_R0. unfold Rsqr. nra. }
  assert (Hr : (v <> 0 -> sqrt (u ^ 2 + v ^ 2) = Rabs v * sqrt (1 + (u / v)²))%R).
  { intros Hv. rewrite <- sqrt_Rsqr_abs, <- sqrt_mult_alt by apply Rle_0_sqr.
    f_equal. unfold Rsqr. field. exact Hv. }
  destruct (Rlt_dec 0 v) as [Hv|Hv].
  - rewrite sin_atan, cos_atan, Hr, Rabs_pos_eq by lra.
    specialize (Hs (u / v)%R). split; field; lra.
  - destruct (Rlt_dec v 0) as [Hv'|Hv'].
    + assert (Hpm : (sin (atan (u / v) + PI) = - sin (atan (u / v))
                     /\ cos (atan (u / v) + PI) = - cos (atan (u / v))
                     /\ sin (atan (u / v) - PI) = - sin (atan (u / v))
                     /\ cos (atan (u / v) - PI) = - cos (atan (u / v)))%R).
      { repeat split.
        - rewrite sin_plus, sin_PI, cos_PI. ring.
        - rewrite cos_plus, sin_PI, cos_PI. ring.
        - rewrite sin_minus, sin_PI, cos_PI. ring.
        - rewrite cos_minus, sin_PI, cos_PI. ring. }
      destruct Hpm as (H1 & H2 & H3 & H4).
      specialize (Hs (u / v)%R).
      destruct (Rle_dec 0 u); rewrite ?H1, ?H2, ?H3, ?H4, sin_atan, cos_atan, Hr,
        Rabs_left by lra; split; field; lra.
    + assert (v = 0%R) by lra. subst v.
      replace (u ^ 2 + 0 ^ 2)%R with (u ^ 2)%R by ring.
      destruct (Rlt_dec 0 u) as [Hu|Hu].
      * rewrite sqrt_pow2, sin_PI2, cos_PI2 by lra. split; ring.
      * destruct (Rlt_dec u 0) as [Hu'|Hu'].
        -- replace (u ^ 2)%R with ((- u) ^ 2)%R by ring.
           rewrite sqrt_pow2 by lra.
           rewrite sin_neg, cos_neg, sin_PI2, cos_PI2. split; ring.
        -- assert (u = 0%R) by lra. subst u.
           replace (0 ^ 2)%R with 0%R by ring. rewrite sqrt_0. split; ring.
Qed.

(** The angle of [np.arctan2] lies in the half-open turn [(-pi, pi]]. *)
Lemma arctan2_range (u v : R) : (- PI < arctan2 u v <= PI)%R.
Proof.
  unfold arctan2. pose proof PI_RGT_0 as Hpi.
  destruct (Rlt_dec 0 v) as [Hv|Hv].
  - pose proof (atan_bound (u / v)). lra.
  - destruct (Rlt_dec v 0) as [Hv'|Hv'].
    + pose proof (atan_bound (u / v)) as Hb.
      destruct (Rle_dec 0 u) as [Hu|Hu].
      * assert (atan (u / v) <= 0)%R.
        { rewrite <- atan_0.
          destruct (Req_dec u 0) as [->|Hne].
          - unfold Rdiv. rewrite Rmult_0_l. lra.
          - left. apply atan_increasing. apply Rmult_pos_neg; [lra|].
            now apply Rinv_lt_0_compat. }
        lra.
      * assert (0 < atan (u / v))%R.
        { rewrite <- atan_0. apply atan_increasing.
          replace (u / v)%R with ((- u) * / (- v))%R by (field; lra).
          apply Rmult_lt_0_compat; [lra|]. apply Rinv_0_lt_compat. lra. }
        lra.
    + destruct (Rlt_dec 0 u); [lra|]. destruct (Rlt_dec u 0); lra.
Qed.

Lemma deg_rad (t a : R) : ((t * 180 / PI + a) * PI / 180 = t + a * PI / 180)%R.
Proof. pose proof PI_RGT_0. field. lra. Qed.

Lemma xy_rot_scalar (x y ang : R) :
  let a := (ang * PI / 180)%R in
  xy_rot (Scalar x) (Scalar y) (Scalar ang)
  = Ok (Scalar (snap (x * cos a - y * sin a)), Scalar (snap (x * sin a + y * cos a))).
Proof.
  intros a. unfold xy_rot, xy_to_rtheta, rtheta_to_xy, res_bind.
  cbn [cmap2 np_size Nat.eqb snap_single].
  rewrite deg_rad. fold a.
  destruct (arctan2_polar (- x) y) as [Hs Hc].
  replace ((- x) ^ 2 + y ^ 2)%R with (x ^ 2 + y ^ 2)%R in Hs, Hc by ring.
  rewrite sin_plus, cos_plus.
  set (r := sqrt (x ^ 2 + y ^ 2)) in *. set (t := arctan2 (- x) y) in *.
  replace (- r * (sin t * cos a + cos t * sin a))%R
    with (- (r * sin t) * cos a - (r * cos t) * sin a)%R by ring.
  replace (r * (cos t * cos a - sin t * sin a))%R
    with ((r * cos t) * cos a - (r * sin t) * sin a)%R by ring.
  rewrite Hs, Hc. do 3 f_equal; f_equal; ring.
Qed.

Lemma cmap2_values (f : R -> R -> R) (P : R -> Prop) (a b u : coordv) :
  (forall x y, P (f x y)) -> cmap2 f a b = Ok u -> Forall P (values u).
Proof.
  intros Hf. destruct a as [x|l1], b as [y|l2]; cbn [cmap2].
  - intros [= <-]. repeat constructor. apply Hf.
  - intros [= <-]. cbn [values]. apply Forall_forall. intros v Hv.
    apply list_elem_of_fmap in Hv as (z & -> & _). apply Hf.
  - intros [= <-]. cbn [values]. apply Forall_forall. intros v Hv.
    apply list_elem_of_fmap in Hv as (z & -> & _). apply Hf.
  - destruct (Nat.eqb (length l1) (length l2)).
    + intros [= <-]. cbn [values]. apply Forall_forall. intros v Hv.
      apply elem_of_lookup_zip_with in Hv as (i & p & q & -> & _). apply Hf.
    + destruct (Nat.eqb (length l1) 1).
      * intros [= <-]. cbn [values]. apply Forall_forall. intros v Hv.
        apply list_elem_of_fmap in Hv as (z & -> & _). apply Hf.
      * destruct (Nat.eqb (length l2) 1); [|discriminate].
        intros [= <-]. cbn [values]. apply Forall_forall. intros v Hv.
        apply list_elem_of_fmap in Hv as (z & -> & _). apply Hf.
Qed.

Lemma snap_array_values (P : R -> Prop) (v : coordv) :
  P 0%R -> Forall P (values v) -> Forall P (values (snap_array v)).
Proof.
  intros H0. assert (Hs : forall x, P x -> P (snap x)).
  { intros x Hx. unfold snap. now destruct (Rlt_dec _ _). }
  destruct v as [x|l]; cbn [snap_array cmap values].
  - intros H. inversion H; subst. repeat constructor. now apply Hs.
  - intros H. apply Forall_fmap. eapply Forall_impl; [exact H|]. exact Hs.
Qed.

(** X3.  Whatever the inputs (single values or arrays), the radii
    [xy_to_rtheta] returns are never negative and its angles lie between
    -180 and 180 degrees, both ends included: on the negative y axis
    [-x] is a negative zero for which numpy's [arctan2] gives -180. *)
Theorem xy_to_rtheta_range (x y r theta : coordv) :
  xy_to_rtheta x y = Ok (r, theta) ->
  Forall (fun v => 0 <= v)%R (values r)
  /\ Forall (fun t => -180 <= t <= 180)%R (values theta).
Proof.
  unfold xy_to_rtheta, res_bind.
  destruct (cmap2 _ x y) as [r0|] eqn:Hr; [|discriminate].
  destruct (cmap2 (fun x0 y0 => (arctan2 (- x0) y0 * 180 / PI)%R) x y)
    as [t0|] eqn:Ht; [|discriminate].
  assert (Hr0 : Forall (fun v => 0 <= v)%R (values r0)).
  { eapply cmap2_values; [|exact Hr]. intros. apply sqrt_pos. }
  assert (Ht0 : Forall (fun t => -180 <= t <= 180)%R (values t0)).
  { eapply cmap2_values; [|exact Ht]. intros u v. cbn beta.
    pose proof (arctan2_range (- u) v) as [Hlo Hhi]. pose proof PI_RGT_0 as Hpi.
    split.
    - apply Rmult_le_reg_r with (r := PI); [lra|].
      replace (arctan2 (- u) v * 180 / PI * PI)%R with (arctan2 (- u) v * 180)%R
        by (field; lra). lra.
    - apply Rmult_le_reg_r with (r := PI); [lra|].
      replace (arctan2 (- u) v * 180 / PI * PI)%R with (arctan2 (- u) v * 180)%R
        by (field; lra). lra. }
  destruct (Nat.eqb (np_size r0) 1); intros [= <- <-].
  - split; assumption.
  - split; apply snap_array_values; auto; lra.
Qed.

Lemma xy_to_rtheta_range_witness :
  let x := Array [3; 0]%R in
  let y := Array [4; -1]%R in
  let r := snap_array (Array [sqrt (3 ^ 2 + 4 ^ 2); sqrt (0 ^ 2 + (-1) ^ 2)]%R) in
  let theta :=
    snap_array (Array [arctan2 (- 3) 4 * 180 / PI; arctan2 (- 0) (-1) * 180 / PI]%R) in
  xy_to_rtheta x y = Ok (r, theta)
  /\ Forall (fun v => 0 <= v)%R (values r)
  /\ Forall (fun t => -180 <= t <= 180)%R (values theta).
Proof.
  intros x y r theta.
  assert (H : xy_to_rtheta x y = Ok (r, theta)) by reflexivity.
  split; [exact H|]. exact (xy_to_rtheta_range _ _ _ _ H).
Defined.

(** ** Pixel distances *)

Lemma pixel_grid_lookup (ny nx : nat) (f : R -> R -> R) (j i : nat) :
  (j < ny)%nat -> (i < nx)%nat ->
  entry (pixel_grid ny nx f) j i = Some (f (INR i) (INR j)).
Proof.
  intros Hj Hi. unfold entry, pixel_grid. cbn [rows].
  rewrite list_lookup_fmap, lookup_seq_lt by exact Hj. cbn.
  rewrite list_lookup_fmap, lookup_seq_lt by exact Hi. reflexivity.
Qed.

Lemma entry_image_map (g : R -> R) (im : image) (j i : nat) :
  entry (image_map g im) j i = g <$> entry im j i.
Proof.
  unfold entry, image_map. cbn [rows]. rewrite list_lookup_fmap.
  destruct (rows im !! j) as [r|]; cbn; [|reflexivity].
  now rewrite list_lookup_fmap.
Qed.

(** X4.  With the default centre, [dist_image] measures from the middle of
    the array: pixel [(j, i)] is at distance
    [sqrt((i - (nx-1)/2)^2 + (j - (ny-1)/2)^2)] times the pixel scale, and
    the map is unchanged when both axes are reversed. *)
Theorem dist_image_default_centre (im : image) (pixscale : option R) (j i : nat) :
  let ny := fst (shape im) in
  let nx := snd (shape im) in
  let rho := fst (dist_image im pixscale None false) in
  let s := match pixscale with Some s => s | None => 1%R end in
  (j < ny)%nat -> (i < nx)%nat ->
  shape rho = shape im
  /\ entry rho j i
     = Some (sqrt ((INR i - (INR nx - 1) / 2) ^ 2 + (INR j - (INR ny - 1) / 2) ^ 2) * s)%R
  /\ entry rho (ny - 1 - j) (nx - 1 - i) = entry rho j i.
Proof.
  intros ny nx rho s Hj Hi. subst ny nx rho s.
  unfold dist_image. destruct (shape im) as [ny nx]. cbn [fst snd] in *.
  assert (Hflip : forall n k : nat, (k < n)%nat ->
            (INR (n - 1 - k) - (INR n - 1) / 2 = - (INR k - (INR n - 1) / 2))%R).
  { intros n k Hk. rewrite !minus_INR by lia. simpl. lra. }
  assert (Hsym : (sqrt ((INR (nx - 1 - i) - (INR nx - 1) / 2) ^ 2
                        + (INR (ny - 1 - j) - (INR ny - 1) / 2) ^ 2)
                  = sqrt ((INR i - (INR nx - 1) / 2) ^ 2
                          + (INR j - (INR ny - 1) / 2) ^ 2))%R).
  { rewrite (Hflip nx i Hi), (Hflip ny j Hj). f_equal. ring. }
  destruct pixscale as [s|]; cbn [fst].
  - split; [reflexivity|].
    rewrite !entry_image_map, !pixel_grid_lookup by lia. cbn [fmap option_fmap option_map].
    split; [reflexivity|]. now rewrite Hsym.
  - split; [reflexivity|].
    rewrite !pixel_grid_lookup by lia.
    split; [now rewrite Rmult_1_r|]. now rewrite Hsym.
Qed.

Lemma dist_image_default_centre_witness :
  let im : image := {| shape := (2%nat, 3%nat); rows := [[1; 2; 3]; [4; 5; 6]]%R |} in
  (0 < fst (shape im))%nat /\ (1 < snd (shape im))%nat
  /\ entry (fst (dist_image im None None false)) 1 1
     = entry (fst (dist_image im None None false)) 0 1.
Proof.
  intros im.
  assert (H0 : (0 < fst (shape im))%nat) by (simpl; lia).
  assert (H1 : (1 < snd (shape im))%nat) by (simpl; lia).
  split; [exact H0|]. split; [exact H1|].
  exact (proj2 (proj2 (dist_image_default_centre im None 0 1 H0 H1))).
Defined.

(** ** Random pointing offsets *)

Section pointing_facts.
Context {rng : Type} (standard_normal : rng -> R * rng).

Lemma np_random_normal_ok (locs : list R) (scale : R) (g : rng) :
  (0 <= scale)%R ->
  exists vs g',
    np_random_normal rng standard_normal locs scale g = (Ok vs, g')
    /\ length vs = length locs
    /\ forall loc, locs !! 0%nat = Some loc ->
         vs !! 0%nat = Some (loc + scale * fst (standard_normal g))%R.
Proof.
  intros Hs. unfold np_random_normal.
  destruct (Rlt_dec scale 0) as [Hn|_]; [lra|].
  revert g. induction locs as [|l locs IH]; intros g; cbn [map_M].
  - exists [], g. split; [reflexivity|]. split; [reflexivity|]. intros loc [=].
  - unfold bind at 1. unfold normal1 at 1.
    destruct (standard_normal g) as [z g1] eqn:Hz.
    destruct (IH g1) as (vs & g' & Hrun & Hlen & _).
    unfold bind at 1. rewrite Hrun. cbn [ret].
    exists ((l + scale * z)%R :: vs), g'. split; [reflexivity|].
    split; [cbn; now rewrite Hlen|].
    intros loc [= <-]. reflexivity.
Qed.

Lemma sgd_pattern_ok (sgd_type : string) (px py : list R) :
  sgd_pattern sgd_type = Ok (px, py) ->
  length py = length px
  /\ (length px = 3 \/ length px = 5 \/ length px = 9)%nat
  /\ px !! 0%nat = Some 0%R /\ py !! 0%nat = Some 0%R.
Proof.
  unfold sgd_pattern.
  repeat (destruct (String.eqb sgd_type _);
          [intros [= <- <-]; cbn; repeat split; auto|]).
  discriminate.
Qed.

Lemma add_tail_spec (a b : list R) :
  length b = length a ->
  length (add_tail a b) = length a /\ add_tail a b !! 0%nat = a !! 0%nat.
Proof.
  destruct a as [|x a], b as [|y b]; cbn; try discriminate.
  - intros _. split; reflexivity.
  - intros [= H]. split; [|reflexivity].
    rewrite take_0, !drop_0, app_nil_l, length_zip_with. lia.
Qed.

(** X5.  [gen_sgd_offsets] refuses an unknown pattern before it draws any
    random number.  For a known pattern it always returns two arrays of
    the pattern's length (3, 5 or 9 positions), and the first, central
    position is displaced by the slew error alone: the fine-steering error
    is never added to it. *)
Theorem gen_sgd_offsets_centre (sgd_type : string) (slew_std fsm_std : R) (g : rng) :
  match sgd_pattern sgd_type with
  | Raise e =>
      gen_sgd_offsets rng standard_normal sgd_type slew_std fsm_std g = (Raise e, g)
      /\ e = ValueError (sgd_type +:+ " not a valid SGD type")
  | Ok (px, py) =>
      exists xs ys g',
        gen_sgd_offsets rng standard_normal sgd_type slew_std fsm_std g = (Ok (xs, ys), g')
        /\ length xs = length px /\ length ys = length px
        /\ (length px = 3 \/ length px = 5 \/ length px = 9)%nat
        /\ let '(z1, g1) := standard_normal g in
           let '(z2, _) := standard_normal g1 in
           xs !! 0%nat = Some ((if Rlt_dec 0 slew_std then 0 + slew_std * z1 else 0) / 1000)%R
           /\ ys !! 0%nat = Some ((if Rlt_dec 0 slew_std then 0 + slew_std * z2 else 0) / 1000)%R
  end.
Proof.
  destruct (sgd_pattern sgd_type) as [[px py]|e] eqn:Hpat.
  2:{ unfold gen_sgd_offsets, bind, lift. rewrite Hpat. split; [reflexivity|].
      unfold sgd_pattern in Hpat.
      repeat (destruct (String.eqb sgd_type _); [discriminate|]).
      now injection Hpat as <-. }
  destruct (sgd_pattern_ok _ _ _ Hpat) as (Hlen & Hn & Hx0 & Hy0).
  unfold gen_sgd_offsets. unfold bind at 1. unfold lift at 1. rewrite Hpat.
  (* the slew error *)
  assert (Hslew : exists xo yo g1,
    (if Rlt_dec 0 slew_std
     then (pt <- np_random_normal rng standard_normal [0; 0]%R slew_std ;;
           match pt with
           | [x_point; y_point] =>
               ret (map (fun v => v + x_point)%R px, map (fun v => v + y_point)%R py)
           | _ => raise (ValueError "not enough values to unpack (expected 2)")
           end)%py
     else ret (px, py)) g = (Ok (xo, yo), g1)
    /\ length xo = length px /\ length yo = length px
    /\ let '(z1, g1) := standard_normal g in
       let '(z2, _) := standard_normal g1 in
       xo !! 0%nat = Some (if Rlt_dec 0 slew_std then 0 + slew_std * z1 else 0)%R
       /\ yo !! 0%nat = Some (if Rlt_dec 0 slew_std then 0 + slew_std * z2 else 0)%R).
  { destruct (Rlt_dec 0 slew_std) as [Hs|Hs].
    - unfold bind, np_random_normal. destruct (Rlt_dec slew_std 0) as [?|_]; [lra|].
      cbn [map_M]. unfold bind, normal1, ret.
      destruct (standard_normal g) as [z1 g1]. destruct (standard_normal g1) as [z2 g2].
      eexists _, _, _. split; [reflexivity|].
      rewrite !length_map. split; [reflexivity|]. split; [exact Hlen|].
      rewrite !list_lookup_fmap, Hx0, Hy0. cbn. split; f_equal; ring.
    - eexists _, _, _. split; [reflexivity|]. split; [reflexivity|]. split; [exact Hlen|].
      destruct (standard_normal g) as [z1 g1]. destruct (standard_normal g1) as [z2 g2].
      split; assumption. }
  destruct Hslew as (xo & yo & g1 & Hrun & Hlx & Hly & Hfirst).
  unfold bind at 1. rewrite Hrun.
  (* the fine-steering error *)
  assert (Hfsm : exists xf yf g2,
    (if Rlt_dec 0 fsm_std
     then (x_fsm <- np_random_normal rng standard_normal (map (fun _ => 0%R) xo) fsm_std ;;
           y_fsm <- np_random_normal rng standard_normal (map (fun _ => 0%R) yo) fsm_std ;;
           ret (add_tail xo x_fsm, add_tail yo y_fsm))%py
     else ret (xo, yo)) g1 = (Ok (xf, yf), g2)
    /\ length xf = length xo /\ length yf = length yo
    /\ xf !! 0%nat = xo !! 0%nat /\ yf !! 0%nat = yo !! 0%nat).
  { destruct (Rlt_dec 0 fsm_std) as [Hf|Hf].
    - destruct (np_random_normal_ok (map (fun _ => 0%R) xo) fsm_std g1)
        as (vx & g2 & Hvx & Hlvx & _); [lra|].
      destruct (np_random_normal_ok (map (fun _ => 0%R) yo) fsm_std g2)
        as (vy & g3 & Hvy & Hlvy & _); [lra|].
      unfold bind. rewrite Hvx, Hvy. cbn [ret].
      rewrite length_map in Hlvx, Hlvy.
      destruct (add_tail_spec xo vx Hlvx) as [? ?].
      destruct (add_tail_spec yo vy Hlvy) as [? ?].
      eexists _, _, _. split; [reflexivity|]. auto.
    - eexists _, _, _. split; [reflexivity|]. auto. }
  destruct Hfsm as (xf & yf & g2 & Hrun2 & Hlxf & Hlyf & Hxf0 & Hyf0).
  unfold bind at 1. rewrite Hrun2. cbn [ret].
  eexists _, _, _. split; [reflexivity|].
  rewrite !length_map. split; [congruence|]. split; [congruence|]. split; [exact Hn|].
  destruct (standard_normal g) as [z1 g1']. destruct (standard_normal g1') as [z2 g2'].
  destruct Hfirst as [Hfx Hfy].
  rewrite !list_lookup_fmap, Hxf0, Hyf0, Hfx, Hfy. split; reflexivity.
Qed.

(** X6.  With both standard deviations zero, the defaults, no random
    error enters [get_idl_offset]: whatever the state of the generator it
    returns [(base_offset * 1000 + dith_offset * 1000) / 1000].  When the
    dither offset is zero the dither deviation is not used at all:
    whatever [dith_std] is, the result is the base offset with the slew
    error. *)
Theorem get_idl_offset_zero_std (base_offset dith_offset : R * R) (use_ta use_sgd : bool)
    (base_std dith_std : option R) (g : rng) :
  fst (get_idl_offset rng standard_normal base_offset dith_offset (Some 0%R) use_ta
         (Some 0%R) use_sgd g)
  = Ok [(fst base_offset * 1000 + fst dith_offset * 1000) / 1000;
        (snd base_offset * 1000 + snd dith_offset * 1000) / 1000]%R
  /\ get_idl_offset rng standard_normal base_offset (0, 0)%R base_std use_ta dith_std use_sgd g
     = get_idl_offset rng standard_normal base_offset (0, 0)%R base_std use_ta (Some 0%R)
         use_sgd g.
Proof.
  split.
  - unfold get_idl_offset.
    match goal with |- context [if ?c then 0%R else 0%R] =>
      replace (if c then 0%R else 0%R) with 0%R by (now destruct c) end.
    unfold bind, np_random_normal. destruct (Rlt_dec 0 0) as [?|_]; [lra|].
    cbn [map_M]. unfold bind, normal1, ret.
    destruct (standard_normal g) as [z1 g1]. destruct (standard_normal g1) as [z2 g2].
    destruct (standard_normal g2) as [z3 g3]. destruct (standard_normal g3) as [z4 g4].
    cbn. do 2 f_equal; [lra|f_equal; lra].
  - unfold get_idl_offset. cbn [fst snd].
    replace (0 * 1000)%R with 0%R by ring.
    destruct (Req_dec_T 0 0) as [_|Hne]; [|contradiction].
    unfold Req_zero. destruct (Req_dec_T 0 0) as [_|Hne]; [|contradiction].
    reflexivity.
Qed.
End pointing_facts.

(** ** Shifts *)

Lemma roll_length {X} (l : list X) (k : Z) : length (roll l k) = length l.
Proof.
  unfold roll. destruct (length l) as [|n'] eqn:Hn; [exact Hn|].
  set (n := S n') in *.
  rewrite length_app, length_drop, length_take. lia.
Qed.

Lemma roll_lookup {X} (l : list X) (k : Z) (t : nat) :
  (t < length l)%nat ->
  roll l k !! t = l !! Z.to_nat ((Z.of_nat t - k) mod Z.of_nat (length l)).
Proof.
  intros Ht. unfold roll. destruct (length l) as [|n'] eqn:Hn; [lia|].
  set (n := S n') in *.
  assert (Hpos : 0 < Z.of_nat n) by lia.
  pose proof (Z.mod_pos_bound k (Z.of_nat n) Hpos) as Hs.
  set (s := k mod Z.of_nat n) in *.
  assert (Hk : exists q, k = Z.of_nat n * q + s).
  { exists (k / Z.of_nat n). unfold s. apply Z.div_mod. lia. }
  destruct Hk as [q Hk].
  destruct (Nat.lt_ge_cases t (Z.to_nat s)) as [Hlt|Hge].
  - rewrite lookup_app_l by (rewrite length_drop; lia).
    rewrite lookup_drop. f_equal.
    assert (E : (Z.of_nat t - k) mod Z.of_nat n = Z.of_nat t - s + Z.of_nat n).
    { symmetry. apply (Z.mod_unique _ _ (- q - 1)); [lia|]. rewrite Hk. ring. }
    rewrite E. lia.
  - rewrite lookup_app_r by (rewrite length_drop; lia).
    rewrite length_drop, lookup_take_lt by lia. f_equal.
    assert (E : (Z.of_nat t - k) mod Z.of_nat n = Z.of_nat t - s).
    { symmetry. apply (Z.mod_unique _ _ (- q)); [lia|]. rewrite Hk. ring. }
    rewrite E. lia.
Qed.

Lemma roll_roll_back {X} (l : list X) (k : Z) : roll (roll l k) (- k) = l.
Proof.
  apply list_eq. intros t.
  destruct (Nat.lt_ge_cases t (length l)) as [Ht|Ht].
  - assert (Hpos : 0 < Z.of_nat (length l)) by lia.
    rewrite roll_lookup by (now rewrite roll_length).
    rewrite roll_length.
    pose proof (Z.mod_pos_bound (Z.of_nat t - - k) _ Hpos) as Hb.
    rewrite roll_lookup by lia.
    f_equal. rewrite Z2Nat.id by lia.
    rewrite Zminus_mod_idemp_l.
    replace (Z.of_nat t - - k - k) with (Z.of_nat t) by ring.
    rewrite Z.mod_small by lia. lia.
  - rewrite !lookup_ge_None_2; [reflexivity|lia|now rewrite !roll_length].
Qed.

Lemma roll_fmap {X Y} (f : X -> Y) (l : list X) (k : Z) :
  roll (f <$> l) k = f <$> roll l k.
Proof.
  unfold roll. rewrite length_fmap. destruct (length l); [reflexivity|].
  now rewrite fmap_app, fmap_drop, fmap_take.
Qed.

Lemma roll_replicate {X} (x : X) (n : nat) (k : Z) : roll (replicate n x) k = replicate n x.
Proof.
  apply list_eq. intros t.
  destruct (Nat.lt_ge_cases t n) as [Ht|Ht].
  - rewrite roll_lookup by (now rewrite length_replicate).
    rewrite length_replicate.
    assert (Hpos : 0 < Z.of_nat n) by lia.
    pose proof (Z.mod_pos_bound (Z.of_nat t - k) _ Hpos) as Hb.
    rewrite !lookup_replicate_2 by lia. reflexivity.
  - rewrite !lookup_ge_None_2; [reflexivity|now rewrite length_replicate
                                |now rewrite roll_length, length_replicate].
Qed.

Lemma slice_lookup {X} (l : list X) (a b i : nat) :
  (i < b - a)%nat -> slice l a b !! i = l !! (a + i)%nat.
Proof. intros H. unfold slice. now rewrite lookup_take_lt, lookup_drop. Qed.

Lemma slice_length {X} (l : list X) (a b : nat) :
  (b <= length l)%nat -> length (slice l a b) = (b - a)%nat.
Proof. intros H. unfold slice. rewrite length_take, length_drop. lia. Qed.

(** An entry of a padded list. *)
Lemma padded_lookup {X} (l : list X) (p : nat) (c : X) (u : nat) :
  (u < p + length l + p)%nat ->
  (replicate p c ++ l ++ replicate p c) !! u
  = Some (if Nat.ltb u p then c else default c (l !! (u - p)%nat)).
Proof.
  intros Hu. destruct (Nat.ltb_spec u p) as [Hlt|Hge].
  - rewrite lookup_app_l by (now rewrite length_replicate).
    now apply lookup_replicate_2.
  - rewrite lookup_app_r by (rewrite length_replicate; lia).
    rewrite length_replicate.
    destruct (Nat.lt_ge_cases (u - p) (length l)) as [H1|H1].
    + rewrite lookup_app_l by exact H1.
      destruct (lookup_lt_is_Some_2 l (u - p) H1) as [v Hv]. now rewrite Hv.
    + rewrite lookup_app_r by exact H1.
      rewrite (lookup_ge_None_2 l) by exact H1. cbn.
      apply lookup_replicate_2. lia.
Qed.


(** Reading a window of a padded and rolled list, when the roll does not
    wrap around inside the window. *)
Lemma shifted_window {X} (l : list X) (p q : nat) (k : Z) (c : X) (i : nat) :
  (i < length l)%nat ->
  (q + length l <= p + length l + p)%nat ->
  0 <= Z.of_nat (q + i) - k < Z.of_nat (p + length l + p) ->
  slice (roll (replicate p c ++ l ++ replicate p c) k) q (q + length l) !! i
  = Some (default c (at_Z l (Z.of_nat (q + i) - k - Z.of_nat p))).
Proof.
  intros Hi Hq Hw.
  assert (Hlen : length (replicate p c ++ l ++ replicate p c) = (p + length l + p)%nat).
  { rewrite !length_app, !length_replicate. lia. }
  rewrite slice_lookup by lia.
  rewrite roll_lookup by lia.
  rewrite Hlen, Z.mod_small by exact Hw.
  rewrite padded_lookup by lia. f_equal.
  unfold at_Z.
  destruct (Nat.ltb_spec (Z.to_nat (Z.of_nat (q + i) - k)) p) as [Hlt|Hge].
  - destruct (Z.leb_spec 0 (Z.of_nat (q + i) - k - Z.of_nat p)); [lia|reflexivity].
  - destruct (Z.leb_spec 0 (Z.of_nat (q + i) - k - Z.of_nat p)); [|lia].
    do 2 f_equal. lia.
Qed.

Lemma at_Z_lookup {X} (l : list X) (i : nat) : at_Z l (Z.of_nat i) = l !! i.
Proof.
  unfold at_Z. destruct (Z.leb_spec 0 (Z.of_nat i)); [|lia]. now rewrite Nat2Z.id.
Qed.

(** X7.  A 1-D image shifted by a whole number [k] of pixels with
    [pad=True] keeps its length, but its content moves by [k - 1] places,
    not by [k]: the array is padded by [|k|] and read back from [|k| + 1].
    A padded shift by one pixel returns the image unchanged. *)
Theorem fshift_1d_pad_one_short {A} (image : list A) (k : Z) (c : A) :
  k <> 0 ->
  length (fshift_1d image k true c) = length image
  /\ (forall i : nat, (i < length image)%nat ->
        fshift_1d image k true c !! i
        = Some (default c (at_Z image (Z.of_nat i - (k - 1)))))
  /\ (k = 1 -> fshift_1d image k true c = image).
Proof.
  intros Hk.
  assert (Hall : length (fshift_1d image k true c) = length image
    /\ forall i : nat, (i < length image)%nat ->
        fshift_1d image k true c !! i
        = Some (default c (at_Z image (Z.of_nat i - (k - 1))))).
  { unfold fshift_1d. destruct (Z.eqb_spec k 0) as [?|_]; [contradiction|].
    set (p := Z.abs_nat k).
    assert (Hp : (1 <= p)%nat) by (unfold p; lia).
    split.
    - rewrite slice_length; [lia|].
      rewrite roll_length, !length_app, !length_replicate. lia.
    - intros i Hi.
      destruct (Z_lt_le_dec (Z.of_nat (p + 1 + i) - k) (Z.of_nat (p + length image + p)))
        as [Hin|Hout].
      + rewrite shifted_window by (try lia; unfold p in *; lia).
        do 3 f_equal. unfold p. lia.
      + (* the last entry of a shift to the left wraps around to the padding *)
        assert (Hi' : i = (length image - 1)%nat) by (unfold p in *; lia).
        assert (Hkneg : k < 0) by (unfold p in *; lia).
        assert (Hlen : length (replicate p c ++ image ++ replicate p c)
                       = (p + length image + p)%nat).
        { rewrite !length_app, !length_replicate. lia. }
        rewrite slice_lookup by lia.
        rewrite roll_lookup by lia.
        rewrite Hlen.
        replace (Z.of_nat (p + 1 + i) - k) with (Z.of_nat (p + length image + p))
          by (unfold p in *; lia).
        rewrite Z.mod_same by lia.
        rewrite padded_lookup by lia.
        destruct (Nat.ltb_spec (Z.to_nat 0) p) as [_|?]; [|lia].
        f_equal. unfold at_Z.
        destruct (Z.leb_spec 0 (Z.of_nat i - (k - 1))); [|lia].
        rewrite lookup_ge_None_2 by lia. reflexivity. }
  destruct Hall as [Hlen Hent]. split; [exact Hlen|]. split; [exact Hent|].
  intros ->. apply list_eq. intros i.
  destruct (Nat.lt_ge_cases i (length image)) as [Hi|Hi].
  - rewrite Hent by exact Hi.
    replace (Z.of_nat i - (1 - 1)) with (Z.of_nat i) by lia.
    rewrite at_Z_lookup.
    destruct (lookup_lt_is_Some_2 image i Hi) as [v Hv]. now rewrite Hv.
  - rewrite !lookup_ge_None_2; [reflexivity|lia|lia].
Qed.

Lemma fshift_1d_pad_one_short_witness :
  (-1 <> 0)
  /\ fshift_1d [1; 2; 3] (-1) true 0 !! 0%nat = Some 3
  /\ fshift_1d [1; 2; 3] 1 true 0 = [1; 2; 3].
Proof.
  assert (H : -1 <> 0) by lia.
  split; [exact H|]. split.
  - exact (proj1 (proj2 (fshift_1d_pad_one_short [1; 2; 3] (-1) 0 H)) 0%nat
             ltac:(simpl; lia)).
  - exact (proj2 (proj2 (fshift_1d_pad_one_short [1; 2; 3] 1 0 ltac:(lia))) eq_refl).
Defined.

Section shift_facts.
Context {A : Type}.

Lemma roll2_ok (a : array2 A) (dx dy : Z) :
  array2_ok a = true -> array2_ok (roll2 A a dx dy) = true.
Proof.
  rewrite !array2_ok_spec. unfold roll2. cbn [shape rows]. intros [Hlen Hrows]. split.
  - now rewrite roll_length, length_fmap.
  - apply Forall_forall. intros r Hr.
    apply list_elem_of_lookup in Hr as [t Ht].
    assert (Hlt : (t < length ((fun r0 => roll r0 dx) <$> rows a))%nat).
    { apply lookup_lt_Some in Ht. now rewrite roll_length in Ht. }
    rewrite roll_lookup in Ht by exact Hlt.
    rewrite list_lookup_fmap in Ht.
    destruct (rows a !! _) as [r0|] eqn:Hr0; [|discriminate].
    injection Ht as <-. rewrite roll_length.
    eapply Forall_forall in Hrows; [exact Hrows|].
    eapply list_elem_of_lookup_2; eauto.
Qed.

Lemma roll2_roll2_back (a : array2 A) (dx dy : Z) :
  roll2 A (roll2 A a dx dy) (- dx) (- dy) = a.
Proof.
  destruct a as [sh R]. unfold roll2. cbn [shape rows]. f_equal.
  change (map (fun r => roll r (- dx))) with (fmap (M := list) (fun r : list A => roll r (- dx))).
  change (map (fun r => roll r dx)) with (fmap (M := list) (fun r : list A => roll r dx)).
  rewrite <- roll_fmap, roll_roll_back, <- list_fmap_compose.
  rewrite <- (list_fmap_id R) at 2. apply list_fmap_ext. intros _ r _.
  cbn. apply roll_roll_back.
Qed.

Lemma fshift_wrap (a : array2 A) (dx dy : Z) (c : A) :
  array2_ok a = true ->
  (dx <> 0 \/ dy <> 0) ->
  fshift a dx dy false c = roll2 A a dx dy.
Proof.
  intros Hok Hnz. unfold fshift.
  replace (Z.eqb dx 0 && Z.eqb dy 0) with false
    by (symmetry; apply andb_false_iff; rewrite !Z.eqb_neq; tauto).
  destruct (shape a) as [ny nx] eqn:Hs. cbn [Nat.add].
  pose proof (slice2_whole (roll2 A a dx dy) (roll2_ok a dx dy Hok)) as Hw.
  cbn [roll2 shape] in Hw. rewrite Hs in Hw. exact Hw.
Qed.

(** X8.  Without padding a whole-pixel shift wraps around, so shifting
    back by the opposite amounts restores the image exactly. *)
Theorem fshift_wrap_roundtrip (a : array2 A) (dx dy : Z) (c c' : A) :
  array2_ok a = true ->
  fshift (fshift a dx dy false c) (- dx) (- dy) false c' = a.
Proof.
  intros Hok.
  destruct (Z.eq_dec dx 0) as [->|Hx], (Z.eq_dec dy 0) as [->|Hy];
    [reflexivity| | |];
    (rewrite (fshift_wrap a) by (auto; lia);
     rewrite fshift_wrap by (try apply roll2_ok; auto; lia);
     apply roll2_roll2_back).
Qed.

Lemma np_pad_rows (a : array2 A) (pady padx : nat) (c : A) :
  rows (np_pad A a pady padx c)
  = replicate pady (replicate (padx + snd (shape a) + padx) c)
    ++ map (fun r => replicate padx c ++ r ++ replicate padx c) (rows a)
    ++ replicate pady (replicate (padx + snd (shape a) + padx) c).
Proof. unfold np_pad. destruct (shape a). reflexivity. Qed.

Lemma np_pad_shape (a : array2 A) (pady padx : nat) (c : A) :
  shape (np_pad A a pady padx c)
  = ((pady + fst (shape a) + pady)%nat, (padx + snd (shape a) + padx)%nat).
Proof. unfold np_pad. destruct (shape a). reflexivity. Qed.

(** The padded shift, entry by entry. *)
Lemma fshift_pad_spec (a : array2 A) (dx dy : Z) (c : A) :
  array2_ok a = true ->
  let b := fshift a dx dy true c in
  shape b = shape a
  /\ array2_ok b = true
  /\ forall j i : nat, (j < fst (shape a))%nat -> (i < snd (shape a))%nat ->
       entry b j i = Some (default c (entry_Z a (Z.of_nat j - dy) (Z.of_nat i - dx))).
Proof.
  intros Hok b. subst b.
  pose proof Hok as Hok'. apply array2_ok_spec in Hok' as [Hlen Hrows].
  unfold fshift.
  destruct (Z.eqb dx 0 && Z.eqb dy 0) eqn:Hz.
  { apply andb_true_iff in Hz as [Hx Hy]. apply Z.eqb_eq in Hx, Hy. subst dx dy.
    split; [reflexivity|]. split; [exact Hok|]. intros j i Hj Hi.
    rewrite !Z.sub_0_r. unfold entry_Z.
    destruct (Z.leb_spec 0 (Z.of_nat j)); [|lia].
    destruct (Z.leb_spec 0 (Z.of_nat i)); [|lia]. cbn [andb].
    rewrite !Nat2Z.id. unfold entry.
    destruct (lookup_lt_is_Some_2 (rows a) j) as [r Hr]; [lia|]. rewrite Hr.
    assert (length r = snd (shape a)).
    { eapply Forall_forall in Hrows; [exact Hrows|]. eapply list_elem_of_lookup_2; eauto. }
    destruct (lookup_lt_is_Some_2 r i) as [v Hv]; [lia|]. now rewrite Hv. }
  clear Hz.
  destruct (shape a) as [ny nx] eqn:Hs. cbn [fst snd] in *.
  set (padx := (Z.abs_nat dx + 1)%nat). set (pady := (Z.abs_nat dy + 1)%nat).
  set (w := (padx + nx + padx)%nat).
  set (C := replicate w c).
  set (g := fun r : list A => replicate padx c ++ r ++ replicate padx c).
  set (L := (fun r => roll r dx) <$> (g <$> rows a)).
  assert (HL : length L = ny) by (unfold L; now rewrite !length_fmap).
  assert (Hrolled : rows (roll2 A (np_pad A a pady padx c) dx dy)
                    = roll (replicate pady C ++ L ++ replicate pady C) dy).
  { unfold roll2. cbn [rows]. rewrite np_pad_rows, Hs. cbn [snd]. fold w C g.
    f_equal.
    change (map (fun r => roll r dx)) with (fmap (M := list) (fun r : list A => roll r dx)).
    rewrite !fmap_app, !fmap_replicate. unfold C. now rewrite roll_replicate. }
  assert (HLrows : Forall (fun r => length r = w) L).
  { unfold L. apply Forall_fmap, Forall_fmap. eapply Forall_impl; [exact Hrows|].
    intros r Hr. cbn in *. unfold g. rewrite roll_length, !length_app, !length_replicate.
    unfold w. lia. }
  assert (Hallrows : Forall (fun r => length r = w)
                       (roll (replicate pady C ++ L ++ replicate pady C) dy)).
  { apply Forall_forall. intros r Hr.
    apply list_elem_of_lookup in Hr as [t Ht].
    assert (Hlt : (t < length (replicate pady C ++ L ++ replicate pady C))%nat).
    { apply lookup_lt_Some in Ht. now rewrite roll_length in Ht. }
    rewrite roll_lookup in Ht by exact Hlt.
    apply list_elem_of_lookup_2 in Ht.
    rewrite !elem_of_app in Ht. destruct Ht as [Ht|[Ht|Ht]].
    - apply elem_of_replicate in Ht as [-> _]. apply length_replicate.
    - eapply Forall_forall in HLrows; eauto.
    - apply elem_of_replicate in Ht as [-> _]. apply length_replicate. }
  assert (Hshape : shape (slice2 (roll2 A (np_pad A a pady padx c) dx dy)
                            pady (pady + ny) padx (padx + nx)) = (ny, nx)).
  { unfold slice2. cbn [shape roll2]. rewrite np_pad_shape, Hs. cbn [fst snd].
    unfold slice_len. f_equal; lia. }
  assert (Hrowsb : rows (slice2 (roll2 A (np_pad A a pady padx c) dx dy)
                           pady (pady + ny) padx (padx + nx))
                   = (fun r => slice r padx (padx + nx))
                     <$> slice (roll (replicate pady C ++ L ++ replicate pady C) dy)
                           pady (pady + ny)).
  { unfold slice2. cbn [rows]. now rewrite Hrolled. }
  split; [exact Hshape|]. split.
  - apply array2_ok_spec. rewrite Hshape, Hrowsb. cbn [fst snd]. split.
    + rewrite length_fmap, slice_length; [lia|].
      rewrite roll_length, !length_app, !length_replicate. lia.
    + apply Forall_fmap. unfold slice at 1. apply Forall_take, Forall_drop.
      eapply Forall_impl; [exact Hallrows|]. intros r Hr. cbn in *.
      rewrite length_take, length_drop. unfold w in Hr. lia.
  - intros j i Hj Hi. unfold entry. rewrite Hrowsb, list_lookup_fmap.
    rewrite <- HL at 1.
    rewrite shifted_window by (rewrite ?HL; unfold pady; lia).
    cbn [fmap option_fmap option_map].
    replace (Z.of_nat (pady + j) - dy - Z.of_nat pady) with (Z.of_nat j - dy) by lia.
    unfold entry_Z, at_Z.
    destruct (Z.leb_spec 0 (Z.of_nat j - dy)) as [Hj0|Hj0]; cbn [andb default].
    2:{ unfold C. rewrite slice_lookup by lia.
        rewrite lookup_replicate_2 by (unfold w; lia). reflexivity. }
    unfold L. rewrite !list_lookup_fmap. unfold entry.
    destruct (rows a !! Z.to_nat (Z.of_nat j - dy)) as [r|] eqn:Hr;
      cbn [fmap option_fmap option_map default].
    2:{ unfold C. rewrite slice_lookup by lia.
        rewrite lookup_replicate_2 by (unfold w; lia).
        now destruct (Z.leb 0 (Z.of_nat i - dx)). }
    assert (Hlr : length r = nx).
    { eapply Forall_forall in Hrows; [exact Hrows|]. eapply list_elem_of_lookup_2; eauto. }
    unfold g. rewrite <- Hlr. unfold Datatypes.id.
    rewrite shifted_window by (rewrite ?Hlr; unfold padx; lia).
    replace (Z.of_nat (padx + i) - dx - Z.of_nat padx) with (Z.of_nat i - dx) by lia.
    unfold at_Z. now destruct (Z.leb 0 (Z.of_nat i - dx)).
Qed.
(** X9.  With [pad=True] a whole-pixel shift of a 2-D image moves the
    content by [(dely, delx)]: the result has the shape of the image, its
    entry [(j, i)] is the image's entry [(j - dely, i - delx)] where that
    exists and [cval] elsewhere; nothing wraps around. *)
Theorem fshift_pad_entries (a : array2 A) (dx dy : Z) (c : A) :
  array2_ok a = true ->
  let b := fshift a dx dy true c in
  shape b = shape a
  /\ array2_ok b = true
  /\ forall j i : nat, (j < fst (shape a))%nat -> (i < snd (shape a))%nat ->
       entry b j i = Some (default c (entry_Z a (Z.of_nat j - dy) (Z.of_nat i - dx))).
Proof. exact (fshift_pad_spec a dx dy c). Qed.
End shift_facts.

Lemma fshift_wrap_roundtrip_witness :
  let a := {| shape := (2%nat, 3%nat); rows := [[1; 2; 3]; [4; 5; 6]] |} in
  array2_ok a = true /\ fshift (fshift a 1 (-1) false 0) (- 1) (- -1) false 0 = a.
Proof.
  intros a. assert (H : array2_ok a = true) by reflexivity.
  split; [exact H|]. exact (fshift_wrap_roundtrip a 1 (-1) 0 0 H).
Defined.

Lemma fshift_pad_entries_witness :
  let a := {| shape := (2%nat, 3%nat); rows := [[1; 2; 3]; [4; 5; 6]] |} in
  array2_ok a = true
  /\ entry (fshift a 1 0 true 0) 1 1 = Some 4
  /\ entry (fshift a 1 0 true 0) 1 0 = Some 0.
Proof.
  intros a. assert (H : array2_ok a = true) by reflexivity.
  split; [exact H|]. split.
  - exact (proj2 (proj2 (fshift_pad_entries a 1 0 0 H)) 1%nat 1%nat
             ltac:(simpl; lia) ltac:(simpl; lia)).
  - exact (proj2 (proj2 (fshift_pad_entries a 1 0 0 H)) 1%nat 0%nat
             ltac:(simpl; lia) ltac:(simpl; lia)).
Defined.

(** ** Resizing to any shape *)

Section resize_facts.
Context {A : Type}.

Lemma entry_Some_ok (a : array2 A) (j i : nat) :
  array2_ok a = true -> (j < fst (shape a))%nat -> (i < snd (shape a))%nat ->
  is_Some (entry a j i).
Proof.
  intros Hok Hj Hi. apply array2_ok_spec in Hok as [Hlen Hrows]. unfold entry.
  destruct (lookup_lt_is_Some_2 (rows a) j) as [r Hr]; [lia|]. rewrite Hr.
  apply lookup_lt_is_Some_2.
  eapply Forall_forall in Hrows; [|eapply list_elem_of_lookup_2; eauto]. cbn in Hrows. lia.
Qed.

(** Two well-formed arrays of the same shape with the same entries are
    the same array. *)
Lemma array2_ext (a b : array2 A) :
  array2_ok a = true -> array2_ok b = true -> shape a = shape b ->
  (forall j i : nat, (j < fst (shape a))%nat -> (i < snd (shape a))%nat ->
     entry a j i = entry b j i) ->
  a = b.
Proof.
  intros Ha Hb Hs He.
  apply array2_ok_spec in Ha as [Hla Hra], Hb as [Hlb Hrb].
  destruct a as [sa Ra], b as [sb Rb]. cbn [shape rows] in *. subst sb. f_equal.
  apply list_eq. intros j.
  destruct (Nat.lt_ge_cases j (fst sa)) as [Hj|Hj].
  2:{ rewrite !lookup_ge_None_2; [reflexivity|lia|lia]. }
  destruct (lookup_lt_is_Some_2 Ra j) as [ra Hra']; [lia|].
  destruct (lookup_lt_is_Some_2 Rb j) as [rb Hrb']; [lia|].
  rewrite Hra', Hrb'. f_equal.
  assert (Hlra : length ra = snd sa).
  { eapply Forall_forall in Hra; [exact Hra|]. eapply list_elem_of_lookup_2; eauto. }
  assert (Hlrb : length rb = snd sa).
  { eapply Forall_forall in Hrb; [exact Hrb|]. eapply list_elem_of_lookup_2; eauto. }
  apply list_eq. intros i.
  destruct (Nat.lt_ge_cases i (snd sa)) as [Hi|Hi].
  2:{ rewrite !lookup_ge_None_2; [reflexivity|lia|lia]. }
  specialize (He j i Hj Hi). unfold entry in He. cbn [rows] in He.
  now rewrite Hra', Hrb' in He.
Qed.

Lemma slice2_spec (a : array2 A) (m0 m1 n0 n1 : nat) :
  array2_ok a = true ->
  (m1 <= fst (shape a))%nat -> (n1 <= snd (shape a))%nat ->
  shape (slice2 a m0 m1 n0 n1) = ((m1 - m0)%nat, (n1 - n0)%nat)
  /\ array2_ok (slice2 a m0 m1 n0 n1) = true
  /\ forall j i : nat, (j < m1 - m0)%nat -> (i < n1 - n0)%nat ->
       entry (slice2 a m0 m1 n0 n1) j i = entry a (m0 + j) (n0 + i).
Proof.
  intros Hok Hm Hn. apply array2_ok_spec in Hok as [Hlen Hrows].
  assert (Hshape : shape (slice2 a m0 m1 n0 n1) = ((m1 - m0)%nat, (n1 - n0)%nat)).
  { unfold slice2, slice_len. cbn [shape]. f_equal; lia. }
  split; [exact Hshape|]. split.
  - apply array2_ok_spec. rewrite Hshape. unfold slice2. cbn [rows fst snd]. split.
    + rewrite length_map, slice_length; lia.
    + apply Forall_map. unfold slice at 1. apply Forall_take, Forall_drop.
      eapply Forall_impl; [exact Hrows|]. intros r Hr. cbn beta in *.
      rewrite length_take, length_drop. lia.
  - intros j i Hj Hi. unfold entry, slice2. cbn [rows].
    change (map (fun r => slice r n0 n1)) with (fmap (M := list) (fun r : list A => slice r n0 n1)).
    rewrite list_lookup_fmap, slice_lookup by exact Hj.
    destruct (rows a !! (m0 + j)%nat) as [r|]; cbn; [|reflexivity].
    now apply slice_lookup.
Qed.

(** Writing a block into an array: the array keeps its shape, the block
    is read back inside the window and the old entries outside it. *)
Lemma assign_block_spec (out blk : array2 A) (m0 n0 : nat) :
  array2_ok out = true -> array2_ok blk = true ->
  (m0 + fst (shape blk) <= fst (shape out))%nat ->
  (n0 + snd (shape blk) <= snd (shape out))%nat ->
  exists b,
    assign_block out m0 (m0 + fst (shape blk)) n0 (n0 + snd (shape blk)) blk = Ok b
    /\ shape b = shape out
    /\ array2_ok b = true
    /\ forall j i : nat, (j < fst (shape out))%nat -> (i < snd (shape out))%nat ->
         entry b j i =
           if Nat.leb m0 j && Nat.ltb j (m0 + fst (shape blk))
              && Nat.leb n0 i && Nat.ltb i (n0 + snd (shape blk))
           then entry blk (j - m0) (i - n0)
           else entry out j i.
Proof.
  destruct out as [[oy ox] O], blk as [[ny nx] B]. cbn [shape rows fst snd].
  intros Hoko Hokb Hm Hn.
  apply array2_ok_spec in Hoko as [HlO HrO], Hokb as [HlB HrB].
  cbn [shape rows fst snd] in *.
  unfold assign_block. cbn [shape rows fst snd].
  assert (E1 : slice_len oy m0 (m0 + ny) = ny) by (unfold slice_len; lia).
  assert (E2 : slice_len ox n0 (n0 + nx) = nx) by (unfold slice_len; lia).
  rewrite E1, E2, !Nat.eqb_refl. cbn [andb].
  set (mid := zip_with (fun o b => take n0 o ++ b ++ drop (n0 + nx) o)
                       (slice O m0 (m0 + ny)) B).
  assert (Hlmid : length mid = ny).
  { unfold mid. rewrite length_zip_with, slice_length; lia. }
  assert (Hmid : forall t, (t < ny)%nat ->
            exists o b, O !! (m0 + t)%nat = Some o /\ B !! t = Some b
                        /\ length o = ox /\ length b = nx
                        /\ mid !! t = Some (take n0 o ++ b ++ drop (n0 + nx) o)).
  { intros t Ht.
    destruct (lookup_lt_is_Some_2 O (m0 + t)) as [o Ho]; [lia|].
    destruct (lookup_lt_is_Some_2 B t) as [b Hb]; [lia|].
    exists o, b. split; [exact Ho|]. split; [exact Hb|].
    split; [eapply Forall_forall in HrO; [exact HrO|]; eapply list_elem_of_lookup_2; eauto|].
    split; [eapply Forall_forall in HrB; [exact HrB|]; eapply list_elem_of_lookup_2; eauto|].
    unfold mid. rewrite lookup_zip_with, slice_lookup, Ho by lia. cbn. now rewrite Hb. }
  eexists. split; [reflexivity|]. split; [reflexivity|]. split.
  - apply array2_ok_spec. cbn [shape rows fst snd]. fold mid. split.
    + rewrite !length_app, length_take, length_drop, Hlmid. lia.
    + rewrite !Forall_app. repeat split.
      * now apply Forall_take.
      * apply Forall_forall. intros r Hr.
        apply list_elem_of_lookup in Hr as [t Ht].
        assert (t < ny)%nat by (apply lookup_lt_Some in Ht; lia).
        destruct (Hmid t) as (o & b & _ & _ & Hlo & Hlb & Hmt); [lia|].
        rewrite Hmt in Ht. injection Ht as <-.
        rewrite !length_app, length_take, length_drop. lia.
      * now apply Forall_drop.
  - intros j i Hj Hi. unfold entry at 1. cbn [rows]. fold mid.
    destruct (Nat.leb_spec m0 j) as [Hj0|Hj0]; cbn [andb].
    2:{ rewrite lookup_app_l by (rewrite length_take; lia).
        rewrite lookup_take_lt by lia. reflexivity. }
    rewrite lookup_app_r by (rewrite length_take; lia).
    rewrite length_take. replace (Nat.min m0 (length O)) with m0 by lia.
    destruct (Nat.ltb_spec j (m0 + ny)) as [Hj1|Hj1]; cbn [andb].
    2:{ rewrite lookup_app_r by lia. rewrite Hlmid, lookup_drop.
        replace (m0 + ny + (j - m0 - ny))%nat with j by lia. reflexivity. }
    rewrite lookup_app_l by lia.
    destruct (Hmid (j - m0)%nat) as (o & b & Ho & Hb & Hlo & Hlb & Hmt); [lia|].
    rewrite Hmt. replace (m0 + (j - m0))%nat with j in Ho by lia.
    unfold entry. cbn [rows]. rewrite Ho, Hb.
    destruct (Nat.leb_spec n0 i) as [Hi0|Hi0]; cbn [andb].
    2:{ rewrite lookup_app_l by (rewrite length_take; lia).
        now rewrite lookup_take_lt by lia. }
    rewrite lookup_app_r by (rewrite length_take; lia).
    rewrite length_take. replace (Nat.min n0 (length o)) with n0 by lia.
    destruct (Nat.ltb_spec i (n0 + nx)) as [Hi1|Hi1].
    + now rewrite lookup_app_l by lia.
    + rewrite lookup_app_r by lia. rewrite Hlb, lookup_drop. f_equal. lia.
Qed.
End resize_facts.

Section resize_theorems.
Context {A : Type} (zero : A) (add : A -> A -> A) (is_zero : A -> bool).

(** The array [output] after [output += fill_val]. *)
Lemma filled_output (ny' nx' : nat) (fill : A) :
  (if negb (is_zero fill)
   then {| shape := shape (zeros zero ny' nx');
           rows := map (map (fun v => add v fill)) (rows (zeros zero ny' nx')) |}
   else zeros zero ny' nx')
  = {| shape := (ny', nx');
       rows := replicate ny' (replicate nx' (if is_zero fill then zero else add zero fill)) |}.
Proof.
  unfold zeros. cbn [shape rows]. destruct (is_zero fill); cbn [negb]; [reflexivity|].
  f_equal.
  change (map (map (fun v => add v fill)))
    with (fmap (M := list) (fmap (M := list) (fun v => add v fill))).
  now rewrite !fmap_replicate.
Qed.

Lemma background_ok (ny' nx' : nat) (x : A) :
  array2_ok {| shape := (ny', nx'); rows := replicate ny' (replicate nx' x) |} = true.
Proof.
  apply array2_ok_spec. cbn [shape rows fst snd]. split; [apply length_replicate|].
  apply Forall_replicate, length_replicate.
Qed.

Lemma background_entry (ny' nx' : nat) (x : A) (j i : nat) :
  (j < ny')%nat -> (i < nx')%nat ->
  entry {| shape := (ny', nx'); rows := replicate ny' (replicate nx' x) |} j i = Some x.
Proof.
  intros Hj Hi. unfold entry. cbn [rows].
  rewrite lookup_replicate_2 by exact Hj. now apply lookup_replicate_2.
Qed.

Lemma shifted_source_ok (a : array2 A) (b : bool) (dx dy : Z) (c : A) :
  array2_ok a = true ->
  shape (if b then fshift a dx dy true c else a) = shape a
  /\ array2_ok (if b then fshift a dx dy true c else a) = true.
Proof.
  intros Hok. destruct b; [|auto].
  destruct (fshift_pad_spec a dx dy c Hok) as (H1 & H2 & _). auto.
Qed.

(** The run of [pad_or_cut_to_size] for any target shape. *)
Lemma resize_run (a : array2 A) (ny' nx' : nat) (fill : A)
    (offsets : option (Z * Z)) :
  array2_ok a = true ->
  exists b,
    pad_or_cut_to_size zero add is_zero a (ShapeSeq [ny'; nx']) fill
      ((fun p => [fst p; snd p]) <$> offsets) = Ok b
    /\ shape b = (ny', nx')
    /\ array2_ok b = true.
Proof.
  intros Hok. unfold pad_or_cut_to_size.
  destruct (shape a) as [ny nx] eqn:Hs.
  rewrite bool_decide_eq_false_2 by discriminate. cbn [andb].
  rewrite filled_output.
  set (bg := if is_zero fill then zero else add zero fill).
  set (out := {| shape := (ny', nx'); rows := replicate ny' (replicate nx' bg) |}).
  pose proof (background_ok ny' nx' bg) as Hout. fold out in Hout.
  assert (Hoff : exists ny_off nx_off,
            match (fun p : Z * Z => [fst p; snd p]) <$> offsets with
            | Some [ny_off; nx_off] => Ok (ny_off, nx_off)
            | Some _ => Raise (ValueError "offset_vals should have two values.")
            | None => Ok (0, 0)
            end = Ok (ny_off, nx_off)).
  { destruct offsets as [[dy dx]|]; cbn; eauto. }
  destruct Hoff as (ny_off & nx_off & ->).
  destruct (Nat.leb_spec nx nx') as [Hx|Hx], (Nat.leb_spec ny ny') as [Hy|Hy]; cbn [andb].
  - (* Case 1 *)
    rewrite (axis_bounds_grow nx nx'), (axis_bounds_grow ny ny') by lia. cbn [andb].
    destruct (assign_block_spec out a ((ny' - ny + 1) / 2) ((nx' - nx + 1) / 2) Hout Hok)
      as (b & Hb & Hsb & Hokb & _);
      [rewrite Hs; cbn [fst snd out shape]; now apply half_window_fits
      |rewrite Hs; cbn [fst snd out shape]; now apply half_window_fits|].
    rewrite Hs in Hb. cbn [fst snd] in Hb. rewrite Hb.
    destruct (fshift_pad_spec b nx_off ny_off fill Hokb) as (H1 & H2 & _).
    eexists. split; [reflexivity|]. split; [now rewrite H1, Hsb|exact H2].
  - (* Case 4 *)
    replace (Nat.leb nx' nx && Nat.leb ny' ny) with (Nat.leb nx' nx)
      by (replace (Nat.leb ny' ny) with true
            by (symmetry; apply Nat.leb_le; lia); now rewrite andb_true_r).
    rewrite (axis_bounds_grow nx nx'), (axis_bounds_shrink ny' ny) by lia. cbn [andb].
    destruct (Nat.leb_spec nx' nx) as [Hxx|Hxx].
    + (* equal widths: the crop of Case 2 *)
      assert (nx' = nx) by lia. subst nx'.
      destruct (shifted_source_ok a (negb (Z.eqb nx_off 0) || negb (Z.eqb ny_off 0))
                  nx_off ny_off fill Hok) as [Hss Hsok].
      set (src := if negb (Z.eqb nx_off 0) || negb (Z.eqb ny_off 0)
                  then fshift a nx_off ny_off true fill else a) in *.
      destruct (slice2_spec src ((ny - ny' + 1) / 2) ((ny - ny' + 1) / 2 + ny')
                  ((nx - nx + 1) / 2) ((nx - nx + 1) / 2 + nx) Hsok) as (H1 & H2 & _);
        [rewrite Hss, Hs; cbn [fst]; apply half_window_fits; lia
        |rewrite Hss, Hs; cbn [snd]; apply half_window_fits; lia|].
      exists (slice2 src ((ny - ny' + 1) / 2) ((ny - ny' + 1) / 2 + ny')
                ((nx - nx + 1) / 2) ((nx - nx + 1) / 2 + nx)).
      split; [unfold src; now destruct (negb (Z.eqb nx_off 0) || negb (Z.eqb ny_off 0))|].
      split; [rewrite H1; f_equal; lia|exact H2].
    + replace (Nat.leb ny ny') with false by (symmetry; apply Nat.leb_gt; lia).
      replace (Nat.leb nx nx') with true by (symmetry; apply Nat.leb_le; lia).
      replace (Nat.leb ny' ny) with true by (symmetry; apply Nat.leb_le; lia).
      cbn [andb].
      destruct (shifted_source_ok a (negb (Z.eqb ny_off 0)) 0 ny_off fill Hok)
        as [Hss Hsok].
      set (src := if negb (Z.eqb ny_off 0) then fshift a 0 ny_off true fill else a) in *.
      destruct (slice2_spec src ((ny - ny' + 1) / 2) ((ny - ny' + 1) / 2 + ny')
                  0 (snd (shape src)) Hsok) as (H1 & H2 & _);
        [rewrite Hss, Hs; cbn [fst]; apply half_window_fits; lia|lia|].
      set (blk := slice2 src ((ny - ny' + 1) / 2) ((ny - ny' + 1) / 2 + ny')
                    0 (snd (shape src))) in *.
      rewrite Hss, Hs in H1. cbn [snd] in H1.
      replace ((ny - ny' + 1) / 2 + ny' - (ny - ny' + 1) / 2)%nat with ny' in H1 by lia.
      rewrite Nat.sub_0_r in H1.
      destruct (assign_block_spec out blk 0 ((nx' - nx + 1) / 2) Hout H2)
        as (b & Hb & Hsb & Hokb & _);
        [rewrite H1; cbn [fst snd out shape]; lia
        |rewrite H1; cbn [fst snd out shape]; apply half_window_fits; lia|].
      rewrite H1 in Hb. cbn [fst snd Nat.add] in Hb.
      cbn [out shape fst]. rewrite Hb.
      destruct (fshift_pad_spec b nx_off 0 fill Hokb) as (H3 & H4 & _).
      eexists. split; [reflexivity|]. split; [now rewrite H3, Hsb|exact H4].
  - (* Case 3 *)
    rewrite (axis_bounds_shrink nx' nx), (axis_bounds_grow ny ny') by lia. cbn [andb].
    replace (Nat.leb nx' nx) with true by (symmetry; apply Nat.leb_le; lia).
    cbn [andb].
    destruct (Nat.leb_spec ny' ny) as [Hyy|Hyy].
    + (* equal heights: the crop of Case 2 *)
      assert (ny' = ny) by lia. subst ny'.
      destruct (shifted_source_ok a (negb (Z.eqb nx_off 0) || negb (Z.eqb ny_off 0))
                  nx_off ny_off fill Hok) as [Hss Hsok].
      set (src := if negb (Z.eqb nx_off 0) || negb (Z.eqb ny_off 0)
                  then fshift a nx_off ny_off true fill else a) in *.
      destruct (slice2_spec src ((ny - ny + 1) / 2) ((ny - ny + 1) / 2 + ny)
                  ((nx - nx' + 1) / 2) ((nx - nx' + 1) / 2 + nx') Hsok) as (H1 & H2 & _);
        [rewrite Hss, Hs; cbn [fst]; apply half_window_fits; lia
        |rewrite Hss, Hs; cbn [snd]; apply half_window_fits; lia|].
      exists (slice2 src ((ny - ny + 1) / 2) ((ny - ny + 1) / 2 + ny)
                ((nx - nx' + 1) / 2) ((nx - nx' + 1) / 2 + nx')).
      split; [unfold src; now destruct (negb (Z.eqb nx_off 0) || negb (Z.eqb ny_off 0))|].
      split; [rewrite H1; f_equal; lia|exact H2].
    + replace (Nat.leb ny ny') with true by (symmetry; apply Nat.leb_le; lia).
      destruct (shifted_source_ok a (negb (Z.eqb nx_off 0)) nx_off 0 fill Hok)
        as [Hss Hsok].
      set (src := if negb (Z.eqb nx_off 0) then fshift a nx_off 0 true fill else a) in *.
      destruct (slice2_spec src 0 (fst (shape src))
                  ((nx - nx' + 1) / 2) ((nx - nx' + 1) / 2 + nx') Hsok) as (H1 & H2 & _);
        [lia|rewrite Hss, Hs; cbn [snd]; apply half_window_fits; lia|].
      set (blk := slice2 src 0 (fst (shape src))
                    ((nx - nx' + 1) / 2) ((nx - nx' + 1) / 2 + nx')) in *.
      rewrite Hss, Hs in H1. cbn [fst] in H1.
      replace ((nx - nx' + 1) / 2 + nx' - (nx - nx' + 1) / 2)%nat with nx' in H1 by lia.
      rewrite Nat.sub_0_r in H1.
      destruct (assign_block_spec out blk ((ny' - ny + 1) / 2) 0 Hout H2)
        as (b & Hb & Hsb & Hokb & _);
        [rewrite H1; cbn [fst snd out shape]; apply half_window_fits; lia
        |rewrite H1; cbn [fst snd out shape]; lia|].
      rewrite H1 in Hb. cbn [fst snd Nat.add] in Hb.
      cbn [out shape snd]. rewrite Hb.
      destruct (fshift_pad_spec b 0 ny_off fill Hokb) as (H3 & H4 & _).
      eexists. split; [reflexivity|]. split; [now rewrite H3, Hsb|exact H4].
  - (* Case 2 *)
    rewrite (axis_bounds_shrink nx' nx), (axis_bounds_shrink ny' ny) by lia. cbn [andb].
    replace (Nat.leb nx' nx) with true by (symmetry; apply Nat.leb_le; lia).
    replace (Nat.leb ny' ny) with true by (symmetry; apply Nat.leb_le; lia).
    cbn [andb].
    destruct (shifted_source_ok a (negb (Z.eqb nx_off 0) || negb (Z.eqb ny_off 0))
                nx_off ny_off fill Hok) as [Hss Hsok].
    set (src := if negb (Z.eqb nx_off 0) || negb (Z.eqb ny_off 0)
                then fshift a nx_off ny_off true fill else a) in *.
    destruct (slice2_spec src ((ny - ny' + 1) / 2) ((ny - ny' + 1) / 2 + ny')
                ((nx - nx' + 1) / 2) ((nx - nx' + 1) / 2 + nx') Hsok) as (H1 & H2 & _);
      [rewrite Hss, Hs; cbn [fst]; apply half_window_fits; lia
      |rewrite Hss, Hs; cbn [snd]; apply half_window_fits; lia|].
    exists (slice2 src ((ny - ny' + 1) / 2) ((ny - ny' + 1) / 2 + ny')
              ((nx - nx' + 1) / 2) ((nx - nx' + 1) / 2 + nx')).
    split; [unfold src; now destruct (negb (Z.eqb nx_off 0) || negb (Z.eqb ny_off 0))|].
    split; [rewrite H1; f_equal; lia|exact H2].
Qed.
(** X10.  Whatever the requested shape, the fill value and the whole-pixel
    offsets, resizing a well-formed 2-D array succeeds and returns a
    well-formed array of exactly the requested shape. *)
Theorem pad_or_cut_to_size_shape (a : array2 A) (ny' nx' : nat) (fill : A)
    (offsets : option (Z * Z)) :
  array2_ok a = true ->
  exists b,
    pad_or_cut_to_size zero add is_zero a (ShapeSeq [ny'; nx']) fill
      ((fun p => [fst p; snd p]) <$> offsets) = Ok b
    /\ shape b = (ny', nx')
    /\ array2_ok b = true.
Proof. exact (resize_run a ny' nx' fill offsets). Qed.
End resize_theorems.

Section resize_entries.
Context {A : Type} (zero : A) (add : A -> A -> A) (is_zero : A -> bool).

(** The run of [pad_or_cut_to_size] that pads on both axes, without
    offsets. *)
Lemma pad_run (a : array2 A) (ny' nx' : nat) (fill : A) :
  array2_ok a = true ->
  (fst (shape a) <= ny')%nat -> (snd (shape a) <= nx')%nat ->
  let m0 := ((ny' - fst (shape a) + 1) / 2)%nat in
  let n0 := ((nx' - snd (shape a) + 1) / 2)%nat in
  exists b,
    pad_or_cut_to_size zero add is_zero a (ShapeSeq [ny'; nx']) fill None = Ok b
    /\ shape b = (ny', nx')
    /\ array2_ok b = true
    /\ forall j i : nat, (j < ny')%nat -> (i < nx')%nat ->
         entry b j i =
           if Nat.leb m0 j && Nat.ltb j (m0 + fst (shape a))
              && Nat.leb n0 i && Nat.ltb i (n0 + snd (shape a))
           then entry a (j - m0) (i - n0)
           else Some (if is_zero fill then zero else add zero fill).
Proof.
  intros Hok Hy Hx m0 n0. unfold pad_or_cut_to_size.
  destruct (shape a) as [ny nx] eqn:Hs. cbn [fst snd] in *.
  rewrite bool_decide_eq_false_2 by discriminate. cbn [andb].
  rewrite filled_output.
  set (bg := if is_zero fill then zero else add zero fill).
  set (out := {| shape := (ny', nx'); rows := replicate ny' (replicate nx' bg) |}).
  pose proof (background_ok ny' nx' bg) as Hout. fold out in Hout.
  rewrite (axis_bounds_grow nx nx'), (axis_bounds_grow ny ny') by lia.
  replace (Nat.leb nx nx') with true by (symmetry; apply Nat.leb_le; lia).
  replace (Nat.leb ny ny') with true by (symmetry; apply Nat.leb_le; lia).
  cbn [andb]. fold m0 n0.
  destruct (assign_block_spec out a m0 n0 Hout Hok) as (b & Hb & Hsb & Hokb & Hent);
    [rewrite Hs; cbn [fst snd out shape]; now apply half_window_fits
    |rewrite Hs; cbn [fst snd out shape]; now apply half_window_fits|].
  rewrite Hs in Hb, Hent. cbn [fst snd out shape] in Hb, Hent. rewrite Hb.
  exists b. split; [reflexivity|]. split; [exact Hsb|]. split; [exact Hokb|].
  intros j i Hj Hi. rewrite (Hent j i Hj Hi).
  destruct (_ && _); [reflexivity|]. now apply background_entry.
Qed.

Lemma same_shape_run (a : array2 A) (fill : A) :
  array2_ok a = true ->
  pad_or_cut_to_size zero add is_zero a
    (ShapeSeq [fst (shape a); snd (shape a)]) fill None = Ok a.
Proof.
  intros Hok.
  destruct (pad_run a (fst (shape a)) (snd (shape a)) fill Hok)
    as (b & Hb & Hsb & Hokb & Hent); [lia|lia|].
  rewrite Hb. f_equal. apply array2_ext; [exact Hokb|exact Hok| |].
  - rewrite Hsb. now destruct (shape a).
  - rewrite Hsb. cbn [fst snd]. intros j i Hj Hi. rewrite (Hent j i Hj Hi).
    rewrite !Nat.sub_diag. cbn [Nat.add Nat.div Nat.divmod fst Nat.leb andb].
    destruct (Nat.ltb_spec j (fst (shape a))); [|lia].
    destruct (Nat.ltb_spec i (snd (shape a))); [|lia].
    cbn [andb]. now rewrite !Nat.sub_0_r.
Qed.

(** X11.  Resizing an array to the shape it already has returns an equal
    array, whatever the fill value: the shortcut for equal shapes is never
    taken (it compares the shape [(1, ny, nx)] with [(ny, nx)]), and the
    general path copies the array over the whole output. *)
Theorem pad_or_cut_to_size_same_shape (a : array2 A) (fill : A) :
  array2_ok a = true ->
  bool_decide ([1%nat; fst (shape a); snd (shape a)] = [fst (shape a); snd (shape a)]) = false
  /\ pad_or_cut_to_size zero add is_zero a
       (ShapeSeq [fst (shape a); snd (shape a)]) fill None = Ok a.
Proof.
  intros Hok. split; [apply bool_decide_eq_false_2; discriminate|].
  now apply same_shape_run.
Qed.

(** X12.  Padding centres the array: it occupies the rows from
    [(ny' - ny + 1) / 2] and the columns from [(nx' - nx + 1) / 2] (when a
    difference is odd the extra line goes before the array), and every
    entry outside that window is the fill value added to zero. *)
Theorem pad_or_cut_to_size_pad_entries (a : array2 A) (ny' nx' : nat) (fill : A) :
  array2_ok a = true ->
  (fst (shape a) <= ny')%nat -> (snd (shape a) <= nx')%nat ->
  let m0 := ((ny' - fst (shape a) + 1) / 2)%nat in
  let n0 := ((nx' - snd (shape a) + 1) / 2)%nat in
  exists b,
    pad_or_cut_to_size zero add is_zero a (ShapeSeq [ny'; nx']) fill None = Ok b
    /\ forall j i : nat, (j < ny')%nat -> (i < nx')%nat ->
         entry b j i =
           if Nat.leb m0 j && Nat.ltb j (m0 + fst (shape a))
              && Nat.leb n0 i && Nat.ltb i (n0 + snd (shape a))
           then entry a (j - m0) (i - n0)
           else Some (if is_zero fill then zero else add zero fill).
Proof.
  intros Hok Hy Hx m0 n0.
  destruct (pad_run a ny' nx' fill Hok Hy Hx) as (b & Hb & _ & _ & Hent).
  exists b. split; [exact Hb|exact Hent].
Qed.

(** The run that crops on both axes, without offsets. *)
Lemma crop_run (a : array2 A) (ny' nx' : nat) (fill : A) :
  array2_ok a = true ->
  (ny' <= fst (shape a))%nat -> (nx' <= snd (shape a))%nat ->
  let m0 := ((fst (shape a) - ny' + 1) / 2)%nat in
  let n0 := ((snd (shape a) - nx' + 1) / 2)%nat in
  exists b,
    pad_or_cut_to_size zero add is_zero a (ShapeSeq [ny'; nx']) fill None = Ok b
    /\ shape b = (ny', nx')
    /\ array2_ok b = true
    /\ forall j i : nat, (j < ny')%nat -> (i < nx')%nat ->
         entry b j i = entry a (m0 + j) (n0 + i).
Proof.
  intros Hok Hy Hx m0 n0.
  destruct (Nat.eq_dec ny' (fst (shape a))) as [Ey|Ny],
           (Nat.eq_dec nx' (snd (shape a))) as [Ex|Nx].
  1:{ (* nothing to crop *)
      subst ny' nx'. exists a.
      split; [apply same_shape_run, Hok|].
      split; [now destruct (shape a)|]. split; [exact Hok|].
      intros j i _ _. subst m0 n0. rewrite !Nat.sub_diag. reflexivity. }
  all: unfold pad_or_cut_to_size;
    destruct (shape a) as [ny nx] eqn:Hs; cbn [fst snd] in *;
    rewrite bool_decide_eq_false_2 by discriminate; cbn [andb];
    rewrite filled_output;
    rewrite (axis_bounds_shrink nx' nx), (axis_bounds_shrink ny' ny) by lia;
    replace (Nat.leb nx nx' && Nat.leb ny ny') with false
      by (symmetry; apply andb_false_iff; rewrite !Nat.leb_gt; lia);
    replace (Nat.leb nx' nx) with true by (symmetry; apply Nat.leb_le; lia);
    replace (Nat.leb ny' ny) with true by (symmetry; apply Nat.leb_le; lia);
    cbn [andb Z.eqb negb orb]; fold m0 n0;
    (destruct (slice2_spec a m0 (m0 + ny') n0 (n0 + nx') Hok) as (H1 & H2 & H3);
      [rewrite Hs; cbn [fst]; apply half_window_fits; lia
      |rewrite Hs; cbn [snd]; apply half_window_fits; lia|]);
    eexists; (split; [reflexivity|]);
    (split; [rewrite H1; f_equal; lia|]); (split; [exact H2|]);
    intros j i Hj Hi; apply H3; lia.
Qed.

(** X13.  Cropping keeps the centred window: entry [(j, i)] of the result is
    entry [(j + (ny - ny' + 1) / 2, i + (nx - nx' + 1) / 2)] of the array;
    when a difference is odd, one more line is dropped before the window
    than after it. *)
Theorem pad_or_cut_to_size_crop_entries (a : array2 A) (ny' nx' : nat) (fill : A) :
  array2_ok a = true ->
  (ny' <= fst (shape a))%nat -> (nx' <= snd (shape a))%nat ->
  exists b,
    pad_or_cut_to_size zero add is_zero a (ShapeSeq [ny'; nx']) fill None = Ok b
    /\ shape b = (ny', nx')
    /\ forall j i : nat, (j < ny')%nat -> (i < nx')%nat ->
         entry b j i = entry a ((fst (shape a) - ny' + 1) / 2 + j)
                               ((snd (shape a) - nx' + 1) / 2 + i).
Proof.
  intros Hok Hy Hx.
  destruct (crop_run a ny' nx' fill Hok Hy Hx) as (b & Hb & Hsb & _ & Hent).
  exists b. split; [exact Hb|]. split; [exact Hsb|exact Hent].
Qed.

Lemma half_sum (d1 d2 : nat) :
  Nat.even d1 || Nat.even d2 = true ->
  ((d1 + 1) / 2 + (d2 + 1) / 2 = (d1 + d2 + 1) / 2)%nat.
Proof.
  intros H. apply orb_true_iff in H as [H|H]; apply Nat.even_spec in H as [k ->].
  - replace (2 * k + 1)%nat with (1 + k * 2)%nat by lia.
    replace (2 * k + d2 + 1)%nat with (d2 + 1 + k * 2)%nat by lia.
    rewrite !Nat.div_add by lia. cbn [Nat.div Nat.divmod fst]. lia.
  - replace (2 * k + 1)%nat with (1 + k * 2)%nat by lia.
    replace (d1 + 2 * k + 1)%nat with (d1 + 1 + k * 2)%nat by lia.
    rewrite !Nat.div_add by lia. cbn [Nat.div Nat.divmod fst]. lia.
Qed.

(** X14.  Two successive crops give the same array as the direct crop to
    the final shape, provided that on each axis at most one of the two
    size reductions is odd.  (With two odd reductions the windows differ
    by one line: see [crop_twice_odd].) *)
Theorem pad_or_cut_to_size_crop_twice (a : array2 A) (ny1 nx1 ny2 nx2 : nat) (fill : A) :
  array2_ok a = true ->
  (ny2 <= ny1 <= fst (shape a))%nat -> (nx2 <= nx1 <= snd (shape a))%nat ->
  Nat.even (fst (shape a) - ny1) || Nat.even (ny1 - ny2) = true ->
  Nat.even (snd (shape a) - nx1) || Nat.even (nx1 - nx2) = true ->
  res_bind (pad_or_cut_to_size zero add is_zero a (ShapeSeq [ny1; nx1]) fill None)
           (fun b => pad_or_cut_to_size zero add is_zero b (ShapeSeq [ny2; nx2]) fill None)
  = pad_or_cut_to_size zero add is_zero a (ShapeSeq [ny2; nx2]) fill None.
Proof.
  intros Hok Hy Hx Hey Hex.
  destruct (crop_run a ny1 nx1 fill Hok) as (b & Hb & Hsb & Hokb & Hentb); [lia|lia|].
  destruct (crop_run b ny2 nx2 fill Hokb) as (c & Hc & Hsc & Hokc & Hentc);
    [rewrite Hsb; cbn; lia|rewrite Hsb; cbn; lia|].
  destruct (crop_run a ny2 nx2 fill Hok) as (d & Hd & Hsd & Hokd & Hentd); [lia|lia|].
  rewrite Hb. cbn [res_bind]. rewrite Hc, Hd. f_equal.
  apply array2_ext; [exact Hokc|exact Hokd|congruence|].
  rewrite Hsc. cbn [fst snd]. intros j i Hj Hi.
  rewrite (Hentc j i Hj Hi), (Hentd j i Hj Hi), Hsb. cbn [fst snd].
  rewrite Hentb.
  - pose proof (half_sum _ _ Hey) as Ey. pose proof (half_sum _ _ Hex) as Ex.
    replace (fst (shape a) - ny1 + (ny1 - ny2))%nat with (fst (shape a) - ny2)%nat in Ey by lia.
    replace (snd (shape a) - nx1 + (nx1 - nx2))%nat with (snd (shape a) - nx2)%nat in Ex by lia.
    f_equal; lia.
  - pose proof (half_window_fits ny2 ny1). lia.
  - pose proof (half_window_fits nx2 nx1). lia.
Qed.
End resize_entries.

Example crop_twice_odd :
  let a := {| shape := (1%nat, 5%nat); rows := [[1; 2; 3; 4; 5]] |} in
  res_bind (pad_or_cut_to_size 0 Z.add (Z.eqb 0) a (ShapeSeq [1%nat; 4%nat]) 0 None)
           (fun b => pad_or_cut_to_size 0 Z.add (Z.eqb 0) b (ShapeSeq [1%nat; 3%nat]) 0 None)
  = Ok {| shape := (1%nat, 3%nat); rows := [[3; 4; 5]] |}
  /\ pad_or_cut_to_size 0 Z.add (Z.eqb 0) a (ShapeSeq [1%nat; 3%nat]) 0 None
     = Ok {| shape := (1%nat, 3%nat); rows := [[2; 3; 4]] |}.
Proof. vm_compute. split; reflexivity. Qed.

Lemma pad_or_cut_to_size_shape_witness :
  let a := {| shape := (2%nat, 3%nat); rows := [[1; 2; 3]; [4; 5; 6]] |} in
  array2_ok a = true
  /\ exists b,
       pad_or_cut_to_size 0 Z.add (Z.eqb 0) a (ShapeSeq [4%nat; 2%nat]) 7 (Some [1; -1]) = Ok b
       /\ shape b = (4%nat, 2%nat).
Proof.
  intros a. assert (H : array2_ok a = true) by reflexivity.
  split; [exact H|].
  destruct (pad_or_cut_to_size_shape 0 Z.add (Z.eqb 0) a 4 2 7 (Some (1, -1)) H)
    as (b & Hb & Hs & _).
  exists b. split; [exact Hb|exact Hs].
Defined.

Lemma pad_or_cut_to_size_same_shape_witness :
  let a := {| shape := (2%nat, 3%nat); rows := [[1; 2; 3]; [4; 5; 6]] |} in
  array2_ok a = true
  /\ pad_or_cut_to_size 0 Z.add (Z.eqb 0) a (ShapeSeq [2%nat; 3%nat]) 9 None = Ok a.
Proof.
  intros a. assert (H : array2_ok a = true) by reflexivity.
  split; [exact H|].
  exact (proj2 (pad_or_cut_to_size_same_shape 0 Z.add (Z.eqb 0) a 9 H)).
Defined.

Lemma pad_or_cut_to_size_pad_entries_witness :
  let a := {| shape := (1%nat, 2%nat); rows := [[5; 6]] |} in
  array2_ok a = true /\ (1 <= 2)%nat /\ (2 <= 5)%nat
  /\ exists b,
       pad_or_cut_to_size 0 Z.add (Z.eqb 0) a (ShapeSeq [2%nat; 5%nat]) 7 None = Ok b
       /\ entry b 1 2 = Some 5 /\ entry b 0 2 = Some 7.
Proof.
  intros a. assert (H : array2_ok a = true) by reflexivity.
  assert (H1 : (fst (shape a) <= 2)%nat) by (simpl; lia).
  assert (H2 : (snd (shape a) <= 5)%nat) by (simpl; lia).
  split; [exact H|]. split; [exact H1|]. split; [exact H2|].
  destruct (pad_or_cut_to_size_pad_entries 0 Z.add (Z.eqb 0) a 2 5 7 H H1 H2)
    as (b & Hb & Hent).
  exists b. split; [exact Hb|]. split.
  - exact (Hent 1%nat 2%nat ltac:(lia) ltac:(lia)).
  - exact (Hent 0%nat 2%nat ltac:(lia) ltac:(lia)).
Defined.

Lemma pad_or_cut_to_size_crop_entries_witness :
  let a := {| shape := (1%nat, 5%nat); rows := [[1; 2; 3; 4; 5]] |} in
  array2_ok a = true /\ (1 <= 1)%nat /\ (4 <= 5)%nat
  /\ exists b,
       pad_or_cut_to_size 0 Z.add (Z.eqb 0) a (ShapeSeq [1%nat; 4%nat]) 0 None = Ok b
       /\ entry b 0 0 = Some 2.
Proof.
  intros a. assert (H : array2_ok a = true) by reflexivity.
  assert (H1 : (1 <= fst (shape a))%nat) by (simpl; lia).
  assert (H2 : (4 <= snd (shape a))%nat) by (simpl; lia).
  split; [exact H|]. split; [exact H1|]. split; [exact H2|].
  destruct (pad_or_cut_to_size_crop_entries 0 Z.add (Z.eqb 0) a 1 4 0 H H1 H2)
    as (b & Hb & _ & Hent).
  exists b. split; [exact Hb|].
  exact (Hent 0%nat 0%nat ltac:(lia) ltac:(lia)).
Defined.

Lemma pad_or_cut_to_size_crop_twice_witness :
  let a := {| shape := (1%nat, 6%nat); rows := [[1; 2; 3; 4; 5; 6]] |} in
  array2_ok a = true
  /\ res_bind (pad_or_cut_to_size 0 Z.add (Z.eqb 0) a (ShapeSeq [1%nat; 4%nat]) 0 None)
        (fun b => pad_or_cut_to_size 0 Z.add (Z.eqb 0) b (ShapeSeq [1%nat; 3%nat]) 0 None)
     = pad_or_cut_to_size 0 Z.add (Z.eqb 0) a (ShapeSeq [1%nat; 3%nat]) 0 None.
Proof.
  intros a. assert (H : array2_ok a = true) by reflexivity.
  split; [exact H|].
  apply (pad_or_cut_to_size_crop_twice 0 Z.add (Z.eqb 0) a 1 4 1 3 0 H);
    simpl; try lia; reflexivity.
Defined.

(** ** Number of wavelengths *)

Lemma py_int_at_least (q : Q) (n : Z) :
  0 <= n -> Qle_bool (inject_Z n) q = true -> n <= py_int q.
Proof.
  intros Hn H. apply Qle_bool_iff in H. destruct q as [a d].
  unfold Qle in H. cbn in H. unfold py_int. cbn [Qnum Qden].
  rewrite Z.quot_div_nonneg by lia. apply Z.div_le_lower_bound; lia.
Qed.

(** X16.  Whatever the user stored in [_npsf] and [_ndeg] and whatever the
    bandpass, the number of monochromatic PSFs is at least 5 and exceeds
    the degree of the polynomial fit. *)
Theorem npsf_bounds (self : instrument) (_npsf : option Q) (wave_min wave_max : Q) :
  5 <= npsf self _npsf wave_min wave_max
  /\ ndeg self < npsf self _npsf wave_min wave_max.
Proof.
  unfold npsf.
  set (n := match _npsf with Some n => n | None => _ end).
  assert (H5 : 5 <= (if negb (Qle_bool 5%Q n) then 5 else py_int n)).
  { destruct (Qle_bool 5%Q n) eqn:E; cbn [negb]; [|lia].
    apply (py_int_at_least n 5); [lia|exact E]. }
  destruct (Z.leb_spec (if negb (Qle_bool 5%Q n) then 5 else py_int n) (ndeg self)); lia.
Qed.

(** ** Validated settings, continued *)

Lemma py_in_bools (v : pyval) :
  py_in v [PBool true; PBool false] = true
  <-> (exists b, v = PBool b) \/ v = PInt 1 \/ v = PInt 0.
Proof.
  unfold py_in. cbn [existsb]. rewrite orb_false_r. split.
  - destruct v as [|b|n|s]; cbn; try discriminate.
    + intros _. left. eauto.
    + destruct n as [|[p|p|]|p]; cbn; try discriminate; auto.
  - intros [[b ->]|[->| ->]]; [destruct b|..]; reflexivity.
Qed.

Lemma check_list_raises (value : pyval) (r : ref) (vn : option string) (h : store)
    (l : list pyval) :
  h !! r = Some l -> py_in value l = false ->
  exists msg, fst (_check_list value r vn h) = Raise (ValueError msg).
Proof.
  intros Hl Hin. unfold _check_list, bind, deref, modify, raise, ret. rewrite Hl.
  simpl. rewrite Hin. simpl.
  destruct (py_in PNone l); simpl; eauto.
Qed.

(** X17.  The [quick] setter accepts [True], [False] and, because Python
    compares them equal, the integers [1] and [0], and stores the value as
    given.  [None], a string and any other integer are refused with
    [ValueError] and leave the object as it was. *)
Theorem quick_setter_accepts (value : pyval) (w : store * instrument) :
  ((exists b, value = PBool b) \/ value = PInt 1 \/ value = PInt 0 ->
   fst (quick_setter value w) = Ok tt
   /\ snd (snd (quick_setter value w)) = set_quick value (snd w)
   /\ quick (snd (snd (quick_setter value w))) = value)
  /\ (value = PNone \/ (exists s, value = PStr s)
      \/ (exists n, value = PInt n /\ n <> 1 /\ n <> 0) ->
      (exists msg, fst (quick_setter value w) = Raise (ValueError msg))
      /\ snd (snd (quick_setter value w)) = snd w).
Proof.
  destruct w as [h self].
  assert (Hl : (<[fresh (dom h) := [PBool true; PBool false]]> h : store) !! fresh (dom h)
               = Some [PBool true; PBool false]) by apply lookup_insert_eq.
  unfold quick_setter, bind, on_store, alloc_list, modify. cbn [fst snd].
  split.
  - intros Hv. apply py_in_bools in Hv.
    rewrite (check_list_accepts _ _ _ _ _ Hl Hv). cbn [fst snd].
    split; [reflexivity|]. split; [reflexivity|].
    unfold quick. cbn [_quick set_quick].
    apply py_in_bools in Hv. destruct Hv as [[b ->]|[->| ->]]; reflexivity.
  - intros Hv.
    assert (Hin : py_in value [PBool true; PBool false] = false).
    { destruct (py_in value _) eqn:E; [|reflexivity]. apply py_in_bools in E.
      destruct Hv as [->|[[s ->]|(n & -> & Hn1 & Hn0)]];
        destruct E as [[b E]|[E|E]]; try discriminate; congruence. }
    match goal with |- context [_check_list ?v ?r ?n ?hh] =>
      destruct (check_list_raises v r n hh _ Hl Hin) as [msg Hmsg];
      pose proof (check_list_rejects_no_None v r n hh _ Hl Hin eq_refl) as Hsnd;
      destruct (_check_list v r n hh) as [rr h']
    end.
    cbn [fst snd] in *. subst rr h'. cbn [fst snd]. split; [eauto|reflexivity].
Qed.

Lemma quick_setter_accepts_witness :
  let w : store * instrument := (∅, nircam0) in
  ((exists b, PInt 1 = PBool b) \/ PInt 1 = PInt 1 \/ PInt 1 = PInt 0)
  /\ fst (quick_setter (PInt 1) w) = Ok tt
  /\ quick (snd (snd (quick_setter (PInt 1) w))) = PInt 1
  /\ (PInt 2 = PNone \/ (exists s, PInt 2 = PStr s)
      \/ (exists n, PInt 2 = PInt n /\ n <> 1 /\ n <> 0))
  /\ (exists msg, fst (quick_setter (PInt 2) w) = Raise (ValueError msg))
  /\ snd (snd (quick_setter (PInt 2) w)) = snd w.
Proof.
  intros w.
  assert (H : (exists b, PInt 1 = PBool b) \/ PInt 1 = PInt 1 \/ PInt 1 = PInt 0)
    by (right; left; reflexivity).
  assert (H' : PInt 2 = PNone \/ (exists s, PInt 2 = PStr s)
               \/ (exists n, PInt 2 = PInt n /\ n <> 1 /\ n <> 0)).
  { right; right. exists 2. split; [reflexivity|]. split; lia. }
  split; [exact H|].
  destruct (proj1 (quick_setter_accepts (PInt 1) w) H) as (H1 & _ & H3).
  split; [exact H1|]. split; [exact H3|]. split; [exact H'|].
  exact (proj2 (quick_setter_accepts (PInt 2) w) H').
Defined.

Lemma count_None_one (l : list pyval) :
  count_None l = 1%nat ->
  py_in PNone l = true /\ py_in PNone (<[index_None l := PStr "None"]> l) = false.
Proof.
  unfold count_None, py_in.
  induction l as [|v l IH]; cbn [List.filter existsb index_None]; [discriminate|].
  rewrite py_eq_None_l. destruct (py_eq v PNone) eqn:Hv.
  - cbn [length orb]. intros [= H]. split; [reflexivity|].
    cbn [insert list_insert existsb py_eq orb].
    clear IH. induction l as [|u l IH]; [reflexivity|].
    cbn [List.filter] in H. cbn [existsb]. rewrite py_eq_None_l.
    destruct (py_eq u PNone); [discriminate|]. cbn [orb]. now apply IH.
  - intros H. destruct (IH H) as [H1 H2]. cbn [orb]. split; [exact H1|].
    cbn [insert list_insert existsb]. rewrite py_eq_None_l, Hv. exact H2.
Qed.

(** X18.  A rejection spoils the list for [None]: when the list holds
    exactly one [None], which [_check_list] would accept, then after one
    rejected value the same list object no longer admits [None], and
    validating [None] against it raises [ValueError]. *)
Theorem check_list_rejection_forgets_None (h : store) (temp_list : ref) (l : list pyval)
    (value : pyval) (var_name var_name' : option string) :
  h !! temp_list = Some l ->
  py_in value l = false ->
  count_None l = 1%nat ->
  _check_list PNone temp_list var_name' h = (Ok tt, h)
  /\ exists msg,
       fst (_check_list PNone temp_list var_name'
              (snd (_check_list value temp_list var_name h)))
       = Raise (ValueError msg).
Proof.
  intros Hl Hin Hone. destruct (count_None_one l Hone) as [Hn Hgone].
  split; [now apply (check_list_accepts _ _ _ _ l)|].
  assert (Hafter : snd (_check_list value temp_list var_name h)
                   = <[temp_list := <[index_None l := PStr "None"]> l]> h).
  { unfold _check_list, bind, deref, modify, raise. rewrite Hl. simpl.
    rewrite Hin, Hn. reflexivity. }
  rewrite Hafter.
  apply (check_list_raises PNone temp_list var_name' _ (<[index_None l := PStr "None"]> l));
    [apply lookup_insert_eq|exact Hgone].
Qed.

Lemma check_list_rejection_forgets_None_witness :
  let h : store := {[ 3%nat := [PNone; PStr "CLEAR"] ]} in
  h !! 3%nat = Some [PNone; PStr "CLEAR"]
  /\ py_in (PStr "LYOT") [PNone; PStr "CLEAR"] = false
  /\ count_None [PNone; PStr "CLEAR"] = 1%nat
  /\ exists msg,
       fst (_check_list PNone 3%nat None (snd (_check_list (PStr "LYOT") 3%nat None h)))
       = Raise (ValueError msg).
Proof.
  intros h.
  assert (H1 : h !! 3%nat = Some [PNone; PStr "CLEAR"]) by reflexivity.
  assert (H2 : py_in (PStr "LYOT") [PNone; PStr "CLEAR"] = false) by reflexivity.
  assert (H3 : count_None [PNone; PStr "CLEAR"] = 1%nat) by reflexivity.
  split; [exact H1|]. split; [exact H2|]. split; [exact H3|].
  exact (proj2 (check_list_rejection_forgets_None h 3%nat _ (PStr "LYOT") None None H1 H2 H3)).
Defined.

(** ** Drift decomposition, continued *)



(** ** The bar offset of the wedge masks *)

(** X20.  On a [NIRCam_ext] object [gen_psf_coeff], called without a
    [bar_offset] argument, runs its simulation with
    [options['bar_offset'] = 0] whatever the option held.  When it returns,
    the option holds its former value ([None] if it was absent); when the
    simulation raises, the option is left at 0. *)
Theorem gen_psf_coeff_bar_offset (E : externals) (d : R) (w : world) :
  cls (inst w) = NIRCam_ext ->
  let rw := gen_psf_coeff E d w in
  let during := set_options (<["bar_offset" := ONum 0]> (options (inst w))) (inst w) in
  sims (snd rw) = sims w ++ [(during, d)]
  /\ fst rw = sim_psf_coeff E during d
  /\ (forall c, fst rw = Ok c ->
        options (inst (snd rw))
        = <["bar_offset" := default ONone (options (inst w) !! "bar_offset")]>
            (options (inst w)))
  /\ (forall e, fst rw = Raise e ->
        options (inst (snd rw)) = <["bar_offset" := ONum 0]> (options (inst w))).
Proof.
  intros Hcls rw during. subst rw.
  unfold gen_psf_coeff, bind, gets, set_option, upd_inst, modify, _gen_psf_coeff, ret.
  rewrite Hcls. cbn [inst sims log files fst snd]. fold during.
  destruct (sim_psf_coeff E during d) as [c|e]; cbn [fst snd inst sims options set_options].
  - split; [reflexivity|]. split; [reflexivity|]. split; [|discriminate].
    intros _ _. unfold during. cbn [options set_options]. apply insert_insert_eq.
  - split; [reflexivity|]. split; [reflexivity|]. split; [discriminate|].
    intros _ _. reflexivity.
Qed.

Lemma gen_psf_coeff_bar_offset_witness :
  let w := world_of (set_options (<["bar_offset" := ONum 2]> (options nircam_lwb)) nircam_lwb) in
  cls (inst w) = NIRCam_ext
  /\ options (inst w) !! "bar_offset" = Some (ONum 2)
  /\ exists s, sims (snd (gen_psf_coeff toy_externals 0 w)) = [s]
               /\ options (fst s) !! "bar_offset" = Some (ONum 0).
Proof.
  intros w. assert (H : cls (inst w) = NIRCam_ext) by reflexivity.
  split; [exact H|]. split; [reflexivity|].
  eexists. split; [exact (proj1 (gen_psf_coeff_bar_offset toy_externals 0 w H))|].
  reflexivity.
Defined.

Section bar_offset_frames.
Context {A B : Type}.

Lemma zb_quiet (m : M world A) :
  (forall w, cls (inst (snd (m w))) = cls (inst w) /\ sims (snd (m w)) = sims w) ->
  zero_bar_sims m.
Proof.
  intros H w Hw. destruct (H w) as [Hc Hs]. split; [congruence|].
  exists []. rewrite app_nil_r. split; [exact Hs|constructor].
Qed.

Lemma zb_ret (a : A) : zero_bar_sims (ret a : M world A).
Proof. apply zb_quiet. intros w. split; reflexivity. Qed.

Lemma zb_raise (e : exn) : zero_bar_sims (raise e : M world A).
Proof. apply zb_quiet. intros w. split; reflexivity. Qed.

Lemma zb_lift (r : res A) : zero_bar_sims (lift r : M world A).
Proof. apply zb_quiet. intros w. split; reflexivity. Qed.

Lemma zb_gets (f : world -> A) : zero_bar_sims (gets f).
Proof. apply zb_quiet. intros w. split; reflexivity. Qed.

Lemma zb_bind (m : M world A) (k : A -> M world B) :
  zero_bar_sims m -> (forall a, zero_bar_sims (k a)) -> zero_bar_sims (bind m k).
Proof.
  intros Hm Hk w Hw. unfold bind. specialize (Hm w Hw).
  destruct (m w) as [[a|e] w1]; cbn [snd] in *; [|exact Hm].
  destruct Hm as [Hc (new & Hs & Hall)].
  destruct (Hk a w1 Hc) as [Hc' (new' & Hs' & Hall')].
  split; [exact Hc'|]. exists (new ++ new'). split.
  - rewrite Hs', Hs. now rewrite app_assoc.
  - apply Forall_app. auto.
Qed.
End bar_offset_frames.

Lemma zb_emit (lvl : log_level) (msg : string) : zero_bar_sims (emit lvl msg).
Proof. apply zb_quiet. intros w. split; reflexivity. Qed.

Lemma zb_write_file (path : string) (content : list modval) :
  zero_bar_sims (write_file path content).
Proof. apply zb_quiet. intros w. split; reflexivity. Qed.

Lemma zb_upd_inst (f : instrument -> instrument) :
  (forall self, cls (f self) = cls self) -> zero_bar_sims (upd_inst f).
Proof. intros Hf. apply zb_quiet. intros w. split; [apply Hf|reflexivity]. Qed.

Lemma zb_for_each {X} (xs : list X) (body : X -> M world unit) :
  (forall x, zero_bar_sims (body x)) -> zero_bar_sims (for_each xs body).
Proof.
  intros Hb. induction xs as [|x xs IH]; cbn [for_each].
  - apply zb_ret.
  - apply zb_bind; [apply Hb|intros _; exact IH].
Qed.

Lemma zb_map_M {X Y} (f : X -> M world Y) (xs : list X) :
  (forall x, zero_bar_sims (f x)) -> zero_bar_sims (map_M f xs).
Proof.
  intros Hf. induction xs as [|x xs IH]; cbn [map_M].
  - apply zb_ret.
  - apply zb_bind; [apply Hf|]. intros y.
    apply zb_bind; [exact IH|]. intros ys. apply zb_ret.
Qed.

Lemma zb_gen_psf_coeff (E : externals) (d : R) : zero_bar_sims (gen_psf_coeff E d).
Proof.
  intros w Hw.
  unfold gen_psf_coeff, bind, gets, set_option, upd_inst, modify, _gen_psf_coeff, ret.
  rewrite Hw. cbn [inst sims log files fst snd].
  destruct (sim_psf_coeff E _ d) as [c|e]; cbn [fst snd inst sims cls set_options];
    (split; [exact Hw|]); eexists; (split; [reflexivity|]);
    repeat constructor; cbn [fst options set_options]; apply lookup_insert_eq.
Qed.

Ltac zb_steps :=
  repeat (intros;
    first
      [ apply zb_ret | apply zb_raise | apply zb_lift | apply zb_gets
      | apply zb_emit | apply zb_write_file | apply zb_gen_psf_coeff
      | apply zb_upd_inst; reflexivity
      | apply zb_bind | apply zb_for_each | apply zb_map_M
      | match goal with
        | |- zero_bar_sims (if ?b then _ else _) => destruct b
        | |- zero_bar_sims (match ?x with _ => _ end) => destruct x
        end ]).

Lemma zb_gen_wfedrift (E : externals) (force save : bool) (wfe_list : list R)
    (return_results return_raw : bool) :
  zero_bar_sims (_gen_wfedrift_coeff E force save wfe_list return_results return_raw).
Proof. unfold _gen_wfedrift_coeff, set_mod, set_option. zb_steps. Qed.

(** X21.  In the drift sweep of a [NIRCam_ext] object every simulation runs
    with [options['bar_offset'] = 0]: the value the method takes from the
    [BAROFF] card of the coefficient header is overwritten by each call of
    [gen_psf_coeff].  After the call, returned or raised, the option holds
    the value it had before ([None] if it was absent). *)
Theorem nircam_drift_sweep_bar_offset (E : externals) (force save : bool)
    (wfe_list : list R) (return_results return_raw : bool) (w : world) :
  cls (inst w) = NIRCam_ext ->
  let rw := gen_wfedrift_coeff E force save wfe_list return_results return_raw w in
  (exists new, sims (snd rw) = sims w ++ new
               /\ Forall (fun s => options (fst s) !! "bar_offset" = Some (ONum 0)) new)
  /\ options (inst (snd rw)) !! "bar_offset"
     = Some (default ONone (options (inst w) !! "bar_offset")).
Proof.
  intros Hcls rw. subst rw. unfold gen_wfedrift_coeff, bind, gets. cbn beta iota.
  rewrite Hcls.
  destruct (psf_coeff_header (inst w)) as [h|].
  - unfold set_option, upd_inst, modify.
    match goal with |- context [_gen_wfedrift_coeff _ _ _ _ _ _ ?w1] =>
      destruct (zb_gen_wfedrift E force save wfe_list return_results return_raw w1)
        as [_ (new & Hs & Hall)]; [exact Hcls|];
      destruct (_gen_wfedrift_coeff E force save wfe_list return_results return_raw w1)
        as [r w2]
    end.
    cbn [fst snd inst sims options set_options] in *. split.
    + exists new. auto.
    + apply lookup_insert_eq.
  - unfold emit, set_option, upd_inst, modify, ret.
    cbn [fst snd inst sims options set_options]. split.
    + exists []. rewrite app_nil_r. split; [reflexivity|constructor].
    + apply lookup_insert_eq.
Qed.

Lemma nircam_drift_sweep_bar_offset_witness :
  let h : header := [("BAROFF", (HNum 3, "Image mask shift along wedge (arcsec)"))] in
  let w := world_of (set_psf_coeff (Some (cube1 0)) (Some h) nircam_lwb) in
  cls (inst w) = NIRCam_ext
  /\ hdr_baroff h = OReal 3
  /\ exists new,
       sims (snd (gen_wfedrift_coeff toy_externals true false wfe_list_default false false w))
       = new
       /\ length new = 14%nat
       /\ Forall (fun s => options (fst s) !! "bar_offset" = Some (ONum 0)) new.
Proof.
  intros h w. assert (H : cls (inst w) = NIRCam_ext) by reflexivity.
  split; [exact H|]. split; [reflexivity|].
  destruct (nircam_drift_sweep_bar_offset toy_externals true false wfe_list_default
              false false w H) as [(new & Hs & Hall) _].
  exists new. split; [exact Hs|]. split; [|exact Hall].
  change (sims w) with (@nil (instrument * R)) in Hs. cbn [app] in Hs.
  rewrite <- Hs. vm_compute. reflexivity.
Defined.

(** ** The two position sweeps *)

(** X22.  The field-position sweep and the mask-position sweep exclude each
    other: with a coronagraphic mask in place the field sweep returns at
    once, without one the mask sweep does; the skipped sweep only logs why
    and changes neither the object nor the files, and simulates nothing. *)
Theorem position_sweeps_exclusive (E : externals) (force return_results return_raw : bool)
    (w : world) :
  let field := _gen_wfefield_coeff_resid E force return_results return_raw w in
  let mask := _gen_wfemask_coeff_resid E force return_results return_raw w in
  (is_coron (inst w) = true ->
     fst field = Ok FieldNone /\ inst (snd field) = inst w
     /\ sims (snd field) = sims w /\ files (snd field) = files w
     /\ log (snd field) <> log w)
  /\ (is_coron (inst w) = false ->
     fst mask = Ok MaskNone /\ inst (snd mask) = inst w
     /\ sims (snd mask) = sims w /\ files (snd mask) = files w
     /\ log (snd mask) <> log w).
Proof.
  assert (Hne : forall (l l' : list log_record), l' <> [] -> l ++ l' <> l).
  { intros l l' Hl' E'. apply Hl'. apply (app_inv_head l). now rewrite app_nil_r. }
  cbv zeta. split; intros Hc.
  - unfold _gen_wfefield_coeff_resid, bind, gets, emit, modify, ret.
    rewrite Hc, orb_true_r.
    destruct (include_si_wfe (inst w)); cbn [negb fst snd inst sims files log];
      (repeat split; [rewrite <- ?app_assoc; apply Hne; discriminate]).
  - unfold _gen_wfemask_coeff_resid, bind, gets, emit, modify, ret.
    rewrite Hc. cbn [negb fst snd inst sims files log].
    repeat split. rewrite <- app_assoc. apply Hne. discriminate.
Qed.

Lemma position_sweeps_exclusive_witness :
  is_coron (inst (world_of miri_fqpm)) = true
  /\ is_coron (inst (world_of nircam0)) = false
  /\ fst (_gen_wfefield_coeff_resid toy_externals true false false (world_of miri_fqpm))
     = Ok FieldNone
  /\ fst (_gen_wfemask_coeff_resid toy_externals true false false (world_of nircam0))
     = Ok MaskNone.
Proof.
  assert (H1 : is_coron (inst (world_of miri_fqpm)) = true) by reflexivity.
  assert (H2 : is_coron (inst (world_of nircam0)) = false) by reflexivity.
  split; [exact H1|]. split; [exact H2|]. split.
  - exact (proj1 (proj1 (position_sweeps_exclusive toy_externals true false false
                           (world_of miri_fqpm)) H1)).
  - exact (proj1 (proj2 (position_sweeps_exclusive toy_externals true false false
                           (world_of nircam0)) H2)).
Defined.

Lemma snap_sq_le (v : R) : (snap v ^ 2 <= v ^ 2)%R.
Proof.
  unfold snap. destruct (Rlt_dec (Rabs v) __epsilon).
  - replace (0 ^ 2)%R with 0%R by ring. apply pow2_ge_0.
  - lra.
Qed.

Lemma rotation_norm (x y a : R) :
  ((x * cos a - y * sin a) ^ 2 + (x * sin a + y * cos a) ^ 2 = x ^ 2 + y ^ 2)%R.
Proof.
  pose proof (sin2_cos2 a) as H. unfold Rsqr in H.
  replace ((x * cos a - y * sin a) ^ 2 + (x * sin a + y * cos a) ^ 2)%R
    with ((x ^ 2 + y ^ 2) * (sin a * sin a + cos a * cos a))%R by ring.
  rewrite H. ring.
Qed.

Lemma snap_sq_ge (v : R) : (v ^ 2 - __epsilon ^ 2 <= snap v ^ 2)%R.
Proof.
  unfold snap. pose proof epsilon_pos as He.
  destruct (Rlt_dec (Rabs v) __epsilon) as [Hlt|_].
  - pose proof (Rabs_pos v) as Hp.
    assert (H : (Rabs v ^ 2 < __epsilon ^ 2)%R) by nra.
    rewrite pow2_abs in H. lra.
  - nra.
Qed.

Lemma epsilon_small : (__epsilon < 0.001)%R.
Proof.
  unfold __epsilon.
  assert (H : (1000 < 2 ^ 52)%R) by (simpl; lra).
  replace 0.001%R with (/ 1000)%R by lra.
  apply Rinv_lt_contravar; [|exact H].
  apply Rmult_lt_0_compat; lra.
Qed.

(** X23.  A single position in the 'sci' frame is keyed by its offset
    from the aperture reference, whatever the instrument rotation (the
    rotation into the mask frame keeps the length of the offset, and the
    snap to zero changes it by less than machine epsilon): an offset of at
    most 0.09 arcsec selects the on-axis drift model 'wfe_drift', one of at
    least 0.11 arcsec the off-axis model 'wfe_drift_off'; the object is
    left as it was. *)
Theorem wfe_drift_key_by_offset (E : externals) (x y : R) (frame apname : string)
    (ap : siaf_aperture) (w : world) :
  str_lower frame = "sci" ->
  aperturename (inst w) = Some apname ->
  siaf (inst w) !! apname = Some ap ->
  let roff := sqrt (((x - XSciRef ap) * XSciScale ap) ^ 2
                    + ((y - YSciRef ap) * YSciScale ap) ^ 2) in
  ((roff <= 0.09)%R ->
   _wfe_drift_key E (Some (Scalar x, Scalar y)) frame w = (Ok (KeyList ["wfe_drift"]), w))
  /\ ((0.11 <= roff)%R ->
      _wfe_drift_key E (Some (Scalar x, Scalar y)) frame w
      = (Ok (KeyList ["wfe_drift_off"]), w)).
Proof.
  intros Hf Hap Hs roff.
  assert (Hrun : exists u v,
             (u ^ 2 + v ^ 2 = ((x - XSciRef ap) * XSciScale ap) ^ 2
                              + ((y - YSciRef ap) * YSciScale ap) ^ 2)%R
             /\ _wfe_drift_key E (Some (Scalar x, Scalar y)) frame w
                = (Ok (KeyList [if (if Rlt_dec (sqrt (snap u ^ 2 + snap v ^ 2)) 0.1
                                    then true else false)
                                then "wfe_drift" else "wfe_drift_off"]), w)).
  { unfold _wfe_drift_key. cbv zeta. rewrite Hf, String.eqb_refl.
    unfold bind, gets, lift. cbn beta iota.
    unfold siaf_get. rewrite Hap. unfold dict_get. rewrite Hs.
    unfold mask_offsets. cbn [cmap]. rewrite xy_rot_scalar. cbn zeta.
    cbn [fst snd cmap2 np_size Nat.eqb]. unfold ret. cbn [map_res res_bind lt_tenth].
    eexists _, _. split; [|reflexivity].
    rewrite rotation_norm. ring. }
  destruct Hrun as (u & v & Hnorm & Hrun). rewrite Hrun.
  pose proof (snap_sq_le u) as Hu. pose proof (snap_sq_le v) as Hv.
  pose proof (snap_sq_ge u) as Hu'. pose proof (snap_sq_ge v) as Hv'.
  pose proof epsilon_pos as He. pose proof epsilon_small as He'.
  assert (Hsq : (0 <= u ^ 2 + v ^ 2)%R) by nra.
  assert (Hroff : (roff ^ 2 = u ^ 2 + v ^ 2)%R).
  { unfold roff. rewrite <- Hnorm. rewrite <- Rsqr_pow2. apply Rsqr_sqrt. exact Hsq. }
  assert (Hroff0 : (0 <= roff)%R) by apply sqrt_pos.
  split; intros Hr; destruct (Rlt_dec _ 0.1) as [Hlt|Hge]; try reflexivity; exfalso.
  - apply Hge. apply Rle_lt_trans with roff; [|lra].
    unfold roff. rewrite <- Hnorm. apply sqrt_le_1_alt. lra.
  - assert (H1 : (0.1 <= sqrt (snap u ^ 2 + snap v ^ 2))%R).
    { rewrite <- (sqrt_pow2 0.1) by lra. apply sqrt_le_1_alt. nra. }
    lra.
Qed.

Lemma wfe_drift_key_by_offset_witness :
  let ap := {| XSciRef := 160; YSciRef := 160; XSciScale := 0.063; YSciScale := 0.063;
               convert := fun _ _ _ _ => Raise (ValueError "frame") |} in
  let w := world_of (_init_inst NIRCam_ext None None None None ∅
                       {[ "NRCA5_SUB320" := ap ]} (Some "NRCA5_SUB320") (0%R, 0%R)) in
  _wfe_drift_key toy_externals (Some (Scalar 161, Scalar 160)) "SCI" w
  = (Ok (KeyList ["wfe_drift"]), w)
  /\ _wfe_drift_key toy_externals (Some (Scalar 170, Scalar 160)) "SCI" w
     = (Ok (KeyList ["wfe_drift_off"]), w).
Proof.
  intros ap w. split.
  - apply (wfe_drift_key_by_offset toy_externals 161 160 "SCI" "NRCA5_SUB320" ap w);
      try reflexivity.
    replace (((161 - XSciRef ap) * XSciScale ap) ^ 2
             + ((160 - YSciRef ap) * YSciScale ap) ^ 2)%R with (0.063 ^ 2)%R
      by (simpl; ring).
    rewrite sqrt_pow2 by lra. lra.
  - apply (wfe_drift_key_by_offset toy_externals 170 160 "SCI" "NRCA5_SUB320" ap w);
      try reflexivity.
    replace (((170 - XSciRef ap) * XSciScale ap) ^ 2
             + ((160 - YSciRef ap) * YSciScale ap) ^ 2)%R with (0.63 ^ 2)%R
      by (simpl; lra).
    rewrite sqrt_pow2 by lra. lra.
Defined.

Lemma map_res_Forall {X Y} (f : X -> res Y) (P : Y -> Prop) (l : list X) :
  Forall (fun x => exists y, f x = Ok y /\ P y) l ->
  exists l', map_res f l = Ok l' /\ length l' = length l /\ Forall P l'.
Proof.
  induction 1 as [|x l (y & Hy & HP) _ (l' & Hl & Hlen & Hall)]; cbn [map_res].
  - exists []. repeat split. constructor.
  - rewrite Hy, Hl. cbn [res_bind]. exists (y :: l'). repeat split.
    + cbn. now rewrite Hlen.
    + now constructor.
Qed.

Lemma cube_shape_planes (p : cube) :
  exists ny nx, drop 1 (cube_shape p) = [ny; nx].
Proof. destruct p as [|im p]; cbn; eauto. Qed.

(** X24.  A drift model whose cube does not match the stored coefficient cube
    in shape is resized plane by plane: the modification returned for a
    nonzero drift has as many planes as the model gives, each of the plane
    shape of the stored cube, and the object is left as it was. *)
Theorem coeff_mod_wfe_drift_resized (E : externals) (d : R) (key : string) (w : world)
    (p : cube) (cf_fit : list cube) (lxmap : modval) (cf_mod : cube) :
  d <> 0%R ->
  psf_coeff (inst w) = Some p ->
  _psf_coeff_mod (inst w) !! key = Some (MFit cf_fit) ->
  _psf_coeff_mod (inst w) !! "wfe_drift_lxmap" = Some lxmap ->
  jl_poly E d cf_fit lxmap = Ok cf_mod ->
  Forall (fun im => array2_ok im = true) cf_mod ->
  np_allclose_shape (cube_shape p) (cube_shape cf_mod) = Ok false ->
  exists c,
    _coeff_mod_wfe_drift E d key w = (Ok (ModCube c), w)
    /\ length c = length cf_mod
    /\ Forall (fun im => [fst (shape im); snd (shape im)] = drop 1 (cube_shape p)
                         /\ array2_ok im = true) c.
Proof.
  intros Hd Hp Hk Hlx Hjl Hok Hclose.
  destruct (cube_shape_planes p) as (ny & nx & Hsh).
  destruct (map_res_Forall (fun im => pad_or_cut_image im (ny, nx))
              (fun im => [fst (shape im); snd (shape im)] = [ny; nx]
                         /\ array2_ok im = true) cf_mod) as (c & Hc & Hlen & Hall).
  { eapply Forall_impl; [exact Hok|]. intros im Him. cbv beta in Him.
    destruct (resize_run 0%R Rplus Req_zero im ny nx 0%R None Him) as (b & Hb & Hs & Hb').
    exists b. split; [exact Hb|]. rewrite Hs. split; [reflexivity|exact Hb']. }
  exists c. split; [|split; [exact Hlen|rewrite Hsh; exact Hall]].
  unfold _coeff_mod_wfe_drift, bind, gets, lift.
  destruct (Req_dec_T d 0) as [->|_]; [contradiction|].
  unfold dict_get. rewrite Hk, Hlx, Hjl. unfold psf_coeff_shape. rewrite Hp, Hclose.
  cbn [negb]. rewrite Hsh. cbn [pad_mod]. rewrite Hc. reflexivity.
Qed.

Lemma coeff_mod_wfe_drift_resized_witness :
  let small : image := {| shape := (1%nat, 1%nat); rows := [[7%R]] |} in
  let big : image := {| shape := (3%nat, 3%nat); rows := [[0; 0; 0]; [0; 0; 0]; [0; 0; 0]]%R |} in
  let w := world_of (miri_fqpm_ready [big] [] (MFit [[small]]) (MVec [])) in
  exists c,
    _coeff_mod_wfe_drift toy_externals 2 "wfe_drift" w = (Ok (ModCube c), w)
    /\ length c = 1%nat
    /\ Forall (fun im => [fst (shape im); snd (shape im)] = [3%nat; 3%nat]
                         /\ array2_ok im = true) c.
Proof.
  intros small big w.
  apply (coeff_mod_wfe_drift_resized toy_externals 2 "wfe_drift" w [big] [[small]]
           (MVec []) [small]).
  - lra.
  - reflexivity.
  - reflexivity.
  - reflexivity.
  - reflexivity.
  - repeat constructor.
  - reflexivity.
Defined.

(** ** Aperture limits *)

Lemma foldl_Rmin_spec (tl : list R) (x : R) :
  foldl Rmin x tl ∈ x :: tl /\ forall y, y ∈ x :: tl -> (foldl Rmin x tl <= y)%R.
Proof.
  revert x. induction tl as [|z tl IH]; intros x; cbn [foldl].
  - split; [left|]. intros y Hy. apply list_elem_of_singleton in Hy. subst. lra.
  - destruct (IH (Rmin x z)) as [Hin Hle]. split.
    + apply elem_of_cons in Hin as [Hin|Hin].
      * rewrite Hin. unfold Rmin. destruct (Rle_dec x z); [left|right; left].
      * right; right; exact Hin.
    + intros y Hy.
      assert (Hm : (foldl Rmin (Rmin x z) tl <= Rmin x z)%R) by (apply Hle; left).
      apply elem_of_cons in Hy as [->|Hy].
      * pose proof (Rmin_l x z). lra.
      * apply elem_of_cons in Hy as [->|Hy].
        -- pose proof (Rmin_r x z). lra.
        -- apply Hle. right; exact Hy.
Qed.

Lemma foldl_Rmax_spec (tl : list R) (x : R) :
  foldl Rmax x tl ∈ x :: tl /\ forall y, y ∈ x :: tl -> (y <= foldl Rmax x tl)%R.
Proof.
  revert x. induction tl as [|z tl IH]; intros x; cbn [foldl].
  - split; [left|]. intros y Hy. apply list_elem_of_singleton in Hy. subst. lra.
  - destruct (IH (Rmax x z)) as [Hin Hle]. split.
    + apply elem_of_cons in Hin as [Hin|Hin].
      * rewrite Hin. unfold Rmax. destruct (Rle_dec x z); [right; left|left].
      * right; right; exact Hin.
    + intros y Hy.
      assert (Hm : (Rmax x z <= foldl Rmax (Rmax x z) tl)%R) by (apply Hle; left).
      apply elem_of_cons in Hy as [->|Hy].
      * pose proof (Rmax_l x z). lra.
      * apply elem_of_cons in Hy as [->|Hy].
        -- pose proof (Rmax_r x z). lra.
        -- apply Hle. right; exact Hy.
Qed.

Lemma Rlist_min_spec (l : list R) (lo : R) :
  Rlist_min l = Ok lo <-> lo ∈ l /\ forall y, y ∈ l -> (lo <= y)%R.
Proof.
  destruct l as [|x tl]; cbn [Rlist_min].
  - split; [discriminate|]. intros [H _]. inversion H.
  - destruct (foldl_Rmin_spec tl x) as [Hin Hle]. split.
    + intros [= <-]. split; assumption.
    + intros [Hin' Hle']. f_equal. apply Rle_antisym; auto.
Qed.

Lemma Rlist_max_spec (l : list R) (hi : R) :
  Rlist_max l = Ok hi <-> hi ∈ l /\ forall y, y ∈ l -> (y <= hi)%R.
Proof.
  destruct l as [|x tl]; cbn [Rlist_max].
  - split; [discriminate|]. intros [H _]. inversion H.
  - destruct (foldl_Rmax_spec tl x) as [Hin Hle]. split.
    + intros [= <-]. split; assumption.
    + intros [Hin' Hle']. f_equal. apply Rle_antisym; auto.
Qed.

Lemma Rsum_lower (l : list R) (lo : R) :
  (forall y, y ∈ l -> (lo <= y)%R) -> (INR (length l) * lo <= Rsum l)%R.
Proof.
  induction l as [|x l IH]; intros H.
  - cbn. lra.
  - change (Rsum (x :: l)) with (x + Rsum l)%R.
    change (length (x :: l)) with (S (length l)). rewrite S_INR.
    assert (lo <= x)%R by (apply H; left).
    assert (INR (length l) * lo <= Rsum l)%R by (apply IH; intros y Hy; apply H; now right).
    lra.
Qed.

Lemma Rsum_lower_strict (l : list R) (lo h : R) :
  (forall y, y ∈ l -> (lo <= y)%R) -> h ∈ l -> (lo < h)%R ->
  (INR (length l) * lo < Rsum l)%R.
Proof.
  induction l as [|x l IH]; intros H Hin Hlt.
  - inversion Hin.
  - change (Rsum (x :: l)) with (x + Rsum l)%R.
    change (length (x :: l)) with (S (length l)). rewrite S_INR.
    assert (lo <= x)%R by (apply H; left).
    apply elem_of_cons in Hin as [<-|Hin].
    + assert (INR (length l) * lo <= Rsum l)%R
        by (apply Rsum_lower; intros y Hy; apply H; now right).
      lra.
    + assert (INR (length l) * lo < Rsum l)%R
        by (apply IH; [intros y Hy; apply H; now right|assumption|assumption]).
      lra.
Qed.

Lemma Rsum_opp (l : list R) : Rsum (map Ropp l) = (- Rsum l)%R.
Proof.
  induction l as [|x l IH]; [cbn; lra|].
  change (Rsum (map Ropp (x :: l))) with (- x + Rsum (map Ropp l))%R.
  change (Rsum (x :: l)) with (x + Rsum l)%R. rewrite IH. ring.
Qed.

Lemma Rsum_upper_strict (l : list R) (hi h : R) :
  (forall y, y ∈ l -> (y <= hi)%R) -> h ∈ l -> (h < hi)%R ->
  (Rsum l < INR (length l) * hi)%R.
Proof.
  intros H Hin Hlt.
  pose proof (Rsum_lower_strict (map Ropp l) (- hi) (- h)) as Hs.
  rewrite Rsum_opp, length_map in Hs.
  assert (INR (length l) * - hi < - Rsum l)%R.
  { apply Hs.
    - intros y Hy. apply list_elem_of_fmap in Hy as (z & -> & Hz).
      specialize (H z Hz). lra.
    - apply list_elem_of_fmap. exists h. split; [reflexivity|assumption].
    - lra. }
  lra.
Qed.

Lemma np_mean_between (l : list R) (lo hi : R) :
  Rlist_min l = Ok lo -> Rlist_max l = Ok hi -> (lo < hi)%R ->
  (lo < np_mean l < hi)%R.
Proof.
  intros Hlo Hhi Hlt.
  apply Rlist_min_spec in Hlo as [Hlo_in Hlo]. apply Rlist_max_spec in Hhi as [Hhi_in Hhi].
  assert (Hn : (0 < INR (length l))%R).
  { apply lt_0_INR. destruct l; [inversion Hlo_in|cbn; lia]. }
  pose proof (Rsum_lower_strict l lo hi Hlo Hhi_in Hlt) as H1.
  pose proof (Rsum_upper_strict l hi lo Hhi Hlo_in Hlt) as H2.
  unfold np_mean. split.
  - apply Rmult_lt_reg_r with (INR (length l)); [exact Hn|].
    unfold Rdiv. rewrite Rmult_assoc, Rinv_l by lra. lra.
  - apply Rmult_lt_reg_r with (INR (length l)); [exact Hn|].
    unfold Rdiv. rewrite Rmult_assoc, Rinv_l by lra. lra.
Qed.

(** With a non-negative border the extremes of a non-constant array move
    outwards by the border. *)
Lemma add_border_extremes (border : R) (l : list R) (lo hi : R) :
  (0 <= border)%R ->
  Rlist_min l = Ok lo -> Rlist_max l = Ok hi -> (lo < hi)%R ->
  Rlist_min (add_border border l) = Ok (lo - border)%R
  /\ Rlist_max (add_border border l) = Ok (hi + border)%R.
Proof.
  intros Hb Hlo Hhi Hlt.
  destruct (np_mean_between l lo hi Hlo Hhi Hlt) as [Ha1 Ha2].
  apply Rlist_min_spec in Hlo as [Hlo_in Hlo]. apply Rlist_max_spec in Hhi as [Hhi_in Hhi].
  unfold add_border. cbv zeta. set (avg := np_mean l) in *.
  rewrite map_map.
  set (g := fun x : R =>
              if Rlt_dec avg (if Rlt_dec x avg then (x - border)%R else x)
              then ((if Rlt_dec x avg then (x - border)%R else x) + border)%R
              else if Rlt_dec x avg then (x - border)%R else x).
  assert (Hg : forall x, (lo <= x <= hi)%R -> (lo - border <= g x <= hi + border)%R).
  { intros x Hx. unfold g. destruct (Rlt_dec x avg);
      [destruct (Rlt_dec avg (x - border))|destruct (Rlt_dec avg x)]; lra. }
  assert (Hglo : g lo = (lo - border)%R).
  { unfold g. destruct (Rlt_dec lo avg); [|lra].
    destruct (Rlt_dec avg (lo - border)); [lra|reflexivity]. }
  assert (Hghi : g hi = (hi + border)%R).
  { unfold g. destruct (Rlt_dec hi avg); [lra|].
    destruct (Rlt_dec avg hi); [reflexivity|lra]. }
  split.
  - apply Rlist_min_spec. split.
    + rewrite <- Hglo. apply list_elem_of_fmap. exists lo. split; [reflexivity|assumption].
    + intros y Hy. apply list_elem_of_fmap in Hy as (x & -> & Hx).
      apply Hg. split; [apply Hlo|apply Hhi]; assumption.
  - apply Rlist_max_spec. split.
    + rewrite <- Hghi. apply list_elem_of_fmap. exists hi. split; [reflexivity|assumption].
    + intros y Hy. apply list_elem_of_fmap in Hy as (x & -> & Hx).
      apply Hg. split; [apply Hlo|apply Hhi]; assumption.
Qed.

Lemma add_border_nonempty (border : R) (l : list R) :
  l <> [] -> add_border border l <> [].
Proof. destruct l; [congruence|]. unfold add_border. cbn. discriminate. Qed.

Lemma Rlist_min_total (l : list R) : l <> [] -> exists lo, Rlist_min l = Ok lo.
Proof. destruct l; [congruence|]. cbn. eauto. Qed.

Lemma Rlist_max_total (l : list R) : l <> [] -> exists hi, Rlist_max l = Ok hi.
Proof. destruct l; [congruence|]. cbn. eauto. Qed.

Lemma items_get_map_res {U V} (F : string * U -> res (string * V)) (f : U -> res V)
    (d : list (string * U)) (d' : list (string * V)) (key : string) (u : U) :
  (forall k a y, F (k, a) = Ok y -> fst y = k /\ f a = Ok (snd y)) ->
  map_res F d = Ok d' ->
  items_get d key = Ok u ->
  exists v, f u = Ok v /\ items_get d' key = Ok v.
Proof.
  intros HF. revert d'. induction d as [|[k a] d IH]; intros d' Hm Hget.
  - discriminate.
  - cbn [map_res] in Hm.
    destruct (F (k, a)) as [y|] eqn:Hf; [|discriminate]. cbn [res_bind] in Hm.
    destruct (map_res F d) as [tl|] eqn:Htl; [|discriminate]. cbn [res_bind] in Hm.
    injection Hm as <-. destruct (HF k a y Hf) as [Hk Hv].
    unfold items_get in Hget |- *. cbn [List.find fst snd] in Hget |- *.
    rewrite Hk. destruct (String.eqb k key) eqn:Hkey.
    + injection Hget as <-. exists (snd y). split; [exact Hv|reflexivity].
    + apply (IH tl eq_refl). exact Hget.
Qed.

Section aperture_limit_facts.
Variable corners : string -> string -> list R * list R.
Variable sci_to_tel : string -> list R -> list R -> list R * list R.

(** X25.  Rederived limits are the extremes of the aperture's corners moved
    outwards by the border and expressed in arcmin, provided the border is
    not negative and the corners are not all equal along either axis. *)
Theorem NIRCam_V2V3_limits_border (module channel : string) (pupil : option string)
    (border : R) (apname : string) (v2 v3 : list R) (lo2 hi2 lo3 hi3 : R) :
  (0 <= border)%R ->
  items_get names_dict (channel +:+ module) = Ok apname ->
  (forall name ap, (name, ap) ∈ names_dict ->
     fst (tel_corners corners sci_to_tel pupil ap) <> []
     /\ snd (tel_corners corners sci_to_tel pupil ap) <> []) ->
  tel_corners corners sci_to_tel pupil apname = (v2, v3) ->
  Rlist_min v2 = Ok lo2 -> Rlist_max v2 = Ok hi2 -> (lo2 < hi2)%R ->
  Rlist_min v3 = Ok lo3 -> Rlist_max v3 = Ok hi3 -> (lo3 < hi3)%R ->
  NIRCam_V2V3_limits corners sci_to_tel module channel pupil true false (Some border)
  = Ok (Bounds ((lo2 - border) / 60) ((hi2 + border) / 60)
               ((lo3 - border) / 60) ((hi3 + border) / 60)).
Proof.
  intros Hb Hname Hne Htel Hlo2 Hhi2 Hlt2 Hlo3 Hhi3 Hlt3.
  unfold NIRCam_V2V3_limits, get_NRC_v2v3_limits. simpl default.
  match goal with |- context [map_res ?F0 names_dict] => set (F := F0) end.
  set (f := (fun ap : string =>
              let '(v2_ref, v3_ref) := tel_corners corners sci_to_tel pupil ap in
              res_bind (Rlist_min (add_border border v2_ref)) (fun v2_lo =>
              res_bind (Rlist_max (add_border border v2_ref)) (fun v2_hi =>
              res_bind (Rlist_min (add_border border v3_ref)) (fun v3_lo =>
              res_bind (Rlist_max (add_border border v3_ref)) (fun v3_hi =>
              Ok ([v2_lo / 60; v2_hi / 60], [v3_lo / 60; v3_hi / 60]))))))%R).
  assert (HF : forall k a y, F (k, a) = Ok y -> fst y = k /\ f a = Ok (snd y)).
  { intros k a y. unfold F, f. destruct (tel_corners corners sci_to_tel pupil a) as [a2 a3].
    cbv zeta.
    destruct (Rlist_min (add_border border a2)); [|discriminate].
    destruct (Rlist_max (add_border border a2)); [|discriminate].
    destruct (Rlist_min (add_border border a3)); [|discriminate].
    destruct (Rlist_max (add_border border a3)); [|discriminate].
    cbn [res_bind]. intros [= <-]. split; reflexivity. }
  destruct (map_res_Forall F (fun _ => True) names_dict) as (d & Hd & _).
  { apply Forall_forall. intros [k a] Hin. destruct (Hne k a Hin) as [H2 H3].
    unfold F. destruct (tel_corners corners sci_to_tel pupil a) as [a2 a3].
    cbn [fst snd] in H2, H3. cbv zeta.
    destruct (Rlist_min_total _ (add_border_nonempty border a2 H2)) as [x1 ->].
    destruct (Rlist_max_total _ (add_border_nonempty border a2 H2)) as [x2 ->].
    destruct (Rlist_min_total _ (add_border_nonempty border a3 H3)) as [x3 ->].
    destruct (Rlist_max_total _ (add_border_nonempty border a3 H3)) as [x4 ->].
    cbn [res_bind]. eauto. }
  rewrite Hd. cbn [res_bind].
  destruct (items_get_map_res F f names_dict d (channel +:+ module) apname HF Hd Hname)
    as (v & Hv & Hget).
  rewrite Hget. cbn [res_bind].
  unfold f in Hv. rewrite Htel in Hv.
  destruct (add_border_extremes border v2 lo2 hi2 Hb Hlo2 Hhi2 Hlt2) as [E1 E2].
  destruct (add_border_extremes border v3 lo3 hi3 Hb Hlo3 Hhi3 Hlt3) as [E3 E4].
  rewrite E1, E2, E3, E4 in Hv. cbn [res_bind] in Hv. injection Hv as <-.
  reflexivity.
Qed.
End aperture_limit_facts.

Lemma NIRCam_V2V3_limits_border_witness :
  let corners := fun (_ _ : string) => ([0; 0; 4; 4], [1; 3; 3; 1])%R in
  let sci_to_tel := fun (_ : string) (x y : list R) => (x, y) in
  NIRCam_V2V3_limits corners sci_to_tel "A" "LW" None true false (Some 10%R)
  = Ok (Bounds ((0 - 10) / 60) ((4 + 10) / 60) ((1 - 10) / 60) ((3 + 10) / 60)).
Proof.
  intros corners sci_to_tel.
  apply (NIRCam_V2V3_limits_border corners sci_to_tel "A" "LW" None 10 "NRCA5_FULL"
           [0; 0; 4; 4]%R [1; 3; 3; 1]%R).
  - lra.
  - reflexivity.
  - intros name ap _. unfold tel_corners.
    destruct (str_contains "S_" ap || str_contains "ALL_" ap); cbn; split; discriminate.
  - reflexivity.
  - cbn. unfold Rmin. repeat destruct Rle_dec; f_equal; lra.
  - cbn. unfold Rmax. repeat destruct Rle_dec; f_equal; lra.
  - lra.
  - cbn. unfold Rmin. repeat destruct Rle_dec; f_equal; lra.
  - cbn. unfold Rmax. repeat destruct Rle_dec; f_equal; lra.
  - lra.
Defined.

